(** * GeeCache: a shallow embedding of the cache fleet and its specification

    The development follows the packages of the repository:

    - [lru]            the byte-bounded least-recently-used cache,
    - [consistenthash] the hash ring with virtual nodes,
    - [singleflight]   the call deduplicator (sequential behaviour),
    - [geecache]       byte views, the cache shard, the group orchestrator
                       and the HTTP peer pool (client and server roles),
    - [main]           the program: the data source, the group it creates
                       and the handler of its API server.

    Go values are represented as follows.  An [int] or [int64] is a [Z]
    and every arithmetic operation on it is wrapped explicitly with
    [int64]; a [string] is a Rocq [string] (a sequence of bytes); a Go map
    is a [gmap]; a pointer is an address into an explicit store. *)

From stdpp Require Import gmap strings list sorting.
From Stdlib Require Import ZArith Lia Ascii DecimalString.

Local Open Scope string_scope.
Local Open Scope list_scope.
Local Open Scope stdpp_scope.
Local Open Scope Z_scope.

(* [set_solver] clears hypotheses it has already consumed. *)
#[local] Set Warnings "-clear-no-such-hyp".

(** ** Machine integers *)

(** Conversion to [int64]: the two's complement representative. *)
Definition int64 (z : Z) : Z := (z + 2 ^ 63) mod 2 ^ 64 - 2 ^ 63.

Definition max_int64 : Z := 2 ^ 63 - 1.

Definition add64 (a b : Z) : Z := int64 (a + b).
Definition sub64 (a b : Z) : Z := int64 (a - b).

(** [len(s)] of a Go string. *)
Definition len (s : string) : Z := Z.of_nat (String.length s).

(** ** Package lru *)

Module lru.

(** [type Value interface { Len() int }] *)
Class Value (V : Type) := Len : V -> Z.

Section Cache.
Context {V : Type} `{!Value V}.

(** [type entry struct { key string; value Value }] *)
Record entry := Entry { key : string; value : V }.

(** A [*list.Element]: an address in the store of list elements. *)
Definition Element := nat.

(** [type Cache struct].  The doubly linked list [ll] is the sequence of
    its elements from front to back, and [elems] maps each element to
    the [*entry] it carries ([ele.Value]), so that the map [cache] and
    the list share the elements as they do in the source.  [next_elem]
    is the allocation counter for [PushFront].  The callback
    [OnEvicted] is external code: [OnEvicted] records whether it is
    non-nil and [evicted] the calls made to it, in order. *)
Record Cache := mkCache {
  maxBytes : Z;
  nbytes : Z;
  ll : list Element;
  elems : gmap Element entry;
  cache : gmap string Element;
  next_elem : Element;
  OnEvicted : bool;
  evicted : list entry
}.

(** [func New(maxBytes int64, onEvicted func(string, Value)) *Cache] *)
Definition New (maxBytes : Z) (onEvicted : bool) : Cache :=
  {| maxBytes := maxBytes; nbytes := 0; ll := []; elems := ∅;
     cache := ∅; next_elem := 0%nat; OnEvicted := onEvicted;
     evicted := [] |}.

(** Unlinking an element from the list ([list.List.Remove]). *)
Fixpoint unlink (e : Element) (l : list Element) : list Element :=
  match l with
  | [] => []
  | x :: l' => if decide (x = e) then l' else x :: unlink e l'
  end.

(** [list.List.MoveToFront]: nothing happens when the element is not
    in the list. *)
Definition MoveToFront (e : Element) (l : list Element) : list Element :=
  if decide (e ∈ l) then e :: unlink e l else l.

(** [func (c *Cache) Get(key string) (value Value, ok bool)]; the pair
    [(value, ok)] is an [option]. *)
Definition Get (c : Cache) (k : string) : Cache * option V :=
  match cache c !! k with
  | Some ele =>
      let c' := {| maxBytes := maxBytes c; nbytes := nbytes c;
                   ll := MoveToFront ele (ll c); elems := elems c;
                   cache := cache c; next_elem := next_elem c;
                   OnEvicted := OnEvicted c; evicted := evicted c |} in
      (c', value <$> elems c !! ele)
  | None => (c, None)
  end.

(** The bytes charged for an entry. *)
Definition charge (kv : entry) : Z :=
  add64 (int64 (len (key kv))) (int64 (Len (value kv))).

(** [func (c *Cache) RemoveOldest()] *)
Definition RemoveOldest (c : Cache) : Cache :=
  match last (ll c) with
  | Some ele =>
      match elems c !! ele with
      | Some kv =>
          {| maxBytes := maxBytes c;
             nbytes := sub64 (nbytes c) (charge kv);
             ll := unlink ele (ll c);
             elems := delete ele (elems c);
             cache := delete (key kv) (cache c);
             next_elem := next_elem c;
             OnEvicted := OnEvicted c;
             evicted := if OnEvicted c then evicted c ++ [kv]
                        else evicted c |}
      | None => c
      end
  | None => c
  end.

(** The first half of [Add]: update in place or push a new element. *)
Definition store (c : Cache) (k : string) (v : V) : Cache :=
  match cache c !! k with
  | Some ele =>
      match elems c !! ele with
      | Some kv =>
          {| maxBytes := maxBytes c;
             nbytes := add64 (nbytes c)
                         (sub64 (int64 (Len v)) (int64 (Len (value kv))));
             ll := MoveToFront ele (ll c);
             elems := <[ele := Entry (key kv) v]> (elems c);
             cache := cache c; next_elem := next_elem c;
             OnEvicted := OnEvicted c; evicted := evicted c |}
      | None => c
      end
  | None =>
      let ele := next_elem c in
      {| maxBytes := maxBytes c;
         nbytes := add64 (nbytes c) (charge (Entry k v));
         ll := ele :: ll c;
         elems := <[ele := Entry k v]> (elems c);
         cache := <[k := ele]> (cache c);
         next_elem := S ele;
         OnEvicted := OnEvicted c; evicted := evicted c |}
  end.

(** The loop [for c.maxBytes != 0 && c.maxBytes < c.nbytes
    { c.RemoveOldest() }]; [None] when the fuel does not suffice. *)
Fixpoint evict (fuel : nat) (c : Cache) : option Cache :=
  if bool_decide (maxBytes c ≠ 0 ∧ maxBytes c < nbytes c) then
    match fuel with
    | O => None
    | S fuel' => evict fuel' (RemoveOldest c)
    end
  else Some c.

(** [func (c *Cache) Add(key string, value Value)] *)
Definition Add (fuel : nat) (c : Cache) (k : string) (v : V)
  : option Cache :=
  evict fuel (store c k v).

(** [func (c *Cache) Len() int] *)
Definition Cache_Len (c : Cache) : Z := Z.of_nat (length (ll c)).

(** The entries of the cache from most to least recently used. *)
Definition entries (c : Cache) : list entry :=
  omap (λ ele, elems c !! ele) (ll c).

(** The tracked size the cache is supposed to hold: the sum over all
    entries of key length plus value length. *)
Definition total_size (l : list entry) : Z :=
  foldr (λ kv acc, len (key kv) + Len (value kv) + acc) 0 l.

End Cache.

Arguments entry V : clear implicits.
Arguments Cache V : clear implicits.

End lru.

(** ** Go standard library functions used by the ring *)

(** Conversion to [uint32]; the conversion [int(...)] of such a value
    leaves it as it is. *)
Definition uint32 (z : Z) : Z := z mod 2 ^ 32.

(** [strconv.Itoa]: the decimal representation of an integer. *)
Definition Itoa (i : Z) : string :=
  DecimalString.NilZero.string_of_int (Z.to_int i).

(** [crc32.ChecksumIEEE]: the CRC-32 checksum with the IEEE polynomial,
    in its bit-by-bit form (reflected polynomial [0xEDB88320]). *)
Definition crc32_shift (crc : Z) : Z :=
  if Z.testbit crc 0 then Z.lxor (Z.shiftr crc 1) 0xEDB88320
  else Z.shiftr crc 1.

Definition crc32_update (crc : Z) (b : ascii) : Z :=
  Nat.iter 8 crc32_shift (Z.lxor crc (Z.of_N (N_of_ascii b))).

Definition ChecksumIEEE (data : string) : Z :=
  Z.lxor (foldl crc32_update 0xFFFFFFFF (String.list_ascii_of_string data))
         0xFFFFFFFF.

(** [sort.Ints]: sorting in increasing order.  The sorted arrangement of
    a sequence of integers is unique, so any sorting function computes
    what the library's does. *)
Definition sort_Ints (l : list Z) : list Z := merge_sort Z.le l.

(** [sort.Search(n, f)]: binary search for the least index [i] in
    [0, n) with [f i] true, or [n]; the loop of the library, whose
    interval [j - i] shrinks at every turn, so [n] turns suffice.

    [[
      i, j := 0, n
      for i < j {
        h := int(uint(i+j) >> 1)
        if !f(h) { i = h + 1 } else { j = h }
      }
      return i
    ]] *)
Fixpoint Search_loop (turns : nat) (i j : Z) (f : Z -> bool) : Z :=
  match turns with
  | O => i
  | S turns' =>
      if bool_decide (i < j) then
        let h := Z.shiftr (i + j) 1 in
        if negb (f h) then Search_loop turns' (h + 1) j f
        else Search_loop turns' i h f
      else i
  end.

Definition sort_Search (n : Z) (f : Z -> bool) : Z :=
  Search_loop (Z.to_nat n) 0 n f.

(** Indexing a slice of integers, [s[i]]; the default stands for the
    run-time panic of an index out of range. *)
Definition index (s : list Z) (i : Z) : Z :=
  if bool_decide (0 <= i) then default 0 (s !! Z.to_nat i) else 0.

(** ** Package consistenthash *)

Module consistenthash.

(** [type Hash func(data []byte) uint32] *)
Definition Hash := string -> Z.

(** [type Map struct] *)
Record Map := mkMap {
  hash : Hash;
  replicas : Z;
  keys : list Z;
  hashMap : gmap Z string
}.

(** [func New(replicas int, fn Hash) *Map]; [None] is the nil function. *)
Definition New (replicas : Z) (fn : option Hash) : Map :=
  {| hash := match fn with Some h => h | None => ChecksumIEEE end;
     replicas := replicas; keys := []; hashMap := ∅ |}.

(** One turn of the inner loop of [Add]: the virtual node [i] of the
    peer [key]. *)
Definition add_replica (key : string) (m : Map) (i : Z) : Map :=
  let h := uint32 (hash m (Itoa i +:+ key)) in
  {| hash := hash m; replicas := replicas m;
     keys := keys m ++ [h];
     hashMap := <[h := key]> (hashMap m) |}.

(** [func (m *Map) Add(keys ...string)] *)
Definition Add (m : Map) (peers : list string) : Map :=
  let m' := foldl (λ m key, foldl (add_replica key) m (seqZ 0 (replicas m)))
                  m peers in
  {| hash := hash m'; replicas := replicas m';
     keys := sort_Ints (keys m'); hashMap := hashMap m' |}.

(** [func (m *Map) Get(key string) string] *)
Definition Get (m : Map) (key : string) : string :=
  if bool_decide (length (keys m) = 0%nat) then ""
  else
    let h := uint32 (hash m key) in
    let n := Z.of_nat (length (keys m)) in
    let idx := sort_Search n (λ i, bool_decide (index (keys m) i >= h)) in
    default "" (hashMap m !! index (keys m) (Z.rem idx n)).

End consistenthash.

(** ** Go standard library functions used by the peer protocol *)

(** [s[:n]] and [s[n:]] on strings. *)
Fixpoint string_take (n : nat) (s : string) : string :=
  match n, s with
  | S n', String c s' => String c (string_take n' s')
  | _, _ => ""
  end.

Fixpoint string_drop (n : nat) (s : string) : string :=
  match n, s with
  | S n', String _ s' => string_drop n' s'
  | _, _ => s
  end.

(** [strings.HasPrefix] *)
Definition HasPrefix (s pre : string) : bool := String.prefix pre s.

(** [strings.Index]: the position of the first occurrence of [sep]. *)
Fixpoint Index (s sep : string) : option nat :=
  if String.prefix sep s then Some O
  else match s with
       | "" => None
       | String _ s' => S <$> Index s' sep
       end.

(** [strings.SplitN(s, sep, n)] for [n > 0] and a non-empty [sep]: the
    library caps [n] at [len(s) + 1] and makes at most [n - 1] cuts, the
    last piece being the unsplit remainder. *)
Fixpoint SplitN_cuts (cuts : nat) (s sep : string) : list string :=
  match cuts with
  | O => [s]
  | S cuts' =>
      match Index s sep with
      | None => [s]
      | Some m =>
          string_take m s
            :: SplitN_cuts cuts' (string_drop (m + String.length sep) s) sep
      end
  end.

Definition SplitN (s sep : string) (n : nat) : list string :=
  SplitN_cuts (Nat.min n (String.length s + 1) - 1) s sep.

(** The byte classes of package [net/url]. *)
Definition is_alnum (c : ascii) : bool :=
  let n := N_of_ascii c in
  ((48 <=? n) && (n <=? 57) || (65 <=? n) && (n <=? 90)
   || (97 <=? n) && (n <=? 122))%N.

(** [shouldEscape(c, encodeQueryComponent)]: everything is escaped but
    letters, digits and the marks [- _ . ~]. *)
Definition shouldEscape_query (c : ascii) : bool :=
  negb (is_alnum c
        || bool_decide (c = "-"%char) || bool_decide (c = "_"%char)
        || bool_decide (c = "."%char) || bool_decide (c = "~"%char)).

Definition upperhex (n : N) : ascii :=
  default "0"%char (String.get (N.to_nat n) "0123456789ABCDEF").

(** [url.QueryEscape] *)
Fixpoint QueryEscape (s : string) : string :=
  match s with
  | "" => ""
  | String c s' =>
      if bool_decide (c = " "%char) then String "+" (QueryEscape s')
      else if shouldEscape_query c then
        String "%"
          (String (upperhex (N_of_ascii c / 16))
             (String (upperhex (N_of_ascii c mod 16)) (QueryEscape s')))
      else String c (QueryEscape s')
  end.

Definition ishex (c : ascii) : bool :=
  let n := N_of_ascii c in
  ((48 <=? n) && (n <=? 57) || (97 <=? n) && (n <=? 102)
   || (65 <=? n) && (n <=? 70))%N.

Definition unhex (c : ascii) : N :=
  let n := N_of_ascii c in
  (if (48 <=? n) && (n <=? 57) then n - 48
   else if (97 <=? n) && (n <=? 102) then n - 97 + 10
   else if (65 <=? n) && (n <=? 70) then n - 65 + 10
   else 0)%N.

(** [unescape(s, encodePath)], by which the HTTP server obtains
    [r.URL.Path] from the path of the request line: every [%XX] is
    decoded, a [+] stays a [+], and a malformed escape is an error. *)
Fixpoint unescape_path (s : string) : option string :=
  match s with
  | "" => Some ""
  | String c s' =>
      if bool_decide (c = "%"%char) then
        match s' with
        | String a (String b s'') =>
            if ishex a && ishex b then
              String (ascii_of_N (unhex a * 16 + unhex b))
                <$> unescape_path s''
            else None
        | _ => None
        end
      else String c <$> unescape_path s'
  end.

(** ** Package singleflight *)

Module singleflight.

(** Modelled from the spec: the type [singleflight.Group] of the package
    [geecache/singleflight], which the group imports and which is not
    among the sources.  The specification gives it the in-flight call
    records, at most one per key; what matters of them to a single
    thread of control is the set of keys that have one. *)
Record Group := mkGroup { m : gset string }.

(** Modelled from the spec: [func (g *Group) Do(key string, fn func()
    (interface{}, error)) (interface{}, error)] of the same package.
    When no call for [key] is in flight, the caller registers the key,
    invokes the producer synchronously, delivers its result (value and
    error), and deregisters the key; when a call for [key] is in flight,
    the caller blocks until that call completes, which with a single
    thread of control it never does ([None]). *)
Definition Do {St A : Type} (g : Group) (key : string)
    (fn : St -> option (A * St)) (s : St) : option (A * Group * St) :=
  if bool_decide (key ∈ m g) then None
  else
    let registered := {| m := {[key]} ∪ m g |} in
    match fn s with
    | Some (r, s') => Some (r, {| m := m registered ∖ {[key]} |}, s')
    | None => None
    end.

End singleflight.

(** ** Package geecache *)

Module geecache.

(** *** Byte slices and the memory they share *)

(** A [[]byte] is a window on a byte array of the heap; [nil] is the
    zero slice.  Two slices on the same array alias each other, which is
    what [cloneBytes] is there to prevent. *)
Definition loc := nat.

Inductive bytes :=
  | nil_bytes
  | Slice (arr : loc) (off : nat) (n : nat).
Arguments Slice (arr off n)%_nat_scope.

Abbreviation Heap := (gmap loc (list ascii)).

(** [len(b)] *)
Definition bytes_len (b : bytes) : nat :=
  match b with nil_bytes => O | Slice _ _ n => n end.

(** The contents seen through a slice. *)
Definition contents (h : Heap) (b : bytes) : list ascii :=
  match b with
  | nil_bytes => []
  | Slice a off n => take n (drop off (default [] (h !! a)))
  end.

(** [make([]byte, n)]: a fresh zeroed array. *)
Definition make_bytes (n : nat) (h : Heap) : bytes * Heap :=
  let a := fresh (dom h) in
  (Slice a 0 n, <[a := replicate n zero]> h).

(** [copy(dst, src)] *)
Definition copy_bytes (dst src : bytes) (h : Heap) : Heap :=
  match dst with
  | nil_bytes => h
  | Slice a off n =>
      let data := take n (contents h src) in
      let old := default [] (h !! a) in
      <[a := take off old ++ data
               ++ drop (off + length data) old]> h
  end.

(** [func cloneBytes(b []byte) []byte] *)
Definition cloneBytes (b : bytes) (h : Heap) : bytes * Heap :=
  let '(c, h1) := make_bytes (bytes_len b) h in
  (c, copy_bytes c b h1).

(** [type ByteView struct { b []byte }] *)
Record ByteView := mkByteView { b : bytes }.

(** [func (v ByteView) Len() int] *)
Definition ByteView_Len (v : ByteView) : Z := Z.of_nat (bytes_len (b v)).

#[global] Instance ByteView_Value : lru.Value ByteView := ByteView_Len.

(** [func (v ByteView) ByteSlice() []byte] *)
Definition ByteSlice (v : ByteView) (h : Heap) : bytes * Heap :=
  cloneBytes (b v) h.

(** [func (v ByteView) String() string] *)
Definition ByteView_String (v : ByteView) (h : Heap) : string :=
  String.string_of_list_ascii (contents h (b v)).

(** *** The cache shard *)

(** [type cache struct]; the mutex guards a single operation and has no
    part in a sequential run.  [lru] is a pointer, nil until first
    written. *)
Record cache := mkcache {
  lru : option (lru.Cache ByteView);
  cacheBytes : Z
}.

(** [func (c *cache) add(key string, value ByteView)] *)
Definition add (fuel : nat) (c : cache) (key : string) (value : ByteView)
  : option cache :=
  let l := match lru c with
           | None => lru.New (cacheBytes c) false
           | Some l => l
           end in
  match lru.Add fuel l key value with
  | Some l' => Some {| lru := Some l'; cacheBytes := cacheBytes c |}
  | None => None
  end.

(** [func (c *cache) get(key string) (value ByteView, ok bool)] *)
Definition get (c : cache) (key : string) : cache * option ByteView :=
  match lru c with
  | None => (c, None)
  | Some l =>
      let '(l', r) := lru.Get l key in
      ({| lru := Some l'; cacheBytes := cacheBytes c |}, r)
  end.

(** *** The group and its collaborators *)

Section Group.
Context {X : Type}.

(** What the group does not own: the heap of byte arrays, the lines
    written by package [log], and the state [X] of the external
    collaborators (the data source behind the load callback, the
    network behind the peers). *)
Record Env := mkEnv {
  heap : Heap;
  output : list string;
  ext : X
}.

(** An [error] is represented by its message; [None] is the nil error. *)
Definition error := string.

(** [type Getter interface { Get(key string) ([]byte, error) }] *)
Definition Getter := string -> Env -> (bytes * option error) * Env.

(** [type PeerGetter interface { Get(group string, key string)
    ([]byte, error) }] *)
Definition PeerGetter :=
  string -> string -> Env -> (bytes * option error) * Env.

(** [type PeerPicker interface { PickPeer(key string)
    (peer PeerGetter, ok bool) }]; [Some peer] stands for [(peer, true)]
    and [None] for [(nil, false)]. *)
Definition PeerPicker := string -> Env -> option PeerGetter * Env.

(** The calls a group makes to its collaborators and to its shard are
    recorded in order. *)
Inductive Call :=
  | CallShardGet (key : string)
  | CallShardAdd (key : string)
  | CallPickPeer (key : string)
  | CallPeerGet (group key : string)
  | CallGetter (key : string).

Record World := mkWorld {
  env : Env;
  calls : list Call
}.

Definition called (c : Call) (w : World) : World :=
  {| env := env w; calls := calls w ++ [c] |}.

Definition with_env (e : Env) (w : World) : World :=
  {| env := e; calls := calls w |}.

(** [log.Println] *)
Definition Println (line : string) (e : Env) : Env :=
  {| heap := heap e; output := output e ++ [line]; ext := ext e |}.

Definition with_heap (h : Heap) (e : Env) : Env :=
  {| heap := h; output := output e; ext := ext e |}.

(** [type Group struct] *)
Record Group := mkGroup {
  name : string;
  getter : Getter;
  mainCache : cache;
  peers : option PeerPicker;
  loader : singleflight.Group
}.

Definition with_mainCache (c : cache) (g : Group) : Group :=
  {| name := name g; getter := getter g; mainCache := c;
     peers := peers g; loader := loader g |}.

Definition with_loader (l : singleflight.Group) (g : Group) : Group :=
  {| name := name g; getter := getter g; mainCache := mainCache g;
     peers := peers g; loader := l |}.

(** The zero value [ByteView{}]. *)
Definition ByteView_zero : ByteView := {| b := nil_bytes |}.

(** [func (g *Group) populateCache(key string, value ByteView)] *)
Definition populateCache (fuel : nat) (g : Group) (key : string)
    (value : ByteView) (w : World) : option (Group * World) :=
  match add fuel (mainCache g) key value with
  | Some c => Some (with_mainCache c g, called (CallShardAdd key) w)
  | None => None
  end.

(** [func (g *Group) getLocally(key string) (ByteView, error)] *)
Definition getLocally (fuel : nat) (g : Group) (key : string) (w : World)
  : option ((ByteView * option error) * Group * World) :=
  let w1 := called (CallGetter key) w in
  let '((data, err), e) := getter g key (env w1) in
  match err with
  | Some _ => Some ((ByteView_zero, err), g, with_env e w1)
  | None =>
      let '(c, h) := cloneBytes data (heap e) in
      let value := {| b := c |} in
      match populateCache fuel g key value (with_env (with_heap h e) w1) with
      | Some (g', w2) => Some ((value, None), g', w2)
      | None => None
      end
  end.

(** [func (g *Group) getFromPeer(peer PeerGetter, key string)
    (ByteView, error)] *)
Definition getFromPeer (g : Group) (peer : PeerGetter) (key : string)
    (w : World) : (ByteView * option error) * World :=
  let w1 := called (CallPeerGet (name g) key) w in
  let '((data, err), e) := peer (name g) key (env w1) in
  match err with
  | Some _ => ((ByteView_zero, err), with_env e w1)
  | None => (({| b := data |}, None), with_env e w1)
  end.

(** The variables of [load] that its closure captures: the group, the
    world, and the named results [value] and [err]. *)
Record frame := mkFrame {
  fr_group : Group;
  fr_world : World;
  fr_value : ByteView;
  fr_err : option error
}.

(** The function literal passed to [g.loader.Do] in [load]. *)
Definition load_producer (fuel : nat) (key : string) (fr : frame)
  : option ((ByteView * option error) * frame) :=
  let g := fr_group fr in
  let local (fr : frame) :=
    match getLocally fuel (fr_group fr) key (fr_world fr) with
    | Some (r, g', w') =>
        Some (r, {| fr_group := g'; fr_world := w';
                    fr_value := fr_value fr; fr_err := fr_err fr |})
    | None => None
    end in
  match peers g with
  | Some picker =>
      let w1 := called (CallPickPeer key) (fr_world fr) in
      let '(peer, e) := picker key (env w1) in
      let w2 := with_env e w1 in
      match peer with
      | Some peer =>
          let '((value, err), w3) := getFromPeer g peer key w2 in
          match err with
          | None =>
              Some ((value, None),
                    {| fr_group := g; fr_world := w3;
                       fr_value := value; fr_err := err |})
          | Some msg =>
              let line := "[GeeCache] Failed to get from peer " +:+ msg in
              local {| fr_group := g;
                       fr_world := with_env (Println line (env w3)) w3;
                       fr_value := value; fr_err := err |}
          end
      | None =>
          local {| fr_group := g; fr_world := w2;
                   fr_value := fr_value fr; fr_err := fr_err fr |}
      end
  | None => local fr
  end.

(** [func (g *Group) load(key string) (value ByteView, err error)] *)
Definition load (fuel : nat) (g : Group) (key : string) (w : World)
  : option ((ByteView * option error) * Group * World) :=
  let fr := {| fr_group := g; fr_world := w;
               fr_value := ByteView_zero; fr_err := None |} in
  match singleflight.Do (loader g) key (load_producer fuel key) fr with
  | Some ((viewi, err), l, fr') =>
      let g' := with_loader l (fr_group fr') in
      match err with
      | None => Some ((viewi, None), g', fr_world fr')
      | Some _ => Some ((fr_value fr', err), g', fr_world fr')
      end
  | None => None
  end.

(** [func (g *Group) Get(key string) (ByteView, error)] *)
Definition Get (fuel : nat) (g : Group) (key : string) (w : World)
  : option ((ByteView * option error) * Group * World) :=
  if bool_decide (key = "") then
    Some ((ByteView_zero, Some "key is required"), g, w)
  else
    let '(c, r) := get (mainCache g) key in
    let g1 := with_mainCache c g in
    let w1 := called (CallShardGet key) w in
    match r with
    | Some v =>
        Some ((v, None), g1, with_env (Println "[GeeCache hit]" (env w1)) w1)
    | None => load fuel g1 key w1
    end.

(** What a call ends in: a result, a run-time panic, or (for the loop of
    the eviction cache) not within the fuel given. *)
Inductive outcome (A : Type) :=
  | Returns (a : A)
  | Panics (msg : string)
  | OutOfFuel.
Arguments Returns {A} a.
Arguments Panics {A} msg.
Arguments OutOfFuel {A}.

(** The process-wide registry [groups]; the read/write lock has no part
    in a sequential run. *)
Definition Registry := gmap string Group.

(** [func NewGroup(name string, cacheBytes int64, getter Getter) *Group];
    [None] is the nil getter. *)
Definition NewGroup (groups : Registry) (name : string) (cacheBytes : Z)
    (getter : option Getter) : outcome (Group * Registry) :=
  match getter with
  | None => Panics "nil Getter"
  | Some getter =>
      let g := {| name := name; getter := getter;
                  mainCache := {| lru := None; cacheBytes := cacheBytes |};
                  peers := None;
                  loader := {| singleflight.m := ∅ |} |} in
      Returns (g, <[name := g]> groups)
  end.

(** [func GetGroup(name string) *Group] *)
Definition GetGroup (groups : Registry) (name : string) : option Group :=
  groups !! name.

(** [func (g *Group) RegisterPeers(peers PeerPicker)] *)
Definition RegisterPeers (g : Group) (picker : PeerPicker) : outcome Group :=
  match peers g with
  | Some _ => Panics "RegisterPeerPicker called more than once"
  | None =>
      Returns {| name := name g; getter := getter g;
                 mainCache := mainCache g; peers := Some picker;
                 loader := loader g |}
  end.

End Group.

Arguments Env X : clear implicits.
Arguments World X : clear implicits.
Arguments Group X : clear implicits.
Arguments Getter X : clear implicits.
Arguments PeerGetter X : clear implicits.
Arguments PeerPicker X : clear implicits.
Arguments Registry X : clear implicits.
Arguments frame X : clear implicits.
Arguments Returns {A} a.
Arguments Panics {A} msg.
Arguments OutOfFuel {A}.

(** *** The HTTP pool: server, client and peer selection *)

Definition defaultBasePath : string := "/_geecache/".
Definition defaultReplicas : Z := 50.

(** [type httpGetter struct { baseURL string }] *)
Record httpGetter := mkHttpGetter { baseURL : string }.

(** [type HTTPPool struct]; [peers] is a pointer, nil until [Set], and a
    nil map [httpGetters] reads as the empty map. *)
Record HTTPPool := mkHTTPPool {
  self : string;
  basePath : string;
  pool_peers : option consistenthash.Map;
  httpGetters : gmap string httpGetter
}.

(** [func NewHTTPPool(self string) *HTTPPool] *)
Definition NewHTTPPool (self : string) : HTTPPool :=
  {| self := self; basePath := defaultBasePath;
     pool_peers := None; httpGetters := ∅ |}.

(** [func (p *HTTPPool) Set(peers ...string)] *)
Definition HTTPPool_Set (p : HTTPPool) (peers : list string) : HTTPPool :=
  {| self := self p; basePath := basePath p;
     pool_peers :=
       Some (consistenthash.Add (consistenthash.New defaultReplicas None)
                                peers);
     httpGetters :=
       foldl (λ getters peer,
                <[peer := {| baseURL := peer +:+ basePath p |}]> getters)
             ∅ peers |}.

(** The URL that [httpGetter.Get] requests:
    [fmt.Sprintf("%v%v%v", h.baseURL, url.QueryEscape(group),
    url.QueryEscape(key))]. *)
Definition request_url (h : httpGetter) (group key : string) : string :=
  baseURL h +:+ QueryEscape group +:+ QueryEscape key.

(** The HTTP response as the handler leaves it.  [http.Error] sends a
    plain-text body, the message followed by a newline. *)
Record Response := mkResponse {
  status : Z;
  content_type : string;
  body : list ascii
}.

Definition http_Error (msg : string) (code : Z) : Response :=
  {| status := code; content_type := "text/plain; charset=utf-8";
     body := String.list_ascii_of_string msg ++ ["010"%char] |}.

Section Pool.
Context {X : Type}.

(** [func (p *HTTPPool) Log(format string, v ...interface{})], applied to
    the formatted message. *)
Definition HTTPPool_Log (p : HTTPPool) (msg : string) (e : Env X) : Env X :=
  Println ("Server " +:+ self p +:+ "] " +:+ msg) e.

(** [func (p *HTTPPool) PickPeer(key string) (PeerGetter, bool)]; a
    missing entry of [httpGetters] is the nil pointer, [None].  Calling
    [Get] through the nil pointer [p.peers] panics. *)
Definition PickPeer (p : HTTPPool) (key : string) (e : Env X)
  : outcome ((option httpGetter * bool) * Env X) :=
  match pool_peers p with
  | None => Panics "invalid memory address or nil pointer dereference"
  | Some ring =>
      let peer := consistenthash.Get ring key in
      if bool_decide (peer ≠ "" ∧ peer ≠ self p) then
        Returns ((httpGetters p !! peer, true),
                 HTTPPool_Log p ("Pick peer " +:+ peer) e)
      else Returns ((None, false), e)
  end.

(** What [http.Get] gives back: a transport error, or a response with
    its status and a body still to be read by [io.ReadAll]. *)
Record http_Response := mkHttpResponse {
  StatusCode : Z;
  Status : string;
  ReadAll : Env X -> (bytes * option error) * Env X
}.

Definition Transport := string -> Env X -> (http_Response + error) * Env X.

(** [func (h *httpGetter) Get(group string, key string) ([]byte, error)],
    over the transport [http.Get]. *)
Definition httpGetter_Get (http_Get : Transport) (h : httpGetter)
    (group key : string) (e : Env X) : (bytes * option error) * Env X :=
  let u := request_url h group key in
  match http_Get u e with
  | (inr err, e1) => ((nil_bytes, Some err), e1)
  | (inl res, e1) =>
      if bool_decide (StatusCode res ≠ 200) then
        ((nil_bytes, Some ("server returned: " +:+ Status res)), e1)
      else
        match ReadAll res e1 with
        | ((_, Some err), e2) =>
            ((nil_bytes, Some ("reading response body: " +:+ err)), e2)
        | ((data, None), e2) => ((data, None), e2)
        end
  end.

(** [func (p *HTTPPool) ServeHTTP(w http.ResponseWriter, r *http.Request)]
    on the request's method and [r.URL.Path], with the registry of
    groups it reads.  *)
Definition ServeHTTP (fuel : nat) (p : HTTPPool) (groups : Registry X)
    (method path : string) (w : World X)
  : outcome (Response * Registry X * World X) :=
  if negb (HasPrefix path (basePath p)) then
    Panics ("HTTPPool serving unexpected path: " +:+ path)
  else
    let w1 := with_env (HTTPPool_Log p (method +:+ " " +:+ path) (env w)) w in
    let parts :=
      SplitN (string_drop (String.length (basePath p)) path) "/" 2 in
    match parts with
    | [groupName; key] =>
        match GetGroup groups groupName with
        | None =>
            Returns (http_Error ("no such group" +:+ groupName) 404,
                     groups, w1)
        | Some group =>
            match Get fuel group key w1 with
            | None => OutOfFuel
            | Some ((_, Some err), group', w2) =>
                Returns (http_Error err 500,
                         <[groupName := group']> groups, w2)
            | Some ((view, None), group', w2) =>
                let '(data, h) := ByteSlice view (heap (env w2)) in
                Returns ({| status := 200;
                            content_type := "application/octet-stream";
                            body := contents h data |},
                         <[groupName := group']> groups,
                         with_env (with_heap h (env w2)) w2)
            end
        end
    | _ => Returns (http_Error "bad request" 400, groups, w1)
    end.

End Pool.

(** The request line that reaches a peer for [Get(group, key)]: the
    client requests [peer + basePath + QueryEscape(group) +
    QueryEscape(key)], whose path is sent as it stands (it is a valid
    encoding of itself), and the server decodes it into [r.URL.Path]. *)
Definition request_target (p : HTTPPool) (group key : string) : string :=
  basePath p +:+ QueryEscape group +:+ QueryEscape key.

Definition URL_Path (target : string) : option string :=
  unescape_path target.

End geecache.

(** ** The program [main] *)

Module main.
Import geecache.

(** [var db = map[string]string{...}] *)
Definition db : gmap string string :=
  {[ "Tom" := "630"; "Jack" := "589"; "Sam" := "567" ]}.

(** The conversion [[]byte(s)]: a new array that holds the bytes of the
    string. *)
Definition bytes_of_string (s : string) (h : Heap) : bytes * Heap :=
  let a := fresh (dom h) in
  (Slice a 0 (String.length s), <[a := String.list_ascii_of_string s]> h).

(** [url.Values] and its method [Get]: the first value of the key, or
    the empty string. *)
Definition Values := gmap string (list string).

Definition Values_Get (v : Values) (key : string) : string :=
  match v !! key with
  | Some (x :: _) => x
  | _ => ""
  end.

Section program.
Context {X : Type}.

(** The function literal that [createGroup] passes as the getter,
    through [GetterFunc], whose method [Get] calls it. *)
Definition slowdb : Getter X := λ key e,
  let e1 := Println ("[SlowDB] search key " +:+ key) e in
  match db !! key with
  | Some v =>
      let '(data, h) := bytes_of_string v (heap e1) in
      ((data, None), with_heap h e1)
  | None => ((nil_bytes, Some (key +:+ " not exist")), e1)
  end.

(** [func createGroup() *geecache.Group] *)
Definition createGroup (groups : Registry X)
  : outcome (Group X * Registry X) :=
  NewGroup groups "scores" (Z.shiftl 2 10) (Some slowdb).

(** The handler that [startAPIServer] registers for [/api], on the query
    values [r.URL.Query()] of the request. *)
Definition api_handler (fuel : nat) (gee : Group X) (query : Values)
    (w : World X) : option (Response * Group X * World X) :=
  let key := Values_Get query "key" in
  match Get fuel gee key w with
  | None => None
  | Some ((_, Some err), gee', w1) => Some (http_Error err 500, gee', w1)
  | Some ((view, None), gee', w1) =>
      let '(data, h) := ByteSlice view (heap (env w1)) in
      Some ({| status := 200;
               content_type := "application/octet-stream";
               body := contents h data |},
            gee', with_env (with_heap h (env w1)) w1)
  end.

End program.
End main.

(** * Verification *)

(** ** Machine integers *)

Lemma max_int64_eq : max_int64 = 9223372036854775807.
Proof. reflexivity. Qed.

Lemma int64_range z : - max_int64 - 1 <= int64 z <= max_int64.
Proof.
  unfold int64, max_int64.
  pose proof (Z.mod_pos_bound (z + 2 ^ 63) (2 ^ 64) ltac:(lia)). lia.
Qed.

Lemma int64_id z : - max_int64 - 1 <= z <= max_int64 -> int64 z = z.
Proof.
  unfold int64, max_int64. intros Hz.
  rewrite Z.mod_small by lia. lia.
Qed.

(** Closes a goal [int64 z = z'] or a side condition on the range, given
    bounds in the context. *)
Ltac int64_solve :=
  pose proof max_int64_eq;
  repeat match goal with
         | |- context [int64 ?z] => rewrite (int64_id z) by lia
         end;
  lia.

Lemma int64_add_l a b : int64 (int64 a + b) = int64 (a + b).
Proof.
  unfold int64.
  replace (((a + 2 ^ 63) mod 2 ^ 64 - 2 ^ 63) + b + 2 ^ 63)
    with ((a + 2 ^ 63) mod 2 ^ 64 + b) by lia.
  rewrite Zplus_mod_idemp_l. f_equal. f_equal. lia.
Qed.

Lemma int64_add_r a b : int64 (a + int64 b) = int64 (a + b).
Proof. rewrite (Z.add_comm a), int64_add_l. f_equal. lia. Qed.

Lemma int64_sub_l a b : int64 (int64 a - b) = int64 (a - b).
Proof. apply (int64_add_l a (- b)). Qed.

Lemma int64_sub_r a b : int64 (a - int64 b) = int64 (a - b).
Proof.
  unfold int64.
  replace (a - ((b + 2 ^ 63) mod 2 ^ 64 - 2 ^ 63) + 2 ^ 63)
    with ((a + 2 ^ 63 + 2 ^ 63) - (b + 2 ^ 63) mod 2 ^ 64) by lia.
  rewrite Zminus_mod_idemp_r. f_equal. f_equal. lia.
Qed.

Lemma int64_0 : int64 0 = 0.
Proof. reflexivity. Qed.

(** ** The eviction cache: list surgery *)

Section lru_lists.
Import lru.

Lemma unlink_split (l1 : list Element) e l2 :
  e ∉ l1 -> unlink e (l1 ++ e :: l2) = l1 ++ l2.
Proof.
  induction l1 as [|x l1 IH]; intros Hn; simpl.
  - by rewrite decide_True.
  - apply not_elem_of_cons in Hn as [Hx Hn].
    rewrite decide_False by congruence. by rewrite IH.
Qed.

Lemma unlink_notin e (l : list Element) : e ∉ l -> unlink e l = l.
Proof.
  induction l as [|x l IH]; intros Hn; simpl; [done|].
  apply not_elem_of_cons in Hn as [Hx Hn].
  rewrite decide_False by congruence. by rewrite IH.
Qed.

Lemma unlink_perm e (l : list Element) : e ∈ l -> e :: unlink e l ≡ₚ l.
Proof.
  induction l as [|x l IH]; intros Hin; [by apply elem_of_nil in Hin|].
  simpl. destruct (decide (x = e)) as [->|Hne]; [done|].
  apply elem_of_cons in Hin as [->|Hin]; [done|].
  rewrite Permutation_swap. by rewrite IH.
Qed.

Lemma MoveToFront_perm e (l : list Element) : MoveToFront e l ≡ₚ l.
Proof.
  unfold MoveToFront. destruct (decide (e ∈ l)); [|done].
  by apply unlink_perm.
Qed.

Lemma MoveToFront_split (l1 : list Element) e l2 :
  e ∉ l1 -> MoveToFront e (l1 ++ e :: l2) = e :: l1 ++ l2.
Proof.
  intros Hn. unfold MoveToFront. rewrite decide_True by set_solver.
  by rewrite unlink_split.
Qed.

Lemma NoDup_split (l : list Element) e :
  NoDup l -> e ∈ l ->
  ∃ l1 l2, l = l1 ++ (e :: l2) ∧ (e ∉ l1) ∧ (e ∉ l2) ∧ NoDup (l1 ++ l2).
Proof.
  intros Hnd Hin. apply list_elem_of_split in Hin as (l1 & l2 & ->).
  exists l1, l2. apply NoDup_app in Hnd as (Hd1 & Hd12 & Hd2).
  apply NoDup_cons in Hd2 as [Hn2 Hd2].
  split_and!; [done| |done|].
  - intros Hin. apply (Hd12 _ Hin). set_solver.
  - apply NoDup_app. split_and!; [done| |done].
    intros x Hx Hx2. apply (Hd12 _ Hx). set_solver.
Qed.

Lemma last_split (l : list Element) e :
  NoDup l -> last l = Some e -> ∃ l1, l = (l1 ++ [e]) ∧ (e ∉ l1) ∧ NoDup l1.
Proof.
  intros Hnd Hl. apply last_Some in Hl as [l1 ->]. exists l1.
  apply NoDup_app in Hnd as (Hd1 & Hd12 & _).
  split_and!; [done| |done]. intros Hin. apply (Hd12 _ Hin). set_solver.
Qed.

End lru_lists.

(** ** The eviction cache: representation invariant *)

Section lru_wf.
Context {V : Type} `{!lru.Value V}.
Import lru.

(** The list holds each element once, every element of the list carries
    an entry, the map indexes exactly the elements of the list by the
    key of their entry, and the allocation counter is above them. *)
Record wf (c : Cache V) : Prop := mkWf {
  wf_nodup : NoDup (ll c);
  wf_elems : ∀ ele, ele ∈ ll c -> is_Some (elems c !! ele);
  wf_cache : ∀ k ele,
    cache c !! k = Some ele <->
    ele ∈ ll c ∧ ∃ v, elems c !! ele = Some (Entry k v);
  wf_fresh : ∀ ele, ele ∈ ll c -> (ele < next_elem c)%nat
}.

Lemma wf_New maxBytes onEvicted : wf (New maxBytes onEvicted).
Proof.
  split; simpl.
  - constructor.
  - intros ele Hin. by apply elem_of_nil in Hin.
  - intros k ele. rewrite lookup_empty. split; [done|].
    intros [Hin _]. by apply elem_of_nil in Hin.
  - intros ele Hin. by apply elem_of_nil in Hin.
Qed.

Lemma wf_hit (c : Cache V) k ele :
  wf c -> cache c !! k = Some ele ->
  ∃ v l1 l2, elems c !! ele = Some (Entry k v) ∧
    ll c = l1 ++ (ele :: l2) ∧ (ele ∉ l1) ∧ (ele ∉ l2) ∧ NoDup (l1 ++ l2).
Proof.
  intros Hwf Hk. apply (wf_cache c Hwf) in Hk as [Hin [v Hv]].
  destruct (NoDup_split (ll c) ele (wf_nodup c Hwf) Hin)
    as (l1 & l2 & Hll & Hn1 & Hn2 & Hnd).
  by exists v, l1, l2.
Qed.

Lemma wf_Get (c : Cache V) k : wf c -> wf (Get c k).1.
Proof.
  intros Hwf. unfold Get. destruct (cache c !! k) as [ele|] eqn:Hk; [|done].
  destruct Hwf as [Hnd Hel Hca Hfr]. simpl.
  split; simpl.
  - by rewrite MoveToFront_perm.
  - intros e. rewrite MoveToFront_perm. apply Hel.
  - intros k' e. rewrite MoveToFront_perm. apply Hca.
  - intros e. rewrite MoveToFront_perm. apply Hfr.
Qed.

Lemma wf_RemoveOldest (c : Cache V) : wf c -> wf (RemoveOldest c).
Proof.
  intros Hwf. unfold RemoveOldest.
  destruct (last (ll c)) as [ele|] eqn:Hlast; [|done].
  destruct (elems c !! ele) as [kv|] eqn:Hkv; [|done].
  destruct (last_split _ _ (wf_nodup c Hwf) Hlast) as (l1 & Hll & Hn1 & Hnd1).
  destruct Hwf as [Hnd Hel Hca Hfr].
  rewrite Hll in *.
  assert (Hun : unlink ele (l1 ++ [ele]) = l1).
  { rewrite unlink_split by done. by rewrite app_nil_r. }
  split; simpl; rewrite Hun.
  - done.
  - intros e He. rewrite lookup_delete_ne by set_solver.
    apply Hel. set_solver.
  - intros k e. destruct kv as [k0 v0]. simpl. split.
    + intros Hk. destruct (decide (k0 = k)) as [->|Hne].
      { by rewrite lookup_delete_eq in Hk. }
      rewrite lookup_delete_ne in Hk by done.
      apply Hca in Hk as [Hin [v Hv]].
      assert (e ≠ ele) by congruence.
      split; [set_solver|]. exists v. by rewrite lookup_delete_ne.
    + intros [Hin [v Hv]].
      assert (e ≠ ele) by set_solver.
      rewrite lookup_delete_ne in Hv by done.
      assert (Hk : cache c !! k = Some e).
      { apply Hca. split; [set_solver|]. by exists v. }
      destruct (decide (k0 = k)) as [->|Hne].
      * assert (cache c !! k = Some ele).
        { apply Hca. split; [set_solver|]. by exists v0. }
        congruence.
      * by rewrite lookup_delete_ne.
  - intros e He. apply Hfr. set_solver.
Qed.

Lemma wf_store (c : Cache V) k v : wf c -> wf (store c k v).
Proof.
  intros Hwf. unfold store.
  destruct (cache c !! k) as [ele|] eqn:Hk.
  - destruct (wf_hit c k ele Hwf Hk)
      as (v0 & l1 & l2 & Hv0 & Hll & Hn1 & Hn2 & Hnd12).
    rewrite Hv0. destruct Hwf as [Hnd Hel Hca Hfr].
    split; simpl.
    + by rewrite MoveToFront_perm.
    + intros e. rewrite MoveToFront_perm. intros He.
      destruct (decide (e = ele)) as [->|Hne].
      * rewrite lookup_insert_eq. by eexists.
      * rewrite lookup_insert_ne by done. by apply Hel.
    + intros k' e. rewrite MoveToFront_perm. rewrite Hca.
      destruct (decide (e = ele)) as [->|Hne].
      * rewrite lookup_insert_eq, Hv0. split.
        -- intros [Hin [v' Hv']]. split; [done|].
           exists v. congruence.
        -- intros [Hin [v' Hv']]. split; [done|].
           exists v0. congruence.
      * by rewrite lookup_insert_ne.
    + intros e. rewrite MoveToFront_perm. apply Hfr.
  - destruct Hwf as [Hnd Hel Hca Hfr].
    assert (Hnew : next_elem c ∉ ll c).
    { intros Hin. apply Hfr in Hin. lia. }
    split; simpl.
    + by apply NoDup_cons.
    + intros e He. destruct (decide (e = next_elem c)) as [->|Hne].
      * rewrite lookup_insert_eq. by eexists.
      * rewrite lookup_insert_ne by done. apply Hel. set_solver.
    + intros k' e. split.
      * intros Hk'. destruct (decide (k = k')) as [->|Hne].
        -- rewrite lookup_insert_eq in Hk'. injection Hk' as <-.
           split; [set_solver|]. exists v. by rewrite lookup_insert_eq.
        -- rewrite lookup_insert_ne in Hk' by done.
           apply Hca in Hk' as [Hin [v' Hv']].
           split; [set_solver|]. exists v'.
           rewrite lookup_insert_ne; [done|]. intros <-. done.
      * intros [Hin [v' Hv']].
        destruct (decide (e = next_elem c)) as [->|Hne].
        -- rewrite lookup_insert_eq in Hv'. injection Hv' as <- <-.
           by rewrite lookup_insert_eq.
        -- rewrite lookup_insert_ne in Hv' by done.
           assert (Hk' : cache c !! k' = Some e).
           { apply Hca. split; [set_solver|]. by exists v'. }
           rewrite lookup_insert_ne; [done|]. congruence.
    + intros e He. apply elem_of_cons in He as [->|He]; [lia|].
      apply Hfr in He. lia.
Qed.

Lemma wf_evict fuel (c c' : Cache V) :
  wf c -> evict fuel c = Some c' -> wf c'.
Proof.
  revert c. induction fuel as [|fuel IH]; intros c Hwf; simpl;
    case_bool_decide; try done; try (intros [= <-]; done).
  intros He. apply (IH (RemoveOldest c)); [|done]. by apply wf_RemoveOldest.
Qed.

(** The fuel given to the loop of [Add] only has to be enough: with more
    of it the result is the same. *)
Lemma evict_more_fuel fuel fuel' (c c' : Cache V) :
  evict fuel c = Some c' -> (fuel <= fuel')%nat -> evict fuel' c = Some c'.
Proof.
  revert fuel' c. induction fuel as [|fuel IH]; intros fuel' c; simpl;
    case_bool_decide as Hover; try done.
  - intros [= <-] _. destruct fuel'; simpl;
      by rewrite bool_decide_eq_false_2.
  - intros Hev Hle. destruct fuel' as [|fuel']; [lia|]. simpl.
    rewrite bool_decide_eq_true_2 by done. apply IH; [done|lia].
  - intros [= <-] _. destruct fuel'; simpl;
      by rewrite bool_decide_eq_false_2.
Qed.

Lemma wf_Add fuel (c c' : Cache V) k v :
  wf c -> Add fuel c k v = Some c' -> wf c'.
Proof. intros Hwf. apply wf_evict. by apply wf_store. Qed.

End lru_wf.

(** ** The eviction cache: the entries after each operation *)

Section lru_entries.
Context {V : Type} `{!lru.Value V}.
Import lru.

Lemma omap_insert_notin (m : gmap Element (entry V)) e kv (l : list Element) :
  e ∉ l -> omap (λ x, <[e := kv]> m !! x) l = omap (λ x, m !! x) l.
Proof.
  induction l as [|x l IH]; intros Hn; [done|].
  apply not_elem_of_cons in Hn as [Hx Hn]. cbn.
  rewrite lookup_insert_ne by done. by rewrite <- IH.
Qed.

Lemma omap_delete_notin (m : gmap Element (entry V)) e (l : list Element) :
  e ∉ l -> omap (λ x, delete e m !! x) l = omap (λ x, m !! x) l.
Proof.
  induction l as [|x l IH]; intros Hn; [done|].
  apply not_elem_of_cons in Hn as [Hx Hn]. cbn.
  rewrite lookup_delete_ne by done. by rewrite <- IH.
Qed.

Lemma elem_of_entries (c : Cache V) kv :
  kv ∈ entries c <-> ∃ ele, ele ∈ ll c ∧ elems c !! ele = Some kv.
Proof. unfold entries. apply list_elem_of_omap. Qed.

Lemma entries_length (c : Cache V) :
  wf c -> length (entries c) = length (ll c).
Proof.
  intros Hwf. unfold entries.
  pose proof (wf_elems c Hwf) as Hel. clear Hwf.
  induction (ll c) as [|x l IH]; [done|]. cbn.
  destruct (Hel x) as [kv ->]; [set_solver|]. cbn.
  f_equal. apply IH. intros e He. apply Hel. set_solver.
Qed.

(** A key that the map does not index is the key of no entry. *)
Lemma entries_miss (c : Cache V) k :
  wf c -> cache c !! k = None -> Forall (λ kv, key kv ≠ k) (entries c).
Proof.
  intros Hwf Hk. apply Forall_forall. intros [k' v'] Hin <-.
  apply elem_of_entries in Hin as (ele & Hin & Hkv).
  assert (cache c !! k' = Some ele) as Hk'.
  { apply (wf_cache c Hwf). split; [done|]. by exists v'. }
  simpl in Hk. congruence.
Qed.

(** A key that the map indexes is the key of exactly one entry. *)
Lemma entries_hit (c : Cache V) k ele :
  wf c -> cache c !! k = Some ele ->
  ∃ v l1 l2,
    elems c !! ele = Some (Entry k v) ∧
    ll c = l1 ++ (ele :: l2) ∧ (ele ∉ l1) ∧ (ele ∉ l2) ∧
    entries c = omap (λ x, elems c !! x) l1
                  ++ Entry k v :: omap (λ x, elems c !! x) l2 ∧
    Forall (λ kv, key kv ≠ k)
      (omap (λ x, elems c !! x) l1 ++ omap (λ x, elems c !! x) l2).
Proof.
  intros Hwf Hk.
  destruct (wf_hit c k ele Hwf Hk)
    as (v & l1 & l2 & Hv & Hll & Hn1 & Hn2 & Hnd).
  exists v, l1, l2. split_and!; try done.
  - unfold entries. rewrite Hll, omap_app. cbn. by rewrite Hv.
  - rewrite <- omap_app. apply Forall_forall. intros [k' v'] Hin <-.
    apply list_elem_of_omap in Hin as (x & Hx & Hkv).
    assert (cache c !! k' = Some x) as Hk'.
    { apply (wf_cache c Hwf). split.
      - rewrite Hll. set_solver.
      - by exists v'. }
    simpl in Hk. assert (x = ele) as -> by congruence. set_solver.
Qed.

Lemma entries_Get_hit (c : Cache V) k ele v l1 l2 :
  cache c !! k = Some ele -> elems c !! ele = Some (Entry k v) ->
  ll c = l1 ++ (ele :: l2) -> ele ∉ l1 ->
  entries (Get c k).1
  = Entry k v :: omap (λ x, elems c !! x) l1 ++ omap (λ x, elems c !! x) l2.
Proof.
  intros Hk Hv Hll Hn1. unfold Get, entries. rewrite Hk. simpl.
  rewrite Hll, MoveToFront_split by done. cbn.
  by rewrite Hv, omap_app.
Qed.

Lemma entries_store_hit (c : Cache V) k v' ele v l1 l2 :
  cache c !! k = Some ele -> elems c !! ele = Some (Entry k v) ->
  ll c = l1 ++ (ele :: l2) -> ele ∉ l1 -> ele ∉ l2 ->
  entries (store c k v')
  = Entry k v' :: omap (λ x, elems c !! x) l1
      ++ omap (λ x, elems c !! x) l2.
Proof.
  intros Hk Hv Hll Hn1 Hn2. unfold store, entries. rewrite Hk, Hv. simpl.
  rewrite Hll, MoveToFront_split by done. cbn.
  rewrite lookup_insert_eq. cbn. rewrite omap_app.
  by rewrite !omap_insert_notin.
Qed.

Lemma entries_store_miss (c : Cache V) k v :
  wf c -> cache c !! k = None ->
  entries (store c k v) = Entry k v :: entries c.
Proof.
  intros Hwf Hk. unfold store, entries. rewrite Hk. cbn.
  rewrite lookup_insert_eq. cbn. f_equal.
  apply omap_insert_notin. intros Hin.
  apply (wf_fresh c Hwf) in Hin. lia.
Qed.

(** [RemoveOldest] drops the last entry, charges it off, and reports it
    to the callback. *)
Lemma RemoveOldest_snoc (c : Cache V) :
  wf c -> entries c ≠ [] ->
  ∃ kv, entries c = entries (RemoveOldest c) ++ [kv] ∧
        nbytes (RemoveOldest c) = sub64 (nbytes c) (charge kv) ∧
        maxBytes (RemoveOldest c) = maxBytes c ∧
        evicted (RemoveOldest c)
        = (if OnEvicted c then evicted c ++ [kv] else evicted c) ∧
        length (ll c) = S (length (ll (RemoveOldest c))).
Proof.
  intros Hwf Hne. unfold RemoveOldest.
  destruct (last (ll c)) as [ele|] eqn:Hlast.
  - destruct (last_split _ _ (wf_nodup c Hwf) Hlast) as (l1 & Hll & Hn1 & _).
    destruct (wf_elems c Hwf ele) as [kv Hkv].
    { rewrite Hll. set_solver. }
    rewrite Hkv. exists kv. simpl.
    assert (Hun : unlink ele (ll c) = l1).
    { rewrite Hll, unlink_split by done. by rewrite app_nil_r. }
    unfold entries. simpl. rewrite Hun, omap_delete_notin by done.
    split_and!; try done.
    + rewrite Hll, omap_app. cbn. by rewrite Hkv.
    + rewrite Hll, length_app. simpl. lia.
  - apply last_None in Hlast. unfold entries in Hne. by rewrite Hlast in Hne.
Qed.

Lemma RemoveOldest_empty (c : Cache V) : ll c = [] -> RemoveOldest c = c.
Proof. intros Hll. unfold RemoveOldest. by rewrite Hll. Qed.

End lru_entries.

(** ** The eviction cache: [Get] only reorders *)

Section lru_get.
Context {V : Type} `{!lru.Value V}.
Import lru.

Lemma total_size_perm (l1 l2 : list (entry V)) :
  l1 ≡ₚ l2 -> total_size l1 = total_size l2.
Proof.
  induction 1 as [|x l1 l2 _ IH|x y l|l1 l2 l3 _ IH1 _ IH2]; simpl; lia.
Qed.

Lemma total_size_app (l1 l2 : list (entry V)) :
  total_size (l1 ++ l2) = total_size l1 + total_size l2.
Proof. induction l1 as [|x l1 IH]; simpl; lia. Qed.

(** What [Get] keeps, for use in the invariants below. *)
Lemma Get_keeps (c : Cache V) (k : string) :
  maxBytes (Get c k).1 = maxBytes c ∧ nbytes (Get c k).1 = nbytes c ∧
  ll (Get c k).1 ≡ₚ ll c ∧ entries (Get c k).1 ≡ₚ entries c ∧
  total_size (entries (Get c k).1) = total_size (entries c).
Proof.
  assert (Hp : ll (Get c k).1 ≡ₚ ll c).
  { unfold Get. destruct (cache c !! k); [|done]. apply MoveToFront_perm. }
  assert (He : entries (Get c k).1 ≡ₚ entries c).
  { unfold entries. rewrite Hp. unfold Get. by destruct (cache c !! k). }
  split_and!; try done; try (unfold Get; by destruct (cache c !! k)).
  by apply total_size_perm.
Qed.

(** C10.  For every cache state and key, [Get] leaves the budget, the
    tracked size, the stored entries, the key index, the allocation
    counter and the eviction record as they were; the list after the
    call is a rearrangement of the list before, so the entry count is
    unchanged.  On a miss the whole state is unchanged; on a hit the
    element found is moved to the front of the list and its value is
    returned. *)
Theorem Get_changes_only_recency (c : Cache V) (k : string) :
  let c' := (Get c k).1 in
  maxBytes c' = maxBytes c ∧ nbytes c' = nbytes c ∧
  elems c' = elems c ∧ cache c' = cache c ∧
  next_elem c' = next_elem c ∧
  OnEvicted c' = OnEvicted c ∧ evicted c' = evicted c ∧
  ll c' ≡ₚ ll c ∧ Cache_Len c' = Cache_Len c ∧
  entries c' ≡ₚ entries c ∧
  total_size (entries c') = total_size (entries c) ∧
  match cache c !! k with
  | Some ele =>
      (Get c k).2 = value <$> elems c !! ele ∧
      (ele ∈ ll c -> ll c' = ele :: unlink ele (ll c))
  | None => c' = c ∧ (Get c k).2 = None
  end.
Proof.
  intros c'. destruct (Get_keeps c k) as (HM & HN & Hp & He & Hts).
  split; [done|]. split; [done|].
  assert (Hlen : Cache_Len c' = Cache_Len c).
  { unfold Cache_Len, c'. by rewrite Hp. }
  unfold c', Get in *. destruct (cache c !! k) as [ele|] eqn:Hk; simpl in *.
  - split_and!; try done.
    intros Hin. unfold MoveToFront. by rewrite decide_True.
  - by split_and!.
Qed.

End lru_get.

(** ** The eviction cache: the byte budget *)

Section lru_budget.
Context {V : Type} `{!lru.Value V}.
Import lru.

(** The operations of the cache, and runs of them. *)
Inductive op :=
  | OpAdd (k : string) (v : V)
  | OpGet (k : string)
  | OpRemoveOldest.

Definition step (fuel : nat) (c : Cache V) (o : op) : option (Cache V) :=
  match o with
  | OpAdd k v => Add fuel c k v
  | OpGet k => Some (Get c k).1
  | OpRemoveOldest => Some (RemoveOldest c)
  end.

Fixpoint run (fuel : nat) (ops : list op) (c : Cache V)
  : option (Cache V) :=
  match ops with
  | [] => Some c
  | o :: ops' =>
      match step fuel c o with
      | Some c' => run fuel ops' c'
      | None => None
      end
  end.

(** An entry fits under the budget [M] when its value has a length, not
    negative, and charging it on top of a full budget stays within
    [int64]. *)
Definition fits (M : Z) (kv : entry V) : Prop :=
  0 <= Len (value kv) ∧ len (key kv) + Len (value kv) + M <= max_int64.

Definition op_fits (M : Z) (o : op) : Prop :=
  match o with
  | OpAdd k v => fits M (Entry k v)
  | _ => True
  end.

(** The counter [nbytes] is the sum of the sizes of the entries. *)
Record sized (c : Cache V) : Prop := mkSized {
  sized_nbytes : nbytes c = total_size (entries c);
  sized_fits : Forall (fits (maxBytes c)) (entries c);
  sized_max : nbytes c <= max_int64
}.

Lemma len_nonneg (s : string) : 0 <= len s.
Proof. unfold len. lia. Qed.

Lemma total_size_nonneg M (l : list (entry V)) :
  Forall (fits M) l -> 0 <= total_size l.
Proof.
  induction 1 as [|kv l [Hv _] _ IH]; simpl; [done|].
  pose proof (len_nonneg (key kv)). lia.
Qed.

Lemma charge_fits M (kv : entry V) :
  0 < M -> fits M kv -> charge kv = len (key kv) + Len (value kv).
Proof.
  intros HM [Hv Hs]. pose proof (len_nonneg (key kv)).
  unfold charge, add64. int64_solve.
Qed.

Lemma sized_New maxBytes onEvicted : sized (New maxBytes onEvicted).
Proof. split; simpl; [done|constructor|]. rewrite max_int64_eq. lia. Qed.

Lemma sized_Get (c : Cache V) k : sized c -> sized (Get c k).1.
Proof.
  intros [Hn Hf Hm].
  destruct (Get_keeps c k) as (HM & HN & _ & Hp & Hts).
  split.
  - by rewrite HN, Hts.
  - by rewrite HM, Hp.
  - by rewrite HN.
Qed.

Lemma maxBytes_RemoveOldest (c : Cache V) :
  maxBytes (RemoveOldest c) = maxBytes c.
Proof.
  unfold RemoveOldest. destruct (last (ll c)); [|done].
  by destruct (elems c !! e).
Qed.

Lemma maxBytes_store (c : Cache V) k v : maxBytes (store c k v) = maxBytes c.
Proof.
  unfold store. destruct (cache c !! k) as [ele|]; [|done].
  by destruct (elems c !! ele).
Qed.

Lemma sized_RemoveOldest (c : Cache V) :
  wf c -> sized c -> 0 < maxBytes c -> sized (RemoveOldest c).
Proof.
  intros Hwf [Hn Hf Hm] HM.
  destruct (decide (entries c = [])) as [He|He].
  { rewrite RemoveOldest_empty; [done|]. apply nil_length_inv.
    by rewrite <- (entries_length c Hwf), He. }
  destruct (RemoveOldest_snoc c Hwf He) as (kv & Hsn & Hnb & HMx & _ & _).
  rewrite Hsn in Hf, Hn. apply Forall_app in Hf as [Hf1 Hf2].
  rewrite Forall_singleton in Hf2.
  rewrite total_size_app in Hn. simpl in Hn.
  pose proof (total_size_nonneg _ _ Hf1) as Hpos.
  pose proof (len_nonneg (key kv)) as Hk. destruct Hf2 as [Hv Hs].
  assert (Hch : charge kv = len (key kv) + Len (value kv)).
  { by apply (charge_fits (maxBytes c)). }
  assert (Hnew : nbytes (RemoveOldest c) = total_size (entries (RemoveOldest c))).
  { rewrite Hnb, Hch. unfold sub64. int64_solve. }
  split; [done| by rewrite HMx |]. rewrite Hnew. lia.
Qed.

Lemma sized_store (c : Cache V) k v :
  wf c -> sized c -> 0 < maxBytes c -> nbytes c <= maxBytes c ->
  fits (maxBytes c) (Entry k v) -> sized (store c k v).
Proof.
  intros Hwf [Hn Hf Hm] HM Hb [Hv Hs]. simpl in Hv, Hs.
  pose proof (len_nonneg k) as Hk.
  pose proof (total_size_nonneg _ _ Hf) as Hpos.
  destruct (cache c !! k) as [ele|] eqn:Hc.
  - destruct (entries_hit c k ele Hwf Hc)
      as (v0 & l1 & l2 & Hv0 & Hll & Hn1 & Hn2 & Hen & _).
    pose proof (entries_store_hit c k v ele v0 l1 l2 Hc Hv0 Hll Hn1 Hn2) as Hst.
    rewrite Hen in Hf, Hn.
    apply Forall_app in Hf as [Hf1 Hf2].
    apply Forall_cons in Hf2 as [[Hv0' Hs0] Hf2]. simpl in Hv0', Hs0.
    rewrite total_size_app in Hn. simpl in Hn.
    pose proof (total_size_nonneg _ _ Hf1) as Hp1.
    pose proof (total_size_nonneg _ _ Hf2) as Hp2.
    assert (Hnb : nbytes (store c k v)
                  = nbytes c + (Len v - Len v0)).
    { unfold store. rewrite Hc, Hv0. simpl. unfold add64, sub64.
      int64_solve. }
    split.
    + rewrite Hnb, Hst, Hn. simpl. rewrite total_size_app. lia.
    + rewrite Hst, maxBytes_store. apply Forall_cons. split; [done|].
      by apply Forall_app.
    + rewrite Hnb. lia.
  - pose proof (entries_store_miss c k v Hwf Hc) as Hst.
    assert (Hnb : nbytes (store c k v) = nbytes c + (len k + Len v)).
    { unfold store. rewrite Hc. simpl.
      rewrite (charge_fits (maxBytes c)) by done. simpl.
      unfold add64. int64_solve. }
    split.
    + rewrite Hnb, Hst, Hn. simpl. lia.
    + rewrite Hst, maxBytes_store. by apply Forall_cons.
    + rewrite Hnb. lia.
Qed.

(** The loop of [Add] ends within as many turns as the list has
    elements, on a cache within its budget whose entries are the first
    ones of the cache it started from. *)
Lemma evict_restores fuel (c : Cache V) :
  wf c -> sized c -> 0 < maxBytes c -> (length (ll c) <= fuel)%nat ->
  ∃ c' gone,
    evict fuel c = Some c' ∧ wf c' ∧ sized c' ∧
    maxBytes c' = maxBytes c ∧ nbytes c' <= maxBytes c' ∧
    entries c = entries c' ++ gone ∧
    (length (ll c') <= length (ll c))%nat ∧
    (∀ kv gone', gone = kv :: gone' ->
       maxBytes c < total_size (entries c' ++ [kv])).
Proof.
  revert c. induction fuel as [|fuel IH]; intros c Hwf Hsz HM Hlen.
  - assert (Hll : ll c = []) by (destruct (ll c); [done|simpl in Hlen; lia]).
    exists c, []. simpl. rewrite bool_decide_eq_false_2.
    + rewrite app_nil_r. split_and!; try done.
      destruct Hsz as [Hn _ _]. unfold entries in Hn. rewrite Hll in Hn.
      simpl in Hn. lia.
    + intros [_ Hlt]. destruct Hsz as [Hn _ _]. unfold entries in Hn.
      rewrite Hll in Hn. simpl in Hn. lia.
  - simpl. case_bool_decide as Hover.
    + destruct Hover as [_ Hlt].
      assert (He : entries c ≠ []).
      { intros He. destruct Hsz as [Hn _ _]. rewrite He in Hn.
        simpl in Hn. lia. }
      destruct (RemoveOldest_snoc c Hwf He)
        as (kv & Hsn & _ & HMx & _ & Hl).
      destruct (IH (RemoveOldest c))
        as (c' & gone & Hev & Hwf' & Hsz' & HM' & Hb' & Hen' & Hl' & Hmin).
      * by apply wf_RemoveOldest.
      * by apply sized_RemoveOldest.
      * by rewrite HMx.
      * lia.
      * exists c', (gone ++ [kv]). split_and!; try done.
        -- congruence.
        -- by rewrite Hsn, Hen', app_assoc.
        -- lia.
        -- intros kv' gone' Hg. destruct gone as [|kv1 gone1].
           ++ simpl in Hg. injection Hg as <- <-.
              rewrite app_nil_r in Hen'. rewrite <- Hen', <- Hsn.
              by rewrite <- (sized_nbytes c Hsz).
           ++ simpl in Hg. injection Hg as <- <-.
              rewrite <- HMx. by eapply Hmin.
    + exists c, []. rewrite app_nil_r. split_and!; try done.
      destruct (decide (maxBytes c < nbytes c)); [|lia].
      exfalso. apply Hover. split; [lia|done].
Qed.

Lemma length_store (c : Cache V) k v :
  (length (ll (store c k v)) <= S (length (ll c)))%nat.
Proof.
  unfold store. destruct (cache c !! k) as [ele|]; simpl; [|lia].
  destruct (elems c !! ele); simpl; [|lia].
  rewrite MoveToFront_perm. lia.
Qed.

(** A run of fitting operations on a cache with a positive budget ends,
    keeps the counter equal to the sum and under the budget. *)
Lemma run_within_budget M (ops : list op) fuel (c : Cache V) :
  0 < M -> wf c -> sized c -> maxBytes c = M -> nbytes c <= M ->
  Forall (op_fits M) ops ->
  (length (ll c) + length ops <= fuel)%nat ->
  ∃ c', run fuel ops c = Some c' ∧ wf c' ∧ sized c' ∧
        maxBytes c' = M ∧ nbytes c' <= M ∧
        (length (ll c') <= length (ll c) + length ops)%nat.
Proof.
  intros HM. revert c.
  induction ops as [|o ops IH]; intros c Hwf Hsz Hmax Hb Hfit Hfuel.
  - exists c. simpl. split_and!; try done. lia.
  - apply Forall_cons in Hfit as [Ho Hfit]. simpl in Hfuel.
    assert (Hnext : ∀ c1, step fuel c o = Some c1 -> wf c1 -> sized c1 ->
              maxBytes c1 = M -> nbytes c1 <= M ->
              (length (ll c1) <= S (length (ll c)))%nat ->
              ∃ c', run fuel (o :: ops) c = Some c' ∧ wf c' ∧ sized c' ∧
                maxBytes c' = M ∧ nbytes c' <= M ∧
                (length (ll c') <= length (ll c) + length (o :: ops))%nat).
    { intros c1 Hst Hwf1 Hsz1 Hmax1 Hb1 Hl1.
      destruct (IH c1 Hwf1 Hsz1 Hmax1 Hb1 Hfit ltac:(lia))
        as (c' & Hrun & ? & ? & ? & ? & Hl').
      exists c'. simpl. rewrite Hst. split_and!; try done. lia. }
    destruct o as [k v| k |]; simpl in Ho.
    + destruct (evict_restores fuel (store c k v))
        as (c1 & gone & Hev & Hwf1 & Hsz1 & Hmax1 & Hb1 & Hen & Hl1 & _).
      * by apply wf_store.
      * apply sized_store; try done; rewrite Hmax; done.
      * by rewrite maxBytes_store, Hmax.
      * pose proof (length_store c k v). lia.
      * apply (Hnext c1); try done.
        -- rewrite Hmax1, maxBytes_store. done.
        -- rewrite Hmax1, maxBytes_store, Hmax in Hb1. done.
        -- pose proof (length_store c k v). lia.
    + destruct (Get_keeps c k) as (HM' & HN & Hp & _).
      apply (Hnext (Get c k).1); try done.
      * by apply wf_Get.
      * by apply sized_Get.
      * congruence.
      * by rewrite HN.
      * rewrite Hp. lia.
    + pose proof (sized_RemoveOldest c Hwf Hsz ltac:(lia)) as Hsz1.
      apply (Hnext (RemoveOldest c)); try done.
      * by apply wf_RemoveOldest.
      * by rewrite maxBytes_RemoveOldest.
      * destruct (decide (entries c = [])) as [He|He].
        { rewrite RemoveOldest_empty; [done|]. apply nil_length_inv.
          by rewrite <- (entries_length c Hwf), He. }
        destruct (RemoveOldest_snoc c Hwf He) as (kv & Hsn & _).
        rewrite (sized_nbytes _ Hsz1).
        rewrite (sized_nbytes _ Hsz), Hsn, total_size_app in Hb.
        pose proof (sized_fits _ Hsz) as Hf. rewrite Hsn in Hf.
        apply Forall_app in Hf as [_ Hf].
        pose proof (total_size_nonneg _ _ Hf). lia.
      * destruct (decide (entries c = [])) as [He|He].
        { rewrite RemoveOldest_empty; [lia|]. apply nil_length_inv.
          by rewrite <- (entries_length c Hwf), He. }
        destruct (RemoveOldest_snoc c Hwf He) as (kv & _ & _ & _ & _ & Hl).
        lia.
Qed.

(** C2, as amended.  On a cache constructed with a positive maximum
    byte budget, every run of [Add], [Get] and [RemoveOldest] whose
    added entries fit (value lengths are not negative and charging an
    entry on top of a full budget stays within [int64]) ends, given the
    fuel, in a state whose counter [nbytes] is the sum over all entries
    of key length plus value length, and that sum is at most the
    budget.  A further [Add] ends as well, restores the bound, and does
    so by dropping entries from the least recently used end of the list
    only, and no more of them than it takes. *)
Theorem budget_respected (M : Z) (onEvicted : bool) (ops : list op)
    (fuel : nat) :
  0 < M -> Forall (op_fits M) ops -> (length ops <= fuel)%nat ->
  ∃ c, run fuel ops (New M onEvicted) = Some c ∧
       nbytes c = total_size (entries c) ∧
       total_size (entries c) <= M ∧
       ∀ k v, fits M (Entry k v) -> (length ops < fuel)%nat ->
         ∃ c' gone,
           Add fuel c k v = Some c' ∧
           entries (store c k v) = entries c' ++ gone ∧
           nbytes c' = total_size (entries c') ∧
           total_size (entries c') <= M ∧
           (∀ kv gone', gone = kv :: gone' ->
              M < total_size (entries c' ++ [kv])).
Proof.
  intros HM Hfit Hfuel.
  destruct (run_within_budget M ops fuel (New M onEvicted) HM
              (wf_New _ _) (sized_New _ _) eq_refl
              ltac:(simpl; lia) Hfit ltac:(simpl; lia))
    as (c & Hrun & Hwf & Hsz & Hmax & Hb & Hl).
  exists c. split_and!; try done.
  - apply Hsz.
  - by rewrite <- (sized_nbytes c Hsz).
  - intros k v Hkv Hlt. simpl in Hl.
    assert (Hsz1 : sized (store c k v)).
    { apply sized_store; try done; rewrite Hmax; done. }
    destruct (evict_restores fuel (store c k v) (wf_store c k v Hwf) Hsz1)
      as (c' & gone & Hev & Hwf' & Hsz' & Hmax' & Hb' & Hen & _ & Hmin).
    { by rewrite maxBytes_store, Hmax. }
    { pose proof (length_store c k v). lia. }
    rewrite maxBytes_store, Hmax in Hmax', Hmin.
    exists c', gone. split_and!; try done.
    + apply Hsz'.
    + rewrite <- (sized_nbytes c' Hsz'). by rewrite <- Hmax'.
Qed.

End lru_budget.

Arguments op V : clear implicits.

(** ** The eviction cache: recency *)

Section lru_recency.
Context {V : Type} `{!lru.Value V}.
Import lru.

(** The key whose entry an operation accesses: the key that [Add] is
    given, and the key that [Get] finds. *)
Definition accessed (c : Cache V) (o : op V) : option string :=
  match o with
  | OpAdd k _ => Some k
  | OpGet k => match cache c !! k with Some _ => Some k | None => None end
  | OpRemoveOldest => None
  end.

(** A clock that advances with every operation, and the time at which
    each key was last accessed. *)
Record timed := mkTimed {
  now : nat;
  last_access : gmap string nat
}.

Definition clock0 : timed := {| now := O; last_access := ∅ |}.

Definition tick (c : Cache V) (o : op V) (t : timed) : timed :=
  {| now := S (now t);
     last_access := match accessed c o with
                    | Some k => <[k := now t]> (last_access t)
                    | None => last_access t
                    end |}.

Fixpoint timed_run (fuel : nat) (ops : list (op V)) (c : Cache V) (t : timed)
  : option (Cache V * timed) :=
  match ops with
  | [] => Some (c, t)
  | o :: ops' =>
      match step fuel c o with
      | Some c' => timed_run fuel ops' c' (tick c o t)
      | None => None
      end
  end.

(** [older t a b]: the last access to key [a] came before the last
    access to key [b]. *)
Definition older (t : timed) (a b : string) : Prop :=
  ∃ sa sb, last_access t !! a = Some sa ∧ last_access t !! b = Some sb
           ∧ (sa < sb)%nat.

(** The entries are in the order of their last access, latest first. *)
Record recent (l : list (entry V)) (t : timed) : Prop := mkRecent {
  recent_known : ∀ kv, kv ∈ l ->
    ∃ s, last_access t !! key kv = Some s ∧ (s < now t)%nat;
  recent_sorted : StronglySorted (λ x y, older t (key y) (key x)) l
}.

Lemma timed_run_run fuel ops (c : Cache V) t :
  fst <$> timed_run fuel ops c t = run fuel ops c.
Proof.
  revert c t. induction ops as [|o ops IH]; intros c t; simpl; [done|].
  destruct (step fuel c o); [apply IH|done].
Qed.

Lemma recent_nil t : recent [] t.
Proof.
  split; [|constructor]. intros kv Hin. by apply elem_of_nil in Hin.
Qed.

Lemma recent_prefix (l gone : list (entry V)) t :
  recent (l ++ gone) t -> recent l t.
Proof.
  intros [Hk Hs]. split.
  - intros kv Hin. apply Hk. set_solver.
  - by apply StronglySorted_app_1_l in Hs.
Qed.

Lemma recent_remove (l1 l2 : list (entry V)) x t :
  recent (l1 ++ x :: l2) t -> recent (l1 ++ l2) t.
Proof.
  intros [Hk Hs]. split.
  - intros kv Hin. apply Hk. set_solver.
  - apply StronglySorted_app in Hs as (H12 & H1 & H2).
    apply StronglySorted_cons in H2 as [_ H2].
    apply StronglySorted_app. split_and!; [|done|done].
    intros a Ha b Hb. apply H12; set_solver.
Qed.

Lemma recent_idle (l : list (entry V)) t :
  recent l t ->
  recent l {| now := S (now t); last_access := last_access t |}.
Proof.
  intros [Hk Hs]. split; [|done].
  intros kv Hin. destruct (Hk kv Hin) as (s & Hs1 & Hs2).
  exists s. simpl. split; [done|lia].
Qed.

Lemma recent_push (l : list (entry V)) k v t :
  recent l t -> Forall (λ kv, key kv ≠ k) l ->
  recent (Entry k v :: l)
    {| now := S (now t); last_access := <[k := now t]> (last_access t) |}.
Proof.
  intros [Hk Hs] Hne. rewrite Forall_forall in Hne. split.
  - intros kv Hin. simpl. apply elem_of_cons in Hin as [->|Hin].
    + exists (now t). simpl. rewrite lookup_insert_eq. split; [done|lia].
    + destruct (Hk kv Hin) as (s & Hs1 & Hs2). exists s.
      rewrite lookup_insert_ne by (specialize (Hne kv Hin); congruence).
      split; [done|lia].
  - apply StronglySorted_cons. split.
    + apply Forall_forall. intros kv Hin.
      destruct (Hk kv Hin) as (s & Hs1 & Hs2).
      exists s, (now t). simpl. rewrite lookup_insert_eq.
      rewrite lookup_insert_ne by (specialize (Hne kv Hin); congruence).
      done.
    + clear Hk. induction Hs as [|x l Hs IH Hx]; [constructor|].
      constructor.
      * apply IH. intros kv Hin. apply Hne. set_solver.
      * apply Forall_forall. intros y Hy. rewrite Forall_forall in Hx.
        destruct (Hx y Hy) as (sa & sb & Ha & Hb & Hlt).
        exists sa, sb. simpl.
        assert (key x ≠ k) by (apply Hne; set_solver).
        assert (key y ≠ k) by (apply Hne; set_solver).
        rewrite !lookup_insert_ne by congruence. done.
Qed.

(** The loop of [Add] keeps the entries at the front. *)
Lemma evict_prefix fuel (c c' : Cache V) :
  wf c -> evict fuel c = Some c' -> ∃ gone, entries c = entries c' ++ gone.
Proof.
  revert c. induction fuel as [|fuel IH]; intros c Hwf; simpl;
    case_bool_decide; try done;
    try (intros [= <-]; exists []; by rewrite app_nil_r).
  intros Hev. destruct (decide (entries c = [])) as [He|He].
  - rewrite RemoveOldest_empty in Hev.
    + by apply IH.
    + apply nil_length_inv. by rewrite <- (entries_length c Hwf), He.
  - destruct (RemoveOldest_snoc c Hwf He) as (kv & Hsn & _).
    destruct (IH _ (wf_RemoveOldest c Hwf) Hev) as [gone Hg].
    exists (gone ++ [kv]). by rewrite Hsn, Hg, app_assoc.
Qed.

Lemma recent_store (c : Cache V) k v t :
  wf c -> recent (entries c) t ->
  recent (entries (store c k v)) (tick c (OpAdd k v) t).
Proof.
  intros Hwf Hr. unfold tick. simpl.
  destruct (cache c !! k) as [ele|] eqn:Hc.
  - destruct (entries_hit c k ele Hwf Hc)
      as (v0 & l1 & l2 & Hv0 & Hll & Hn1 & Hn2 & Hen & Hne).
    rewrite (entries_store_hit c k v ele v0 l1 l2) by done.
    apply recent_push; [|done]. rewrite Hen in Hr.
    by apply recent_remove in Hr.
  - rewrite entries_store_miss by done.
    apply recent_push; [done|]. by apply entries_miss.
Qed.

Lemma recent_step fuel (c c' : Cache V) o t :
  wf c -> recent (entries c) t -> step fuel c o = Some c' ->
  recent (entries c') (tick c o t).
Proof.
  intros Hwf Hr Hst. destruct o as [k v|k|]; simpl in Hst.
  - destruct (evict_prefix fuel _ _ (wf_store c k v Hwf) Hst) as [gone Hg].
    pose proof (recent_store c k v t Hwf Hr) as Hr1.
    rewrite Hg in Hr1. by apply recent_prefix in Hr1.
  - injection Hst as <-. unfold tick. simpl.
    destruct (cache c !! k) as [ele|] eqn:Hc.
    + destruct (entries_hit c k ele Hwf Hc)
        as (v0 & l1 & l2 & Hv0 & Hll & Hn1 & Hn2 & Hen & Hne).
      rewrite (entries_Get_hit c k ele v0 l1 l2) by done.
      apply recent_push; [|done]. rewrite Hen in Hr.
      by apply recent_remove in Hr.
    + unfold Get. rewrite Hc. simpl. by apply recent_idle.
  - injection Hst as <-. unfold tick. simpl. apply recent_idle.
    destruct (decide (entries c = [])) as [He|He].
    + rewrite RemoveOldest_empty; [done|]. apply nil_length_inv.
      by rewrite <- (entries_length c Hwf), He.
    + destruct (RemoveOldest_snoc c Hwf He) as (kv & Hsn & _).
      rewrite Hsn in Hr. by apply recent_prefix in Hr.
Qed.

Lemma wf_step fuel (c c' : Cache V) o :
  wf c -> step fuel c o = Some c' -> wf c'.
Proof.
  intros Hwf. destruct o as [k v|k|]; simpl.
  - by apply wf_Add.
  - intros [= <-]. by apply wf_Get.
  - intros [= <-]. by apply wf_RemoveOldest.
Qed.

Lemma recent_run fuel ops (c c' : Cache V) t t' :
  wf c -> recent (entries c) t ->
  timed_run fuel ops c t = Some (c', t') ->
  wf c' ∧ recent (entries c') t'.
Proof.
  revert c t. induction ops as [|o ops IH]; intros c t Hwf Hr; simpl.
  - by intros [= <- <-].
  - destruct (step fuel c o) as [c1|] eqn:Hst; [|done].
    apply IH.
    + by eapply wf_step.
    + by eapply recent_step.
Qed.

(** When an [Add] exceeds the budget, the first turn of its loop removes
    the entry at the back of the list, and every other entry was
    accessed after it. *)
Lemma first_eviction_is_oldest M onEvicted fuel ops (c : Cache V) t k v :
  timed_run fuel ops (New M onEvicted) clock0 = Some (c, t) ->
  maxBytes (store c k v) ≠ 0 ∧ maxBytes (store c k v) < nbytes (store c k v) ->
  ∃ kv rest,
    entries (store c k v) = rest ++ [kv] ∧
    entries (RemoveOldest (store c k v)) = rest ∧
    (∀ fuel', Add (S fuel') c k v
              = evict fuel' (RemoveOldest (store c k v))) ∧
    evicted (RemoveOldest (store c k v))
    = (if OnEvicted c then evicted c ++ [kv] else evicted c) ∧
    ∀ kv', kv' ∈ rest -> older (tick c (OpAdd k v) t) (key kv) (key kv').
Proof.
  intros Hrun Hover.
  destruct (recent_run _ _ _ _ _ _ (wf_New M onEvicted) (recent_nil clock0) Hrun)
    as [Hwf Hr].
  pose proof (wf_store c k v Hwf) as Hwf1.
  pose proof (recent_store c k v t Hwf Hr) as Hr1.
  assert (He : entries (store c k v) ≠ []).
  { destruct (cache c !! k) as [ele|] eqn:Hc.
    - destruct (entries_hit c k ele Hwf Hc)
        as (v0 & l1 & l2 & Hv0 & Hll & Hn1 & Hn2 & _).
      by rewrite (entries_store_hit c k v ele v0 l1 l2).
    - by rewrite entries_store_miss. }
  destruct (RemoveOldest_snoc _ Hwf1 He) as (kv & Hsn & _ & _ & Hev & _).
  exists kv, (entries (RemoveOldest (store c k v))).
  split_and!; try done.
  - intros fuel'. unfold Add. simpl. by rewrite bool_decide_eq_true_2.
  - rewrite Hev. unfold store. destruct (cache c !! k) as [ele|]; [|done].
    by destruct (elems c !! ele).
  - intros kv' Hin. rewrite Hsn in Hr1. destruct Hr1 as [_ Hs].
    apply StronglySorted_app in Hs as (H12 & _ & _).
    apply H12; set_solver.
Qed.

End lru_recency.

(** ** The eviction cache: the claims on concrete caches *)

(** A byte view of a given length, and the run of the specification's
    example: add A, add B, access A, add C, with a budget of two
    entries of two bytes each. *)
Definition view (n : nat) : geecache.ByteView :=
  {| geecache.b := geecache.Slice 0%nat 0%nat n |}.

Definition abac_prefix : list (op geecache.ByteView) :=
  [OpAdd "A" (view 1); OpAdd "B" (view 1); OpGet "A"].

Definition abac : list (op geecache.ByteView) :=
  abac_prefix ++ [OpAdd "C" (view 1)].

(** C2, a witness: the run of the example under a budget of four bytes. *)
Lemma budget_respected_witness :
  ∃ c, run 5 abac (lru.New 4 false) = Some c ∧
       lru.nbytes c = lru.total_size (lru.entries c) ∧
       lru.total_size (lru.entries c) <= 4 ∧
       ∀ k v, fits 4 (lru.Entry k v) -> (length abac < 5)%nat ->
         ∃ c' gone,
           lru.Add 5 c k v = Some c' ∧
           lru.entries (lru.store c k v) = lru.entries c' ++ gone ∧
           lru.nbytes c' = lru.total_size (lru.entries c') ∧
           lru.total_size (lru.entries c') <= 4 ∧
           (∀ kv gone', gone = kv :: gone' ->
              4 < lru.total_size (lru.entries c' ++ [kv])).
Proof.
  apply (budget_respected 4 false abac 5).
  - lia.
  - repeat constructor; vm_compute; congruence.
  - simpl. lia.
Defined.

(** C2, the counterexample to the claim as stated: a budget of [-1] is
    not zero, [Get] completes on the new cache, and the tracked size,
    zero, is above the budget. *)
Lemma budget_negative_counterexample :
  ∃ c : lru.Cache geecache.ByteView,
    run 0 [OpGet "A"] (lru.New (-1) false) = Some c ∧
    lru.maxBytes c ≠ 0 ∧
    lru.nbytes c = 0 ∧ lru.total_size (lru.entries c) = 0 ∧
    ¬ (lru.total_size (lru.entries c) <= lru.maxBytes c).
Proof.
  eexists. split; [reflexivity|].
  split_and!; [done|reflexivity|reflexivity|].
  vm_compute. intros Hle. by apply Hle.
Qed.

(** C7.  Whatever run of operations led to a cache, when an [Add]
    exceeds the budget the first entry evicted is the one at the back of
    the list, and every other entry present was accessed more recently,
    an access being an [Add] of the key or a [Get] that finds it.  In
    particular, with a budget of two entries, add A, add B, get A, add C
    evicts B and leaves exactly C and A. *)
Theorem evicts_least_recently_accessed :
  (∀ (V : Type) (HV : lru.Value V) (M : Z) (onEvicted : bool) (fuel : nat)
     (ops : list (op V)) (c : lru.Cache V) (t : timed) (k : string) (v : V),
     timed_run fuel ops (lru.New M onEvicted) clock0 = Some (c, t) ->
     lru.maxBytes (lru.store c k v) ≠ 0 ∧
     lru.maxBytes (lru.store c k v) < lru.nbytes (lru.store c k v) ->
     ∃ kv rest,
       lru.entries (lru.store c k v) = rest ++ [kv] ∧
       lru.entries (lru.RemoveOldest (lru.store c k v)) = rest ∧
       (∀ fuel', lru.Add (S fuel') c k v
                 = lru.evict fuel' (lru.RemoveOldest (lru.store c k v))) ∧
       lru.evicted (lru.RemoveOldest (lru.store c k v))
       = (if lru.OnEvicted c then lru.evicted c ++ [kv]
          else lru.evicted c) ∧
       ∀ kv', kv' ∈ rest ->
         older (tick c (OpAdd k v) t) (lru.key kv) (lru.key kv'))
  ∧
  (∃ c, run 1 abac (lru.New 4 true) = Some c ∧
        lru.entries c = [lru.Entry "C" (view 1); lru.Entry "A" (view 1)] ∧
        lru.evicted c = [lru.Entry "B" (view 1)]).
Proof.
  split.
  - intros V HV M onEvicted fuel ops c t k v.
    apply first_eviction_is_oldest.
  - eexists. split; [vm_compute; reflexivity|]. by split.
Qed.

(** C7, a witness: the last step of the example. *)
Lemma evicts_least_recently_accessed_witness :
  ∃ c t,
    timed_run 1 abac_prefix (lru.New 4 true) clock0 = Some (c, t) ∧
    ∃ kv rest,
      lru.entries (lru.store c "C" (view 1)) = rest ++ [kv] ∧
      lru.entries (lru.RemoveOldest (lru.store c "C" (view 1))) = rest ∧
      (∀ fuel', lru.Add (S fuel') c "C" (view 1)
         = lru.evict fuel' (lru.RemoveOldest (lru.store c "C" (view 1)))) ∧
      lru.evicted (lru.RemoveOldest (lru.store c "C" (view 1)))
      = (if lru.OnEvicted c then lru.evicted c ++ [kv]
         else lru.evicted c) ∧
      ∀ kv', kv' ∈ rest ->
        older (tick c (OpAdd "C" (view 1)) t) (lru.key kv) (lru.key kv').
Proof.
  eexists _, _. split; [vm_compute; reflexivity|].
  apply (proj1 evicts_least_recently_accessed _ _ 4 true 1%nat abac_prefix).
  - vm_compute. reflexivity.
  - vm_compute. split; congruence.
Defined.

(** ** The hash ring: the default hash *)

(** The check value of CRC-32 (IEEE). *)
Example ChecksumIEEE_check : ChecksumIEEE "123456789" = 0xCBF43926.
Proof. vm_compute. reflexivity. Qed.

(** ** The hash ring: binary search *)

(** The turns given to the loop of [sort.Search] are enough: once they
    cover the interval, more of them change nothing. *)
Lemma Search_loop_enough (f : Z -> bool) turns turns' i j :
  j - i <= Z.of_nat turns -> j - i <= Z.of_nat turns' ->
  Search_loop turns i j f = Search_loop turns' i j f.
Proof.
  revert turns' i j.
  induction turns as [|turns IH]; intros [|turns'] i j Ht Ht'; simpl;
    try done.
  - by rewrite bool_decide_eq_false_2 by lia.
  - by rewrite bool_decide_eq_false_2 by lia.
  - case_bool_decide as Hlt; [|done].
    rewrite Z.shiftr_div_pow2 by lia. change (2 ^ 1) with 2.
    pose proof (Z.div_mod (i + j) 2 ltac:(lia)).
    pose proof (Z.mod_pos_bound (i + j) 2 ltac:(lia)).
    destruct (f ((i + j) / 2)); simpl; apply IH; lia.
Qed.

Section search.

Variable f : Z -> bool.
Variable n : Z.
Hypothesis f_monotone :
  ∀ x y, 0 <= x <= y -> y < n -> f x = true -> f y = true.

Lemma Search_loop_spec turns i j :
  0 <= i <= j -> j <= n -> j - i <= Z.of_nat turns ->
  (∀ x, 0 <= x < i -> f x = false) ->
  (∀ x, j <= x < n -> f x = true) ->
  i <= Search_loop turns i j f <= j ∧
  (∀ x, 0 <= x < Search_loop turns i j f -> f x = false) ∧
  (∀ x, Search_loop turns i j f <= x < n -> f x = true).
Proof.
  revert i j. induction turns as [|turns IH]; intros i j Hij Hjn Ht Hlo Hhi.
  - simpl. assert (i = j) as -> by lia. split_and!; [lia|lia|done|done].
  - simpl. case_bool_decide as Hlt.
    + rewrite Z.shiftr_div_pow2 by lia. change (2 ^ 1) with 2.
      pose proof (Z.div_mod (i + j) 2 ltac:(lia)) as Hdm.
      pose proof (Z.mod_pos_bound (i + j) 2 ltac:(lia)) as Hmb.
      set (h := (i + j) / 2) in *.
      assert (i <= h < j) as Hh by lia.
      destruct (f h) eqn:Hfh; simpl.
      * destruct (IH i h) as (Hr & Hlo' & Hhi'); try lia; try done.
        { intros x Hx. apply (f_monotone h x); [lia|lia|done]. }
        split_and!; [lia|lia|done|done].
      * destruct (IH (h + 1) j) as (Hr & Hlo' & Hhi'); try lia; try done.
        { intros x Hx. destruct (f x) eqn:Hfx; [|done].
          rewrite (f_monotone x h) in Hfh; [done|lia|lia|done]. }
        split_and!; [lia|lia|done|done].
    + assert (i = j) as -> by lia. split_and!; [lia|lia|done|done].
Qed.

(** [sort.Search] returns the least index at which a monotone predicate
    holds, or [n] when there is none. *)
Lemma sort_Search_spec :
  0 <= n ->
  0 <= sort_Search n f <= n ∧
  (∀ x, 0 <= x < sort_Search n f -> f x = false) ∧
  (∀ x, sort_Search n f <= x < n -> f x = true).
Proof.
  intros Hn. unfold sort_Search.
  apply Search_loop_spec; try lia.
Qed.

End search.

(** ** The hash ring: ownership *)

Section ring.
Import consistenthash.

(** The hash of the virtual node [i] of peer [p]. *)
Definition vnode (m : Map) (p : string) (i : Z) : Z :=
  uint32 (hash m (Itoa i +:+ p)).

(** All virtual nodes of a list of peers. *)
Definition vnodes (m : Map) (ps : list string) : list Z :=
  p ← ps; vnode m p <$> seqZ 0 (replicas m).

(** The ring built by [New] and then [Add] on each batch of peers. *)
Definition ring (r : Z) (fn : option Hash) (batches : list (list string))
  : Map :=
  foldl Add (New r fn) batches.

(** Following the specification's words: the first element of the
    sequence that is at least [h], or else the first element. *)
Definition node_for (ks : list Z) (h : Z) : option Z :=
  match list_find (λ k, h <= k) ks with
  | Some (_, k) => Some k
  | None => head ks
  end.

(** Every position of the ring is owned, in [hashMap], by a registered
    peer one of whose virtual nodes hashes to it. *)
Definition owned (m : Map) (ps : list string) : Prop :=
  ∀ k, k ∈ keys m ->
    ∃ p i, hashMap m !! k = Some p ∧ p ∈ ps ∧
           0 <= i < replicas m ∧ k = vnode m p i.

Lemma index_lookup (l : list Z) i :
  0 <= i -> index l i = default 0 (l !! Z.to_nat i).
Proof. intros Hi. unfold index. by rewrite bool_decide_eq_true_2. Qed.

Lemma StronglySorted_lookup_le (l : list Z) a b u w :
  StronglySorted Z.le l -> l !! a = Some u -> l !! b = Some w ->
  (a <= b)%nat -> u <= w.
Proof.
  intros Hs. revert a b. induction Hs as [|x l Hs IH Hx]; intros a b Ha Hb Hab.
  - by rewrite lookup_nil in Ha.
  - destruct a as [|a], b as [|b]; simpl in *.
    + assert (u = w) by congruence. lia.
    + injection Ha as <-. rewrite Forall_forall in Hx. apply Hx.
      by eapply list_elem_of_lookup_2.
    + lia.
    + apply (IH a b); [done|done|lia].
Qed.

(** [Get] on sorted keys returns the owner of the node the
    specification describes. *)
Lemma Get_node_for (m : Map) (key : string) :
  StronglySorted Z.le (keys m) ->
  Get m key = match node_for (keys m) (uint32 (hash m key)) with
              | Some k => default "" (hashMap m !! k)
              | None => ""
              end.
Proof.
  intros Hs. unfold Get, node_for. case_bool_decide as Hlen.
  { apply nil_length_inv in Hlen. by rewrite Hlen. }
  set (h := uint32 (hash m key)).
  set (n := Z.of_nat (length (keys m))).
  set (f := λ i : Z, bool_decide (index (keys m) i >= h)).
  assert (0 < n) as Hn by (unfold n; lia).
  destruct (sort_Search_spec f n) as (Hr & Hlo & Hhi); [|lia|].
  { intros x y Hxy Hy. unfold f. rewrite !bool_decide_eq_true.
    rewrite !index_lookup by lia.
    destruct (lookup_lt_is_Some_2 (keys m) (Z.to_nat x)) as [u Hu]; [lia|].
    destruct (lookup_lt_is_Some_2 (keys m) (Z.to_nat y)) as [w Hw]; [lia|].
    rewrite Hu, Hw. simpl.
    pose proof (StronglySorted_lookup_le _ _ _ _ _ Hs Hu Hw ltac:(lia)). lia. }
  set (idx := sort_Search n f) in *.
  destruct (decide (idx < n)) as [Hlt|Hge].
  - rewrite Z.rem_small by lia.
    destruct (lookup_lt_is_Some_2 (keys m) (Z.to_nat idx)) as [k Hk]; [lia|].
    rewrite index_lookup, Hk by lia. simpl.
    assert (list_find (λ k, h <= k) (keys m) = Some (Z.to_nat idx, k)) as ->;
      [|done].
    apply list_find_Some. split_and!; [done| |].
    + specialize (Hhi idx ltac:(lia)). unfold f in Hhi.
      apply bool_decide_eq_true in Hhi.
      rewrite index_lookup, Hk in Hhi by lia. simpl in Hhi. lia.
    + intros j y Hy Hj. specialize (Hlo (Z.of_nat j) ltac:(lia)).
      unfold f in Hlo. apply bool_decide_eq_false in Hlo.
      rewrite index_lookup, Nat2Z.id, Hy in Hlo by lia. simpl in Hlo. lia.
  - assert (idx = n) as -> by lia. rewrite Z.rem_same by lia.
    assert (list_find (λ k, h <= k) (keys m) = None) as ->.
    { apply list_find_None, Forall_forall. intros y Hy.
      apply list_elem_of_lookup in Hy as [j Hj].
      pose proof (lookup_lt_Some _ _ _ Hj).
      specialize (Hlo (Z.of_nat j) ltac:(lia)).
      unfold f in Hlo. apply bool_decide_eq_false in Hlo.
      rewrite index_lookup, Nat2Z.id, Hj in Hlo by lia. simpl in Hlo. lia. }
    destruct (lookup_lt_is_Some_2 (keys m) 0%nat) as [k0 Hk0]; [lia|].
    rewrite index_lookup by lia. change (Z.to_nat 0) with 0%nat.
    by rewrite head_lookup, Hk0.
Qed.

End ring.

(** ** The hash ring: membership *)

Section ring_membership.
Import consistenthash.

Lemma vnode_ext (m m' : Map) p i :
  hash m' = hash m -> vnode m' p i = vnode m p i.
Proof. intros Hh. unfold vnode. by rewrite Hh. Qed.

Lemma vnodes_ext (m m' : Map) ps :
  hash m' = hash m -> replicas m' = replicas m -> vnodes m' ps = vnodes m ps.
Proof.
  intros Hh Hr. unfold vnodes. rewrite Hr.
  induction ps as [|p ps IH]; [done|]. cbn. rewrite IH. f_equal.
  apply list_fmap_ext. intros _ i _. by apply vnode_ext.
Qed.

Lemma vnodes_app (m : Map) ps qs :
  vnodes m (ps ++ qs) = vnodes m ps ++ vnodes m qs.
Proof. unfold vnodes. by rewrite bind_app. Qed.

Lemma owned_mono (m : Map) ps qs : owned m ps -> ps ⊆ qs -> owned m qs.
Proof.
  intros Ho Hsub k Hk. destruct (Ho k Hk) as (p & i & ? & ? & ? & ?).
  exists p, i. split; [done|]. split; [by apply Hsub|]. by split.
Qed.

Lemma owned_add_replica (m : Map) ps p i :
  owned m ps -> p ∈ ps -> 0 <= i < replicas m ->
  owned (add_replica p m i) ps.
Proof.
  intros Ho Hp Hi k Hk. unfold add_replica in *. simpl in *.
  fold (vnode m p i) in *.
  destruct (decide (k = vnode m p i)) as [->|Hne].
  - exists p, i. rewrite lookup_insert_eq. split_and!; try done; lia.
  - apply elem_of_app in Hk as [Hk|Hk]; [|set_solver].
    destruct (Ho k Hk) as (q & j & ? & ? & ? & ?).
    exists q, j. rewrite lookup_insert_ne by done.
    split_and!; try done; lia.
Qed.

(** The inner loop of [Add], over the indices [js]. *)
Lemma replicas_loop (m : Map) p js :
  hash (foldl (add_replica p) m js) = hash m ∧
  replicas (foldl (add_replica p) m js) = replicas m ∧
  keys (foldl (add_replica p) m js) = keys m ++ (vnode m p <$> js) ∧
  ∀ ps, owned m ps -> p ∈ ps -> Forall (λ i, 0 <= i < replicas m) js ->
        owned (foldl (add_replica p) m js) ps.
Proof.
  revert m. induction js as [|i js IH]; intros m; simpl.
  - rewrite app_nil_r. by split_and!.
  - destruct (IH (add_replica p m i)) as (Hh & Hr & Hk & Ho).
    split_and!; [done|done| |].
    + rewrite Hk. simpl. by rewrite <- app_assoc.
    + intros ps Hown Hp Hjs. apply Forall_cons in Hjs as [Hi Hjs].
      apply Ho; [by apply owned_add_replica|done|done].
Qed.

(** The outer loop of [Add], over the peers. *)
Lemma peers_loop (m : Map) peers :
  let m' := foldl (λ m key, foldl (add_replica key) m (seqZ 0 (replicas m)))
                  m peers in
  hash m' = hash m ∧ replicas m' = replicas m ∧
  keys m' = keys m ++ vnodes m peers ∧
  ∀ ps, owned m ps -> peers ⊆ ps -> owned m' ps.
Proof.
  revert m. induction peers as [|p peers IH]; intros m; simpl.
  - rewrite app_nil_r. by split_and!.
  - destruct (replicas_loop m p (seqZ 0 (replicas m))) as (Hh1 & Hr1 & Hk1 & Ho1).
    destruct (IH (foldl (add_replica p) m (seqZ 0 (replicas m))))
      as (Hh & Hr & Hk & Ho).
    split_and!.
    + congruence.
    + congruence.
    + rewrite Hk, Hk1. rewrite <- app_assoc. f_equal.
      unfold vnodes at 2. cbn. f_equal. by apply vnodes_ext.
    + intros ps Hown Hsub. apply Ho; [|set_solver].
      apply Ho1; [done|set_solver|].
      apply Forall_forall. intros i Hi. apply elem_of_seqZ in Hi. lia.
Qed.

Lemma Add_spec (m : Map) peers :
  hash (Add m peers) = hash m ∧ replicas (Add m peers) = replicas m ∧
  hashMap (Add m peers)
  = hashMap (foldl (λ m key, foldl (add_replica key) m (seqZ 0 (replicas m)))
                   m peers) ∧
  StronglySorted Z.le (keys (Add m peers)) ∧
  keys (Add m peers) ≡ₚ keys m ++ vnodes m peers ∧
  ∀ ps, owned m ps -> owned (Add m peers) (ps ++ peers).
Proof.
  destruct (peers_loop m peers) as (Hh & Hr & Hk & Ho).
  unfold Add. simpl. split_and!; try done.
  - apply Sorted_StronglySorted; [apply _|]. apply Sorted_merge_sort. apply _.
  - unfold sort_Ints. by rewrite merge_sort_Permutation, Hk.
  - intros ps Hown k Hin. simpl in Hin.
    unfold sort_Ints in Hin. rewrite merge_sort_Permutation in Hin.
    destruct (Ho (ps ++ peers)) with (k := k) as (p & i & H1 & H2 & H3 & H4).
    + eapply owned_mono; [done|set_solver].
    + set_solver.
    + done.
    + exists p, i. simpl. unfold vnode in *. simpl.
      split_and!; try done; lia.
Qed.

Lemma ring_snoc r fn batches peers :
  ring r fn (batches ++ [peers]) = Add (ring r fn batches) peers.
Proof. unfold ring. by rewrite foldl_app. Qed.

(** What holds of every ring built by [New] and [Add]. *)
Lemma ring_spec r fn batches :
  hash (ring r fn batches)
  = match fn with Some h => h | None => ChecksumIEEE end ∧
  replicas (ring r fn batches) = r ∧
  StronglySorted Z.le (keys (ring r fn batches)) ∧
  keys (ring r fn batches) ≡ₚ vnodes (ring r fn batches) (concat batches) ∧
  owned (ring r fn batches) (concat batches).
Proof.
  induction batches as [|peers batches IH] using rev_ind.
  - unfold ring. simpl. split_and!; try done.
    + constructor.
    + intros k Hk. by apply elem_of_nil in Hk.
  - destruct IH as (Hh & Hr & Hs & Hp & Ho).
    rewrite ring_snoc.
    destruct (Add_spec (ring r fn batches) peers)
      as (Hh' & Hr' & _ & Hs' & Hp' & Ho').
    replace (concat (batches ++ [peers])) with (concat batches ++ peers)
      by (rewrite concat_app; simpl; by rewrite app_nil_r).
    split; [congruence|]. split; [congruence|]. split; [done|]. split.
    + rewrite Hp', vnodes_app, Hp.
      by rewrite !(vnodes_ext (ring r fn batches)
                     (Add (ring r fn batches) peers)).
    + by apply Ho'.
Qed.

End ring_membership.

(** ** The hash ring: the claim *)

Section ring_claim.
Import consistenthash.

Lemma node_for_nonempty (ks : list Z) h : ks ≠ [] -> is_Some (node_for ks h).
Proof.
  intros Hne. unfold node_for.
  destruct (list_find (λ k, h <= k) ks) as [[i k]|]; [by eexists|].
  destruct ks; [done|]. by eexists.
Qed.

Lemma node_for_elem_of (ks : list Z) h k : node_for ks h = Some k -> k ∈ ks.
Proof.
  unfold node_for.
  destruct (list_find (λ k, h <= k) ks) as [[i k']|] eqn:Hf.
  - intros [= <-]. apply list_find_Some in Hf as (Hl & _).
    by eapply list_elem_of_lookup_2.
  - intros Hh. rewrite head_lookup in Hh. by eapply list_elem_of_lookup_2.
Qed.

(** [Get] on a ring built by [New] and [Add]: the empty string without
    virtual nodes, and otherwise the registered peer that owns the node
    for the key. *)
Lemma ring_Get_cases (r : Z) (fn : option Hash)
    (batches : list (list string)) (key : string) :
  (keys (ring r fn batches) = [] -> Get (ring r fn batches) key = "") ∧
  (keys (ring r fn batches) ≠ [] ->
   ∃ k p i,
     node_for (keys (ring r fn batches))
       (uint32 (hash (ring r fn batches) key)) = Some k ∧
     hashMap (ring r fn batches) !! k = Some p ∧
     Get (ring r fn batches) key = p ∧
     p ∈ concat batches ∧ 0 <= i < r ∧ k = vnode (ring r fn batches) p i).
Proof.
  destruct (ring_spec r fn batches) as (Hh & Hr & Hs & Hp & Ho).
  set (m := ring r fn batches) in *. split.
  - intros He. unfold Get. by rewrite He.
  - intros Hne.
    destruct (node_for_nonempty (keys m) (uint32 (hash m key)) Hne) as [k Hk].
    destruct (Ho k (node_for_elem_of _ _ _ Hk)) as (p & i & Hm & Hin & Hi & Hv).
    exists k, p, i. rewrite Get_node_for, Hk, Hm by done. simpl.
    rewrite Hr in Hi. split_and!; try done; lia.
Qed.

(** C5, as amended.  For every ring built by [New] and [Add]: the keys
    are sorted and are the virtual nodes of the registered peers; [Get]
    returns the empty string when no virtual node is registered;
    otherwise it returns the peer that [hashMap] gives for the first
    element of the sorted sequence that is at least the hash of the key,
    or for the first element when there is none, and that peer is a
    registered one with a virtual node at that position.  When no
    registered peer is the empty string, [Get] returns the empty string
    only if no virtual node is registered. *)
Theorem ring_Get_owner (r : Z) (fn : option Hash)
    (batches : list (list string)) (key : string) :
  let m := ring r fn batches in
  StronglySorted Z.le (keys m) ∧
  keys m ≡ₚ vnodes m (concat batches) ∧
  (keys m = [] -> Get m key = "") ∧
  (keys m ≠ [] ->
   ∃ k p i, node_for (keys m) (uint32 (hash m key)) = Some k ∧
            hashMap m !! k = Some p ∧ Get m key = p ∧
            p ∈ concat batches ∧ 0 <= i < r ∧ k = vnode m p i) ∧
  ((∀ p, p ∈ concat batches -> p ≠ "") ->
   (Get m key = "" <-> keys m = [])).
Proof.
  intros m. destruct (ring_spec r fn batches) as (_ & _ & Hs & Hp & _).
  destruct (ring_Get_cases r fn batches key) as [Hempty Hfull].
  fold m in Hs, Hp, Hempty, Hfull.
  split; [done|]. split; [done|]. split; [done|]. split; [done|].
  intros Hnames. split; [|done].
  intros Hg. destruct (decide (keys m = [])) as [|Hne]; [done|].
  destruct (Hfull Hne) as (k & p & i & _ & _ & Hgp & Hin & _).
  exfalso. apply (Hnames p Hin). congruence.
Qed.

(** C5, the counterexample to the claim as stated: a ring on which the
    peer named by the empty string is registered has a virtual node, and
    [Get] returns the empty string. *)
Lemma ring_empty_peer_counterexample :
  keys (ring 1 None [[""]]) ≠ [] ∧ Get (ring 1 None [[""]]) "Tom" = "".
Proof. split; [|vm_compute; reflexivity]. vm_compute. discriminate. Qed.

End ring_claim.

(** ** The eviction cache: the counter modulo [2^64] *)

Section lru_tally.
Context {V : Type} `{!lru.Value V}.
Import lru.

(** Without any assumption on sizes, the counter is the sum of the sizes
    of the entries, wrapped to [int64]. *)
Definition tallied (c : Cache V) : Prop :=
  nbytes c = int64 (total_size (entries c)).

Lemma charge_int64 (kv : entry V) :
  charge kv = int64 (len (key kv) + Len (value kv)).
Proof. unfold charge, add64. by rewrite int64_add_l, int64_add_r. Qed.

Lemma tallied_New maxBytes onEvicted : tallied (New maxBytes onEvicted).
Proof. reflexivity. Qed.

Lemma tallied_Get (c : Cache V) k : tallied c -> tallied (Get c k).1.
Proof.
  unfold tallied. intros Ht.
  destruct (Get_keeps c k) as (_ & HN & _ & _ & Hts).
  by rewrite HN, Hts.
Qed.

Lemma tallied_RemoveOldest (c : Cache V) :
  wf c -> tallied c -> tallied (RemoveOldest c).
Proof.
  unfold tallied. intros Hwf Ht.
  destruct (decide (entries c = [])) as [He|He].
  { rewrite RemoveOldest_empty; [done|]. apply nil_length_inv.
    by rewrite <- (entries_length c Hwf), He. }
  destruct (RemoveOldest_snoc c Hwf He) as (kv & Hsn & Hnb & _).
  rewrite Hnb, Ht, Hsn, total_size_app, charge_int64. simpl.
  unfold sub64. rewrite int64_sub_l, int64_sub_r. f_equal. lia.
Qed.

Lemma tallied_store (c : Cache V) k v :
  wf c -> tallied c -> tallied (store c k v).
Proof.
  unfold tallied. intros Hwf Ht.
  destruct (cache c !! k) as [ele|] eqn:Hc.
  - destruct (entries_hit c k ele Hwf Hc)
      as (v0 & l1 & l2 & Hv0 & Hll & Hn1 & Hn2 & Hen & _).
    rewrite (entries_store_hit c k v ele v0 l1 l2) by done.
    unfold store. rewrite Hc, Hv0. simpl.
    rewrite Ht, Hen, !total_size_app. simpl.
    unfold add64, sub64.
    rewrite int64_sub_l, int64_sub_r, int64_add_l, int64_add_r.
    f_equal. lia.
  - rewrite entries_store_miss by done.
    unfold store. rewrite Hc. simpl.
    rewrite Ht, charge_int64. simpl. unfold add64.
    rewrite int64_add_l, int64_add_r. f_equal. lia.
Qed.

(** With a budget that is not negative the loop of [Add] ends, within as
    many turns as the list has elements. *)
Lemma evict_ends fuel (c : Cache V) :
  wf c -> tallied c -> 0 <= maxBytes c -> (length (ll c) <= fuel)%nat ->
  ∃ c', evict fuel c = Some c' ∧ wf c' ∧ tallied c' ∧
        maxBytes c' = maxBytes c.
Proof.
  revert c. induction fuel as [|fuel IH]; intros c Hwf Ht HM Hlen.
  - assert (Hll : ll c = []) by (destruct (ll c); [done|simpl in Hlen; lia]).
    exists c. simpl. rewrite bool_decide_eq_false_2; [done|].
    intros [_ Hlt]. unfold tallied, entries in Ht. rewrite Hll in Ht.
    simpl in Ht. rewrite int64_0 in Ht. lia.
  - simpl. case_bool_decide as Hover; [|by exists c].
    destruct Hover as [_ Hlt].
    assert (He : entries c ≠ []).
    { intros He. unfold tallied in Ht. rewrite He in Ht. simpl in Ht.
      rewrite int64_0 in Ht. lia. }
    destruct (RemoveOldest_snoc c Hwf He) as (kv & _ & _ & HMx & _ & Hl).
    destruct (IH (RemoveOldest c)) as (c' & Hev & Hwf' & Ht' & HM').
    + by apply wf_RemoveOldest.
    + by apply tallied_RemoveOldest.
    + by rewrite HMx.
    + lia.
    + exists c'. split_and!; try done. congruence.
Qed.

Lemma tallied_evict fuel (c c' : Cache V) :
  wf c -> tallied c -> evict fuel c = Some c' ->
  tallied c' ∧ maxBytes c' = maxBytes c.
Proof.
  revert c. induction fuel as [|fuel IH]; intros c Hwf Ht; simpl;
    case_bool_decide; try done; try (by intros [= <-]).
  intros Hev.
  destruct (IH (RemoveOldest c)) as [Ht' HM']; try done.
  - by apply wf_RemoveOldest.
  - by apply tallied_RemoveOldest.
  - by rewrite HM', maxBytes_RemoveOldest.
Qed.

(** With a negative budget the loop never ends once the list is empty. *)
Lemma evict_spins fuel (c : Cache V) :
  maxBytes c < 0 -> ll c = [] -> nbytes c = 0 -> evict fuel c = None.
Proof.
  intros HM Hll Hn. induction fuel as [|fuel IH]; simpl;
    rewrite bool_decide_eq_true_2 by lia; [done|].
  by rewrite RemoveOldest_empty.
Qed.

(** On a new cache with a negative budget, [Add] never returns: the
    entry added is evicted, and the empty cache is still above the
    budget. *)
Lemma Add_spins fuel M onEvicted k (v : V) :
  M < 0 -> 0 <= len k + Len v <= max_int64 ->
  Add fuel (New M onEvicted) k v = None.
Proof.
  intros HM Hsize. unfold Add.
  set (c1 := store (New M onEvicted) k v).
  assert (Hwf : wf c1) by apply wf_store, wf_New.
  assert (Ht : tallied c1) by (apply tallied_store; [apply wf_New|done]).
  assert (He : entries c1 = [Entry k v]).
  { unfold c1. by rewrite entries_store_miss by (apply wf_New || done). }
  assert (HM1 : maxBytes c1 = M) by apply maxBytes_store.
  assert (Hn : nbytes c1 = len k + Len v).
  { rewrite Ht, He. simpl. rewrite Z.add_0_r. int64_solve. }
  assert (Hspin : ∀ fuel', evict fuel' (RemoveOldest c1) = None).
  { intros fuel'.
    destruct (RemoveOldest_snoc c1 Hwf) as (kv & Hsn & _ & HMx & _ & _).
    { by rewrite He. }
    pose proof (wf_RemoveOldest c1 Hwf) as Hwf2.
    pose proof (tallied_RemoveOldest c1 Hwf Ht) as Ht2.
    assert (He2 : entries (RemoveOldest c1) = []).
    { rewrite He in Hsn. destruct (entries (RemoveOldest c1)) as [|x l]; [done|].
      destruct l; simpl in Hsn; discriminate. }
    apply evict_spins.
    - rewrite HMx, HM1. done.
    - apply nil_length_inv. by rewrite <- (entries_length _ Hwf2), He2.
    - unfold tallied in Ht2. by rewrite Ht2, He2. }
  destruct fuel as [|fuel]; simpl;
    rewrite bool_decide_eq_true_2 by (rewrite HM1, Hn; lia); [done|].
  apply Hspin.
Qed.

End lru_tally.

(** ** The call deduplicator, one caller at a time *)

(** With no call in flight for the key, [Do] is one call of the
    producer, whose result it returns, and the key is deregistered
    again, so that the next [Do] calls its producer afresh. *)
Lemma Do_sequential {St A : Type} (g : singleflight.Group) key
    (fn : St -> option (A * St)) s r s' :
  key ∉ singleflight.m g -> fn s = Some (r, s') ->
  singleflight.Do g key fn s = Some (r, g, s').
Proof.
  intros Hk Hfn. unfold singleflight.Do.
  rewrite bool_decide_eq_false_2 by done. rewrite Hfn. simpl.
  destruct g as [m]. simpl in *.
  assert (({[key]} ∪ m) ∖ {[key]} = m) as -> by set_solver. done.
Qed.

(** ** The group: shard and loader *)

Section group_theory.
Context {X : Type}.
Import geecache.

(** The key is present in the shard: the test [c.cache[key]] of the
    eviction cache, on a shard that has been written. *)
Definition shard_has (c : cache) (key : string) : bool :=
  match lru c with
  | Some l => bool_decide (is_Some (lru.cache l !! key))
  | None => false
  end.

Definition shard_len (c : cache) : nat :=
  match lru c with
  | Some l => length (lru.ll l)
  | None => O
  end.

(** The states of a shard that its own operations produce. *)
Definition shard_ok (c : cache) : Prop :=
  match lru c with
  | Some l => wf l ∧ tallied l ∧ lru.maxBytes l = cacheBytes c
  | None => True
  end.

(** The states of a group between calls: the shard is in order and no
    call is in flight. *)
Definition Group_ok (g : Group X) : Prop :=
  shard_ok (mainCache g) ∧ singleflight.m (loader g) = ∅.

(** The number of calls made to the load callback. *)
Fixpoint getter_calls (l : list Call) : nat :=
  match l with
  | [] => O
  | CallGetter _ :: l' => S (getter_calls l')
  | _ :: l' => getter_calls l'
  end.

Lemma getter_calls_app (l1 l2 : list Call) :
  getter_calls (l1 ++ l2) = (getter_calls l1 + getter_calls l2)%nat.
Proof.
  induction l1 as [|c l1 IH]; [done|]. destruct c; simpl; by rewrite ?IH.
Qed.

(** A slice lies within an allocated array. *)
Definition valid (h : Heap) (data : bytes) : Prop :=
  match data with
  | nil_bytes => True
  | Slice a off n =>
      ∃ bs, h !! a = Some bs ∧ (off + n <= length bs)%nat
  end.

Lemma get_miss (c : cache) key :
  shard_has c key = false -> get c key = (c, None).
Proof.
  unfold shard_has, get. destruct c as [[l|] cb]; simpl; [|done].
  intros Hm. apply bool_decide_eq_false in Hm.
  unfold lru.Get. destruct (lru.cache l !! key); [|done].
  exfalso. apply Hm. by eexists.
Qed.

Lemma shard_ok_get (c : cache) key : shard_ok c -> shard_ok (get c key).1.
Proof.
  unfold shard_ok, get. destruct c as [[l|] cb]; simpl; [|done].
  intros (Hwf & Ht & HM).
  pose proof (wf_Get l key Hwf) as Hwf'.
  pose proof (tallied_Get l key Ht) as Ht'.
  destruct (Get_keeps l key) as (HM' & _).
  destruct (lru.Get l key) as [l' r]. simpl in *.
  split_and!; [done|done|congruence].
Qed.

Lemma shard_ok_add fuel (c c' : cache) key v :
  shard_ok c -> add fuel c key v = Some c' -> shard_ok c'.
Proof.
  unfold shard_ok, add. intros Hok.
  set (l := match lru c with
            | Some l => l
            | None => lru.New (cacheBytes c) false
            end).
  assert (wf l ∧ tallied l ∧ lru.maxBytes l = cacheBytes c)
    as (Hwf & Ht & HM).
  { unfold l. destruct (lru c); [done|].
    split_and!; [apply wf_New|apply tallied_New|done]. }
  destruct (lru.Add fuel l key v) as [l'|] eqn:Hadd; [|done].
  intros [= <-]. simpl.
  pose proof (wf_store l key v Hwf) as Hwf1.
  pose proof (tallied_store l key v Hwf Ht) as Ht1.
  destruct (tallied_evict fuel _ _ Hwf1 Ht1 Hadd) as [Ht' HM'].
  split_and!; [by eapply wf_evict|done|].
  by rewrite HM', maxBytes_store.
Qed.

(** [add] returns when the budget is not negative and the fuel exceeds
    the number of entries. *)
Lemma add_returns fuel (c : cache) key v :
  shard_ok c -> 0 <= cacheBytes c -> (shard_len c < fuel)%nat ->
  ∃ c', add fuel c key v = Some c' ∧ shard_ok c' ∧
        cacheBytes c' = cacheBytes c.
Proof.
  intros Hok Hcb Hfuel.
  assert (∃ l', lru.Add fuel
                  (match lru c with
                   | Some l => l
                   | None => lru.New (cacheBytes c) false
                   end) key v = Some l') as [l' Hadd].
  { unfold shard_ok, shard_len in *. unfold lru.Add.
    destruct (lru c) as [l|].
    - destruct Hok as (Hwf & Ht & HM).
      destruct (evict_ends fuel (lru.store l key v)) as (l' & Hev & _).
      + by apply wf_store.
      + by apply tallied_store.
      + by rewrite maxBytes_store, HM.
      + pose proof (length_store l key v). lia.
      + by exists l'.
    - destruct (evict_ends fuel
                  (lru.store (lru.New (cacheBytes c) false) key v))
        as (l' & Hev & _).
      + apply wf_store, wf_New.
      + apply tallied_store; [apply wf_New|apply tallied_New].
      + by rewrite maxBytes_store.
      + pose proof (length_store (lru.New (cacheBytes c) false) key v) as Hl.
        simpl in Hl. lia.
      + by exists l'. }
  exists {| lru := Some l'; cacheBytes := cacheBytes c |}.
  assert (Ha : add fuel c key v
               = Some {| lru := Some l'; cacheBytes := cacheBytes c |}).
  { unfold add. by rewrite Hadd. }
  split_and!; [done| |done]. by eapply shard_ok_add.
Qed.

(** The entries of a shard, most recently used first. *)
Definition shard_entries (c : cache) : list (lru.entry ByteView) :=
  match lru c with
  | Some l => lru.entries l
  | None => []
  end.

(** After [add] of a key that was missing, the shard holds the new entry
    in front of the old ones, less the entries evicted from the back. *)
Lemma add_entries fuel (c c' : cache) key v :
  shard_ok c -> shard_has c key = false -> add fuel c key v = Some c' ->
  ∃ gone, lru.Entry key v :: shard_entries c = shard_entries c' ++ gone.
Proof.
  unfold shard_ok, shard_has, shard_entries, add. intros Hok Hmiss.
  set (l := match lru c with
            | Some l => l
            | None => lru.New (cacheBytes c) false
            end).
  assert (wf l ∧ lru.cache l !! key = None ∧
          lru.entries l = match lru c with
                          | Some l => lru.entries l
                          | None => []
                          end) as (Hwf & Hk & He).
  { unfold l. destruct (lru c) as [l0|].
    - split; [apply Hok|]. split; [|done].
      apply bool_decide_eq_false in Hmiss.
      destruct (lru.cache l0 !! key) eqn:Hl; [|done].
      exfalso. apply Hmiss. by eexists.
    - split; [apply wf_New|]. by split. }
  destruct (lru.Add fuel l key v) as [l'|] eqn:Hadd; [|done].
  intros [= <-]. simpl.
  destruct (evict_prefix fuel _ _ (wf_store l key v Hwf) Hadd) as [gone Hg].
  exists gone. by rewrite <- Hg, entries_store_miss, He.
Qed.

End group_theory.

(** ** The group: the paths of [Get] *)

Section group_paths.
Context {X : Type}.
Import geecache.

Local Arguments cloneBytes : simpl never.
Local Arguments add : simpl never.

(** How the peer phase of [load] ends without a value, from the world
    [w] to the world in which the load callback is called: no pool is
    attached, or the pool picks no peer, or the picked peer's fetch
    returns an error (which is logged). *)
Inductive falls_back (g : Group X) (key : string) (w : World X)
  : World X -> Prop :=
  | no_pool :
      peers g = None -> falls_back g key w w
  | none_picked picker e1 :
      peers g = Some picker ->
      picker key (env w) = (None, e1) ->
      falls_back g key w (with_env e1 (called (CallPickPeer key) w))
  | fetch_failed picker peer e1 data msg e2 :
      peers g = Some picker ->
      picker key (env w) = (Some peer, e1) ->
      peer (name g) key e1 = ((data, Some msg), e2) ->
      falls_back g key w
        {| env := Println ("[GeeCache] Failed to get from peer " +:+ msg) e2;
           calls := calls w ++ [CallPickPeer key; CallPeerGet (name g) key] |}.

Lemma falls_back_getter_calls (g : Group X) key w w1 :
  falls_back g key w w1 -> getter_calls (calls w1) = getter_calls (calls w).
Proof.
  intros [Hp|picker e1 Hp Hpick|picker peer e1 data msg e2 Hp Hpick Hget];
    simpl; [done| |]; rewrite getter_calls_app; simpl; lia.
Qed.

Lemma with_mainCache_same (g : Group X) : with_mainCache (mainCache g) g = g.
Proof. by destruct g. Qed.

Lemma loader_restored (g : Group X) key :
  singleflight.m (loader g) = ∅ ->
  {| singleflight.m := ({[key]} ∪ singleflight.m (loader g)) ∖ {[key]} |}
  = loader g.
Proof.
  intros Hm. destruct (loader g) as [m]. simpl in *. subst m. f_equal.
  set_solver.
Qed.

Lemma with_loader_same (g : Group X) : with_loader (loader g) g = g.
Proof. by destruct g. Qed.

(** [cloneBytes] allocates: its result is a slice on an array that was
    not allocated before, nothing else changes in the heap, and the copy
    holds the bytes of a valid original. *)
Lemma cloneBytes_spec (data : bytes) (h : Heap) :
  ∃ a h',
    cloneBytes data h = (Slice a 0 (bytes_len data), h') ∧
    (a ∉ dom h) ∧ (∀ l, l ≠ a -> h' !! l = h !! l) ∧
    (valid h data ->
     contents h' (Slice a 0 (bytes_len data)) = contents h data).
Proof.
  unfold cloneBytes, make_bytes, copy_bytes.
  set (a := fresh (dom h)). set (n := bytes_len data).
  assert (Ha : a ∉ dom h) by apply is_fresh.
  eexists a, _. split; [reflexivity|]. split; [done|]. split.
  - intros l Hl. by rewrite !lookup_insert_ne.
  - intros Hv. simpl. rewrite !lookup_insert_eq. simpl.
    assert (Hc : contents (<[a := replicate n zero]> h) data
                 = contents h data).
    { destruct data as [|arr off m]; [done|]. simpl.
      destruct Hv as (bs & Hbs & _).
      rewrite lookup_insert_ne; [done|]. intros <-.
      apply Ha, elem_of_dom. by eexists. }
    rewrite Hc.
    assert (Hlen : length (contents h data) = n).
    { destruct data as [|arr off m]; [done|]. simpl.
      destruct Hv as (bs & -> & Hle). simpl.
      rewrite length_take, length_drop. unfold n. simpl. lia. }
    rewrite (take_ge (contents h data)) by lia.
    rewrite drop_0, Hlen.
    rewrite (drop_ge (replicate n zero)) by (rewrite length_replicate; lia).
    rewrite app_nil_r, take_ge by lia. done.
Qed.

(** [load] when the peer phase ends without a value: the result is that
    of [getLocally], and of an error only the error is passed on. *)
Ltac load_finish Hrest :=
  match goal with
  | |- context [getLocally ?f ?g ?k ?w] =>
      destruct (getLocally f g k w) as [[[[? [?|]] ?] ?]|];
      simpl; rewrite ?Hrest; done
  end.

Lemma load_falls_back fuel (g : Group X) key w w1 :
  singleflight.m (loader g) = ∅ ->
  falls_back g key w w1 ->
  load fuel g key w =
    match getLocally fuel g key w1 with
    | Some ((v, err), g', w') =>
        Some ((match err with None => v | Some _ => ByteView_zero end, err),
              with_loader (loader g) g', w')
    | None => None
    end.
Proof.
  intros Hidle Hfb. unfold load, singleflight.Do.
  rewrite bool_decide_eq_false_2 by (rewrite Hidle; set_solver).
  pose proof (loader_restored g key Hidle) as Hrest.
  unfold load_producer. simpl.
  destruct Hfb as [Hp|picker e1 Hp Hpick|picker peer e1 data' msg e2 Hp Hpick Hpeer].
  - rewrite Hp.
    load_finish Hrest.
  - rewrite Hp. rewrite Hpick. simpl.
    load_finish Hrest.
  - rewrite Hp. rewrite Hpick. simpl.
    unfold getFromPeer. simpl. rewrite Hpeer. simpl.
    unfold with_env, called. simpl. rewrite <- app_assoc. simpl.
    load_finish Hrest.
Qed.

(** [Get] on a key that is not empty and not in the shard, when the peer
    phase ends without a value: the load callback is called and, when it
    succeeds, its bytes are cloned and added to the shard. *)
Lemma Get_falls_back fuel (g : Group X) key w w1 data err e3 :
  singleflight.m (loader g) = ∅ ->
  key ≠ "" -> shard_has (mainCache g) key = false ->
  falls_back g key (called (CallShardGet key) w) w1 ->
  getter g key (env w1) = ((data, err), e3) ->
  Get fuel g key w =
    match err with
    | Some _ =>
        Some ((ByteView_zero, err), g,
              with_env e3 (called (CallGetter key) w1))
    | None =>
        let '(c, h) := cloneBytes data (heap e3) in
        match add fuel (mainCache g) key {| b := c |} with
        | Some shard =>
            Some (({| b := c |}, None), with_mainCache shard g,
                  called (CallShardAdd key)
                    (with_env (with_heap h e3) (called (CallGetter key) w1)))
        | None => None
        end
    end.
Proof.
  intros Hidle Hkey Hmiss Hfb Hget.
  unfold Get. rewrite bool_decide_eq_false_2 by done.
  rewrite get_miss by done. rewrite with_mainCache_same.
  rewrite (load_falls_back fuel g key _ w1) by done.
  unfold getLocally.
  change (env (called (CallGetter key) w1)) with (env w1). rewrite Hget.
  destruct err as [msg|].
  - by rewrite with_loader_same.
  - destruct (cloneBytes data (heap e3)) as [c h].
    unfold populateCache. simpl.
    destruct (add fuel (mainCache g) key {| b := c |}) as [shard|];
      simpl.
    + by destruct g.
    + done.
Qed.

End group_paths.

(** ** The group: the claims *)

Section group_claims.
Context {X : Type}.
Import geecache.

Local Arguments cloneBytes : simpl never.
Local Arguments add : simpl never.
Local Arguments get : simpl never.

Lemma Group_ok_NewGroup (groups : Registry X) name cacheBytes getter g groups' :
  NewGroup groups name cacheBytes getter = Returns (g, groups') ->
  Group_ok g ∧ GetGroup groups' name = Some g.
Proof.
  unfold NewGroup. destruct getter as [gt|]; [|done].
  intros [= <- <-]. split; [by split|].
  unfold GetGroup, Registry in *. by rewrite lookup_insert_eq.
Qed.

Lemma Group_ok_RegisterPeers (g g' : Group X) picker :
  Group_ok g -> RegisterPeers g picker = Returns g' -> Group_ok g'.
Proof.
  unfold RegisterPeers. intros Hok. destruct (peers g); [done|].
  by intros [= <-].
Qed.

Lemma Group_ok_with_mainCache (g : Group X) c :
  Group_ok g -> shard_ok c -> Group_ok (with_mainCache c g).
Proof. intros [_ Hl] Hc. by split. Qed.

Lemma Group_ok_getLocally fuel (g g' : Group X) key w r w' :
  Group_ok g -> getLocally fuel g key w = Some (r, g', w') -> Group_ok g'.
Proof.
  intros Hok. unfold getLocally.
  destruct (getter g key (env (called (CallGetter key) w)))
    as [[data [msg|]] e].
  - by intros [= <- <- <-].
  - destruct (cloneBytes data (heap e)) as [c h]. unfold populateCache.
    destruct (add fuel (mainCache g) key {| b := c |}) as [shard|] eqn:Hadd;
      [|done].
    intros [= <- <- <-]. apply Group_ok_with_mainCache; [done|].
    destruct Hok as [Hs _]. by eapply shard_ok_add.
Qed.

(** [Group_ok] is an invariant of the group: whatever path [Get] takes,
    the group it leaves is in order. *)
Lemma Group_ok_Get fuel (g g' : Group X) key w r w' :
  Group_ok g -> Get fuel g key w = Some (r, g', w') -> Group_ok g'.
Proof.
  intros Hok. unfold Get. case_bool_decide; [by intros [= <- <- <-]|].
  pose proof (shard_ok_get (mainCache g) key (proj1 Hok)) as Hget.
  destruct (get (mainCache g) key) as [c [v|]]; simpl in Hget.
  - intros [= <- <- <-]. by apply Group_ok_with_mainCache.
  - pose proof (Group_ok_with_mainCache g c Hok Hget) as Hok1.
    set (g1 := with_mainCache c g) in *. clearbody g1.
    unfold load, singleflight.Do.
    destruct Hok1 as [Hs1 Hidle].
    rewrite bool_decide_eq_false_2 by (rewrite Hidle; set_solver).
    destruct (load_producer fuel key _) as [[[v err] fr]|] eqn:Hp; [|done].
    assert (Hfr : Group_ok (fr_group fr)).
    { unfold load_producer in Hp. simpl in Hp.
      repeat case_match; simplify_eq/=; try (by split);
        (eapply Group_ok_getLocally; [|eassumption]; by split). }
    simpl. rewrite Hidle.
    destruct err; intros [= <- <- <-]; (split; [apply Hfr|simpl; set_solver]).
Qed.

(** The client's [Get] fails on a transport error, on a status other
    than 200, and on an error reading the body. *)
Lemma httpGetter_Get_fails (http_Get : Transport) h group key (e : Env X) :
  match http_Get (request_url h group key) e with
  | (inr _, _) => True
  | (inl res, e1) =>
      StatusCode res ≠ 200 ∨ ∃ msg, (ReadAll res e1).1.2 = Some msg
  end ->
  ∃ msg, (httpGetter_Get http_Get h group key e).1 = (nil_bytes, Some msg).
Proof.
  unfold httpGetter_Get.
  destruct (http_Get (request_url h group key) e) as [[res|err] e1].
  - intros [Hst|[msg Hrd]].
    + rewrite bool_decide_eq_true_2 by done. by eexists.
    + case_bool_decide; [by eexists|].
      destruct (ReadAll res e1) as [[data [msg'|]] e2]; [by eexists|done].
  - intros _. by eexists.
Qed.

(** C9.  For every group, world and fuel, [Get] on the empty key returns
    the error "key is required" and leaves the group and the world as
    they were: the shard is not read, no peer is picked, the load
    callback is not called, and nothing is logged. *)
Theorem Get_empty_key (fuel : nat) (g : Group X) (w : World X) :
  Get fuel g "" w = Some ((ByteView_zero, Some "key is required"), g, w).
Proof.
  unfold Get. rewrite bool_decide_eq_true_2 by reflexivity. reflexivity.
Qed.

(** C6.  For every group with a pool attached and every key that is not
    empty and not in the shard: when the pool picks a peer and the
    peer's fetch succeeds, [Get] returns the bytes fetched, as they
    are, and the group is the one before the call: nothing is added to
    the shard or promoted in it.  The shard was read, the peer picked
    and asked, and the load callback was not called. *)
Theorem Get_from_peer (fuel : nat) (g : Group X) (key : string) (w : World X)
    (picker : PeerPicker X) (peer : PeerGetter X) (e1 e2 : Env X)
    (data : bytes) :
  Group_ok g -> key ≠ "" -> shard_has (mainCache g) key = false ->
  peers g = Some picker ->
  picker key (env w) = (Some peer, e1) ->
  peer (name g) key e1 = ((data, None), e2) ->
  Get fuel g key w
  = Some (({| b := data |}, None), g,
          {| env := e2;
             calls := calls w ++ [CallShardGet key; CallPickPeer key;
                                  CallPeerGet (name g) key] |}).
Proof.
  intros [_ Hidle] Hkey Hmiss Hp Hpick Hpeer.
  unfold Get. rewrite bool_decide_eq_false_2 by done.
  rewrite get_miss by done. rewrite with_mainCache_same.
  unfold load, singleflight.Do.
  rewrite bool_decide_eq_false_2 by (rewrite Hidle; set_solver).
  unfold load_producer. simpl. rewrite Hp, Hpick. simpl.
  unfold getFromPeer. simpl. rewrite Hpeer. simpl.
  rewrite loader_restored by done. rewrite with_loader_same.
  unfold with_env, called. simpl. by rewrite <- !app_assoc.
Qed.

(** C4, as amended.  For every group whose byte budget is not negative
    and every key that is not empty and not in the shard: when no pool
    is attached, or the pool picks no peer, or the picked peer's fetch
    returns an error, [Get] returns, given fuel above the number of
    entries of the shard, and has called the load callback exactly once.
    An error of the callback is the error of [Get], with the group
    unchanged.  On success the bytes are copied to an array that was not
    allocated before, the view on the copy is added to the shard by
    [add], which then holds it in front of the entries it had, less
    what was evicted from the back, and the view is the value
    returned. *)
Theorem Get_loads_locally (fuel : nat) (g : Group X) (key : string)
    (w w1 : World X) (data : bytes) (err : option error) (e3 : Env X) :
  Group_ok g -> 0 <= cacheBytes (mainCache g) ->
  (shard_len (mainCache g) < fuel)%nat ->
  key ≠ "" -> shard_has (mainCache g) key = false ->
  falls_back g key (called (CallShardGet key) w) w1 ->
  getter g key (env w1) = ((data, err), e3) ->
  ∃ r g' w',
    Get fuel g key w = Some (r, g', w') ∧
    getter_calls (calls w') = S (getter_calls (calls w)) ∧
    Group_ok g' ∧
    match err with
    | Some msg =>
        r = (ByteView_zero, Some msg) ∧ g' = g ∧
        w' = with_env e3 (called (CallGetter key) w1)
    | None =>
        ∃ a h shard,
          cloneBytes data (heap e3) = (Slice a 0 (bytes_len data), h) ∧
          (a ∉ dom (heap e3)) ∧
          (∀ l, l ≠ a -> h !! l = heap e3 !! l) ∧
          (valid (heap e3) data ->
           contents h (Slice a 0 (bytes_len data))
           = contents (heap e3) data) ∧
          r = ({| b := Slice a 0 (bytes_len data) |}, None) ∧
          add fuel (mainCache g) key {| b := Slice a 0 (bytes_len data) |}
          = Some shard ∧
          (∃ gone,
             lru.Entry key {| b := Slice a 0 (bytes_len data) |}
               :: shard_entries (mainCache g)
             = shard_entries shard ++ gone) ∧
          g' = with_mainCache shard g ∧
          w' = called (CallShardAdd key)
                 (with_env (with_heap h e3) (called (CallGetter key) w1))
    end.
Proof.
  intros [Hshard Hidle] Hcb Hfuel Hkey Hmiss Hfb Hget.
  rewrite (Get_falls_back fuel g key w w1 data err e3) by done.
  pose proof (falls_back_getter_calls _ _ _ _ Hfb) as Hcalls.
  simpl in Hcalls. rewrite getter_calls_app in Hcalls. simpl in Hcalls.
  destruct err as [msg|].
  - eexists _, _, _. split; [done|]. simpl.
    rewrite getter_calls_app. simpl. split; [lia|]. by split.
  - destruct (cloneBytes_spec data (heap e3)) as (a & h & Hcl & Ha & Hh & Hc).
    rewrite Hcl.
    destruct (add_returns fuel (mainCache g) key
                {| b := Slice a 0 (bytes_len data) |} Hshard Hcb Hfuel)
      as (shard & Hadd & Hok & _).
    rewrite Hadd. eexists _, _, _. split; [done|]. simpl.
    rewrite !getter_calls_app. simpl. split; [lia|]. split; [by split|].
    exists a, h, shard. split_and!; try done.
    by eapply add_entries.
Qed.

End group_claims.

(** ** The pool: peer selection *)

Section pool_claims.
Context {X : Type}.
Import geecache.

(** The clients that [Set] creates, one for each address. *)
Lemma getters_lookup (bp : string) (peers : list string)
    (init : gmap string httpGetter) (x : string) :
  foldl (λ getters peer, <[peer := {| baseURL := peer +:+ bp |}]> getters)
        init peers !! x
  = if decide (x ∈ peers) then Some {| baseURL := x +:+ bp |}
    else init !! x.
Proof.
  revert init. induction peers as [|p peers IH]; intros init; cbn [foldl].
  - case_decide as Hin; [|done]. by apply elem_of_nil in Hin.
  - rewrite IH. case_decide as H1; case_decide as H2; try done.
    + exfalso. apply H2. set_solver.
    + apply elem_of_cons in H2 as [->|H2]; [|done].
      by rewrite lookup_insert_eq.
    + rewrite lookup_insert_ne; [done|]. intros <-.
      apply H2. set_solver.
Qed.

(** The ring that [Set] builds is the ring of one batch of peers. *)
Lemma Set_ring (p : HTTPPool) (peers : list string) :
  pool_peers (HTTPPool_Set p peers)
  = Some (ring defaultReplicas None [peers]).
Proof. reflexivity. Qed.

Lemma Set_getters (p : HTTPPool) (peers : list string) (x : string) :
  x ∈ peers ->
  httpGetters (HTTPPool_Set p peers) !! x
  = Some {| baseURL := x +:+ basePath p |}.
Proof.
  intros Hin. unfold HTTPPool_Set. cbn [httpGetters].
  rewrite getters_lookup. by rewrite decide_True.
Qed.

(** C8, as amended.  For every pool whose membership has been set by
    [Set], and every key: when the ring's owner for the key is an
    address that is not empty and differs from the pool's own,
    [PickPeer] returns the client bound to that address, and true (and
    logs the pick); otherwise, which covers an empty membership and the
    pool's own address, it returns the nil client and false. *)
Theorem PickPeer_after_Set (p : HTTPPool) (peers : list string)
    (key : string) (e : Env X) :
  let p' := HTTPPool_Set p peers in
  let owner := consistenthash.Get (ring defaultReplicas None [peers]) key in
  pool_peers p' = Some (ring defaultReplicas None [peers]) ∧
  (peers = [] -> owner = "") ∧
  (owner ≠ "" -> owner ∈ peers) ∧
  PickPeer p' key e
  = if bool_decide (owner ≠ "" ∧ owner ≠ self p) then
      Returns ((Some {| baseURL := owner +:+ basePath p |}, true),
               HTTPPool_Log p' ("Pick peer " +:+ owner) e)
    else Returns ((None, false), e).
Proof.
  intros p' owner.
  destruct (ring_Get_cases defaultReplicas None [peers] key)
    as [Hempty Hfull].
  assert (Hin : owner ≠ "" -> owner ∈ peers).
  { intros Hne.
    destruct (decide (consistenthash.keys
                        (ring defaultReplicas None [peers]) = []))
      as [Hk|Hk].
    - by apply Hempty in Hk.
    - destruct (Hfull Hk) as (k & q & i & _ & _ & Hq & Hmem & _).
      simpl in Hmem. rewrite app_nil_r in Hmem. unfold owner. by rewrite Hq. }
  split; [done|]. split; [|split; [done|]].
  - intros ->. by apply Hempty.
  - unfold PickPeer, p'. rewrite Set_ring. fold owner.
    change (self (HTTPPool_Set p peers)) with (self p).
    case_bool_decide as Hown; [|done].
    destruct Hown as [Hne Hself]. by rewrite Set_getters by auto.
Qed.

End pool_claims.

(** C8, the counterexample to the claim as stated: on a pool that
    [NewHTTPPool] has made and [Set] has not touched, the ring is the nil
    pointer and [PickPeer] panics. *)
Lemma PickPeer_unset_counterexample :
  geecache.PickPeer (X := unit)
    (geecache.NewHTTPPool "http://localhost:8001") "Tom"
    {| geecache.heap := ∅; geecache.output := []; geecache.ext := tt |}
  = geecache.Panics "invalid memory address or nil pointer dereference".
Proof. reflexivity. Qed.

(** ** The peer protocol: the path of a request *)

Section request_path.
Import geecache.

(** What decoding the path makes of an escaped string: the string
    itself, but for its spaces, which come back as [+]. *)
Definition plus_char (c : ascii) : ascii :=
  if bool_decide (c = " "%char) then "+"%char else c.

Fixpoint plus_for_space (s : string) : string :=
  match s with
  | "" => ""
  | String c s' => String (plus_char c) (plus_for_space s')
  end.

(** The escape of one byte. *)
Definition escape_char (c : ascii) : string :=
  if bool_decide (c = " "%char) then "+"
  else if shouldEscape_query c then
    String "%" (String (upperhex (N_of_ascii c / 16))
                  (String (upperhex (N_of_ascii c mod 16)) ""))
  else String c "".

Lemma append_cons c s t : String c s +:+ t = String c (s +:+ t).
Proof. reflexivity. Qed.

Lemma append_nil t : "" +:+ t = t.
Proof. reflexivity. Qed.

Lemma append_assoc (s t u : string) : (s +:+ t) +:+ u = s +:+ (t +:+ u).
Proof.
  induction s as [|c s IH]; [done|]. by rewrite !append_cons, IH.
Qed.

Lemma length_append (s t : string) :
  String.length (s +:+ t) = (String.length s + String.length t)%nat.
Proof.
  induction s as [|c s IH]; [done|]. rewrite append_cons. simpl.
  by rewrite IH.
Qed.

Lemma length_plus_for_space s :
  String.length (plus_for_space s) = String.length s.
Proof. induction s as [|c s IH]; [done|]. simpl. by rewrite IH. Qed.

Lemma QueryEscape_cons c s :
  QueryEscape (String c s) = escape_char c +:+ QueryEscape s.
Proof.
  unfold escape_char. simpl. case_bool_decide; [done|].
  by destruct (shouldEscape_query c).
Qed.

Lemma unescape_escape_char c t :
  unescape_path (escape_char c +:+ t) = String (plus_char c) <$> unescape_path t.
Proof.
  destruct c as [b0 b1 b2 b3 b4 b5 b6 b7].
  destruct b0, b1, b2, b3, b4, b5, b6, b7; reflexivity.
Qed.

Lemma unescape_QueryEscape s t :
  unescape_path (QueryEscape s +:+ t)
  = String.append (plus_for_space s) <$> unescape_path t.
Proof.
  induction s as [|c s IH].
  - simpl. rewrite append_nil. by destruct (unescape_path t).
  - rewrite QueryEscape_cons, append_assoc, unescape_escape_char, IH.
    by destruct (unescape_path t).
Qed.

Lemma unescape_QueryEscape_nil s :
  unescape_path (QueryEscape s) = Some (plus_for_space s).
Proof.
  induction s as [|c s IH]; [done|].
  by rewrite QueryEscape_cons, unescape_escape_char, IH.
Qed.

(** The path that the server sees for the client's request. *)
Lemma URL_Path_request (p : HTTPPool) group key :
  basePath p = defaultBasePath ->
  URL_Path (request_target p group key)
  = Some (defaultBasePath +:+ plus_for_space group +:+ plus_for_space key).
Proof.
  intros Hbp. unfold URL_Path, request_target. rewrite Hbp.
  assert (Hpre : ∀ t, unescape_path (defaultBasePath +:+ t)
                      = String.append defaultBasePath <$> unescape_path t).
  { intros t. unfold defaultBasePath. rewrite !append_cons, append_nil.
    cbn [unescape_path]. simpl. by destruct (unescape_path t). }
  by rewrite Hpre, unescape_QueryEscape, unescape_QueryEscape_nil.
Qed.

Lemma length_string_take m s :
  (m <= String.length s)%nat -> String.length (string_take m s) = m.
Proof.
  revert s. induction m as [|m IH]; intros [|c s] Hm; simpl in *;
    try done; try lia.
  rewrite IH; lia.
Qed.

Lemma length_string_drop m s :
  String.length (string_drop m s) = (String.length s - m)%nat.
Proof.
  revert s. induction m as [|m IH]; intros [|c s]; simpl; done.
Qed.

Lemma Index_lt s c m :
  Index s (String c "") = Some m -> (m < String.length s)%nat.
Proof.
  revert m. induction s as [|a s IH]; intros m.
  - done.
  - cbn [Index].
    destruct (String.prefix (String c "") (String a s)).
    + intros [= <-]. simpl. lia.
    + destruct (Index s (String c "")) as [m'|]; [|done].
      intros [= <-]. specialize (IH m' eq_refl). simpl. lia.
Qed.

Lemma HasPrefix_append (pre s : string) : HasPrefix (pre +:+ s) pre = true.
Proof.
  unfold HasPrefix. induction pre as [|c pre IH].
  - by destruct s.
  - rewrite append_cons. simpl. by destruct (Ascii.ascii_dec c c).
Qed.

Lemma string_drop_append (pre s : string) :
  string_drop (String.length pre) (pre +:+ s) = s.
Proof. induction pre as [|c pre IH]; [done|]. by rewrite append_cons. Qed.

(** Cutting once at a one-byte separator loses exactly that byte. *)
Lemma SplitN_2_length s c a b :
  SplitN s (String c "") 2 = [a; b] ->
  String.length s = (String.length a + 1 + String.length b)%nat.
Proof.
  unfold SplitN. destruct s as [|c0 s]; [done|].
  assert (Nat.min 2 (String.length (String c0 s) + 1) = 2)%nat as ->
    by (cbn [String.length]; lia).
  cbn [SplitN_cuts Nat.sub].
  destruct (Index (String c0 s) (String c "")) as [m|] eqn:Hi; [|done].
  intros [= <- <-]. apply Index_lt in Hi.
  rewrite length_string_take, length_string_drop by lia.
  cbn [String.length] in *. lia.
Qed.

End request_path.

(** C1 (the code departs from the claim).  The client writes the escaped
    namespace and the escaped key one after the other, with nothing in
    between, so the two segments that the server cuts after the prefix
    are never the pair the client meant: for every pool, namespace and
    key, the path the server sees has the prefix, and cutting the rest
    at the first [/] does not give [namespace; key].  In particular the
    request for namespace "scores" and key "Tom" has the path
    [/_geecache/scoresTom], which the handler answers with status 400,
    "bad request", whatever the registry holds. *)
Theorem peer_request_does_not_parse_back :
  (∀ (self : string) (peers : list string) (group key : string),
     let p := geecache.HTTPPool_Set (geecache.NewHTTPPool self) peers in
     ∃ path,
       geecache.URL_Path (geecache.request_target p group key) = Some path ∧
       HasPrefix path (geecache.basePath p) = true ∧
       SplitN (string_drop (String.length (geecache.basePath p)) path) "/" 2
       ≠ [group; key])
  ∧
  (let p := geecache.NewHTTPPool "http://localhost:8001" in
   geecache.request_url
     {| geecache.baseURL := "http://localhost:8001" +:+ geecache.basePath p |}
     "scores" "Tom"
   = "http://localhost:8001/_geecache/scoresTom" ∧
   geecache.URL_Path (geecache.request_target p "scores" "Tom")
   = Some "/_geecache/scoresTom" ∧
   ∀ (X : Type) (fuel : nat) (groups : geecache.Registry X)
     (w : geecache.World X),
     geecache.ServeHTTP fuel p groups "GET" "/_geecache/scoresTom" w
     = geecache.Returns
         (geecache.http_Error "bad request" 400, groups,
          geecache.with_env
            (geecache.HTTPPool_Log p "GET /_geecache/scoresTom"
               (geecache.env w)) w)).
Proof.
  split.
  - intros self peers group key p.
    exists (geecache.defaultBasePath
              +:+ plus_for_space group +:+ plus_for_space key).
    split; [by apply URL_Path_request|].
    change (geecache.basePath p) with geecache.defaultBasePath.
    split; [apply HasPrefix_append|].
    rewrite string_drop_append. intros Hsplit. apply SplitN_2_length in Hsplit.
    rewrite length_append, !length_plus_for_space in Hsplit. lia.
  - split; [reflexivity|]. split; [reflexivity|]. reflexivity.
Qed.

(** ** The group: the claims on a concrete group *)

(** A group as [main] creates it: the namespace "scores" over a data
    source that answers every key with the three bytes of "630", held
    in the array at address 0. *)
Definition db_getter : geecache.Getter unit :=
  λ key e, ((geecache.Slice 0 0 3, None), e).

Definition scores (cacheBytes : Z) : geecache.Group unit :=
  {| geecache.name := "scores"; geecache.getter := db_getter;
     geecache.mainCache :=
       {| geecache.lru := None; geecache.cacheBytes := cacheBytes |};
     geecache.peers := None;
     geecache.loader := {| singleflight.m := ∅ |} |}.

Definition world0 : geecache.World unit :=
  {| geecache.env :=
       {| geecache.heap := {[ 0%nat := ["6"; "3"; "0"]%char ]};
          geecache.output := []; geecache.ext := tt |};
     geecache.calls := [] |}.

(** A peer that answers with the same bytes, and a pool that always
    picks it. *)
Definition peer0 : geecache.PeerGetter unit :=
  λ group key e, ((geecache.Slice 0 0 3, None), e).

Definition picker0 : geecache.PeerPicker unit :=
  λ key e, (Some peer0, e).

Definition scores_pooled : geecache.Group unit :=
  {| geecache.name := "scores"; geecache.getter := db_getter;
     geecache.mainCache :=
       {| geecache.lru := None; geecache.cacheBytes := 2048 |};
     geecache.peers := Some picker0;
     geecache.loader := {| singleflight.m := ∅ |} |}.

Definition never_returns {A : Type} (f : nat -> option A) : Prop :=
  ∀ fuel, f fuel = None.

Lemma scores_is_NewGroup cacheBytes :
  geecache.NewGroup ∅ "scores" cacheBytes (Some db_getter)
  = geecache.Returns (scores cacheBytes, {[ "scores" := scores cacheBytes ]}).
Proof. reflexivity. Qed.

Lemma scores_pooled_is_RegisterPeers :
  geecache.RegisterPeers (scores 2048) picker0
  = geecache.Returns scores_pooled.
Proof. reflexivity. Qed.

(** C4, a witness: the first [Get] of "Tom" on the new group, without a
    pool. *)
Lemma Get_loads_locally_witness :
  ∃ r g' w',
    geecache.Get 1 (scores 2048) "Tom" world0 = Some (r, g', w') ∧
    getter_calls (geecache.calls w') = 1%nat ∧
    Group_ok g'.
Proof.
  destruct (Get_loads_locally 1 (scores 2048) "Tom" world0
              (geecache.called (geecache.CallShardGet "Tom") world0)
              (geecache.Slice 0 0 3) None (geecache.env world0))
    as (r & g' & w' & HG & Hcalls & Hok & _).
  - by split.
  - simpl. lia.
  - unfold shard_len. simpl. lia.
  - done.
  - reflexivity.
  - by apply no_pool.
  - reflexivity.
  - by exists r, g', w'.
Defined.

(** C4, the counterexample to the claim as stated: on the group that
    [NewGroup] makes with a byte budget of [-1], [Get] of a key that the
    load callback resolves never returns, whatever the fuel. *)
Lemma negative_budget_counterexample :
  geecache.NewGroup ∅ "scores" (-1) (Some db_getter)
  = geecache.Returns (scores (-1), {[ "scores" := scores (-1) ]}) ∧
  shard_has (geecache.mainCache (scores (-1))) "Tom" = false ∧
  geecache.peers (scores (-1)) = None ∧
  db_getter "Tom" (geecache.env world0)
  = ((geecache.Slice 0 0 3, None), geecache.env world0) ∧
  never_returns (λ fuel, geecache.Get fuel (scores (-1)) "Tom" world0).
Proof.
  split; [reflexivity|]. split; [reflexivity|]. split; [reflexivity|].
  split; [reflexivity|]. intros fuel.
  rewrite (Get_falls_back fuel (scores (-1)) "Tom" world0
             (geecache.called (geecache.CallShardGet "Tom") world0)
             (geecache.Slice 0 0 3) None (geecache.env world0));
    [|done|done|reflexivity|by apply no_pool|reflexivity].
  destruct (cloneBytes_spec (geecache.Slice 0 0 3)
              (geecache.heap (geecache.env world0)))
    as (a & h & -> & _).
  unfold geecache.add. simpl.
  rewrite Add_spins; [done|lia|].
  rewrite max_int64_eq. vm_compute. split; discriminate.
Qed.

(** C6, a witness: [Get] of "Tom" on the group with a pool that picks a
    peer whose fetch succeeds. *)
Lemma Get_from_peer_witness :
  geecache.Get 1 scores_pooled "Tom" world0
  = Some (({| geecache.b := geecache.Slice 0 0 3 |}, None), scores_pooled,
          {| geecache.env := geecache.env world0;
             geecache.calls :=
               geecache.calls world0
                 ++ [geecache.CallShardGet "Tom"; geecache.CallPickPeer "Tom";
                     geecache.CallPeerGet (geecache.name scores_pooled)
                       "Tom"] |}).
Proof.
  apply (Get_from_peer 1 scores_pooled "Tom" world0 picker0 peer0
           (geecache.env world0) (geecache.env world0)
           (geecache.Slice 0 0 3)).
  - by split.
  - done.
  - reflexivity.
  - reflexivity.
  - reflexivity.
  - reflexivity.
Defined.

(** * Further properties of the code *)

(** ** The eviction cache as a map from keys to values *)

Section lru_lookup.
Context {V : Type} `{!lru.Value V}.
Import lru.

Lemma wf_run fuel ops (c c' : Cache V) :
  wf c -> run fuel ops c = Some c' -> wf c'.
Proof.
  revert c. induction ops as [|o ops IH]; intros c Hwf; simpl.
  - by intros [= <-].
  - destruct (step fuel c o) as [c1|] eqn:Hst; [|done].
    apply IH. by eapply wf_step.
Qed.

Lemma tallied_step fuel (c c' : Cache V) o :
  wf c -> tallied c -> step fuel c o = Some c' ->
  tallied c' ∧ maxBytes c' = maxBytes c.
Proof.
  intros Hwf Ht. destruct o as [k v|k|]; simpl.
  - intros Hev. unfold Add in Hev.
    destruct (tallied_evict fuel (store c k v) c') as [Ht' HM]; try done.
    + by apply wf_store.
    + by apply tallied_store.
    + by rewrite HM, maxBytes_store.
  - intros [= <-]. split; [by apply tallied_Get|].
    by destruct (Get_keeps c k) as (-> & _).
  - intros [= <-]. split; [by apply tallied_RemoveOldest|].
    apply maxBytes_RemoveOldest.
Qed.

(** What holds of every cache that a run of operations reaches from a
    new one. *)
Lemma reached fuel ops M onEvicted (c : Cache V) :
  run fuel ops (New M onEvicted) = Some c ->
  wf c ∧ tallied c ∧ maxBytes c = M.
Proof.
  assert (Hgen : ∀ c0 : Cache V, wf c0 -> tallied c0 ->
            run fuel ops c0 = Some c ->
            wf c ∧ tallied c ∧ maxBytes c = maxBytes c0).
  { induction ops as [|o ops IH]; intros c0 Hwf Ht; simpl.
    - by intros [= <-].
    - destruct (step fuel c0 o) as [c1|] eqn:Hst; [|done]. intros Hrun.
      destruct (tallied_step _ _ _ _ Hwf Ht Hst) as [Ht1 HM1].
      rewrite <- HM1. apply IH; [by eapply wf_step|done..]. }
  intros Hrun.
  apply (Hgen (New M onEvicted) (wf_New _ _) (tallied_New _ _) Hrun).
Qed.

(** A lookup finds exactly the entries of the list. *)
Lemma Get_Some_iff (c : Cache V) k v :
  wf c -> (Get c k).2 = Some v <-> Entry k v ∈ entries c.
Proof.
  intros Hwf. unfold Get. destruct (cache c !! k) as [ele|] eqn:Hc; simpl.
  - pose proof (proj1 (wf_cache c Hwf k ele) Hc) as [Hin [v0 Hv0]].
    rewrite Hv0. simpl. rewrite elem_of_entries. split.
    + intros [= <-]. by exists ele.
    + intros (ele' & Hin' & He').
      assert (cache c !! k = Some ele') as Hc'.
      { apply (wf_cache c Hwf). split; [done|by exists v]. }
      rewrite Hc in Hc'. injection Hc' as <-. congruence.
  - split; [done|]. intros Hin.
    pose proof (entries_miss c k Hwf Hc) as Hf.
    rewrite Forall_forall in Hf. by destruct (Hf _ Hin).
Qed.

Lemma Get_None_iff (c : Cache V) k :
  wf c -> (Get c k).2 = None <-> k ∉ key <$> entries c.
Proof.
  intros Hwf. split.
  - intros HN [[k' v] [Hk Hin]]%list_elem_of_fmap. simpl in Hk. subst k'.
    apply (Get_Some_iff c k v Hwf) in Hin. congruence.
  - intros Hnot. destruct (Get c k).2 as [v|] eqn:HG; [|done].
    exfalso. apply Hnot. apply (Get_Some_iff c k v Hwf) in HG.
    apply list_elem_of_fmap. by exists (Entry k v).
Qed.

Lemma keys_NoDup (c : Cache V) : wf c -> NoDup (key <$> entries c).
Proof.
  intros Hwf. unfold entries.
  assert (Hgen : ∀ l, NoDup l -> l ⊆ ll c ->
            NoDup (key <$> omap (λ ele, elems c !! ele) l)).
  { induction l as [|e l IH]; intros Hnd Hsub; simpl; [constructor|].
    apply NoDup_cons in Hnd as [Hne Hnd].
    assert (l ⊆ ll c) as Hsub' by set_solver.
    destruct (elems c !! e) as [kv|] eqn:He; [|by apply IH].
    simpl. apply NoDup_cons. split; [|by apply IH].
    intros [kv' [Hk Hin]]%list_elem_of_fmap.
    apply list_elem_of_omap in Hin as (e' & Hin' & He').
    assert (cache c !! key kv = Some e) as H1.
    { apply (wf_cache c Hwf). split; [set_solver|].
      exists (value kv). by destruct kv. }
    assert (cache c !! key kv = Some e') as H2.
    { apply (wf_cache c Hwf). split; [set_solver|].
      exists (value kv'). rewrite Hk. by destruct kv'. }
    rewrite H1 in H2. injection H2 as ->. done. }
  apply Hgen; [apply Hwf|done].
Qed.

Lemma size_cache (c : Cache V) : wf c -> size (cache c) = length (ll c).
Proof.
  intros Hwf. rewrite <- length_map_to_list.
  rewrite <- (length_fmap snd).
  apply Permutation_length, NoDup_Permutation.
  - apply NoDup_fmap_2_strong; [|apply NoDup_map_to_list].
    intros [k1 e1] [k2 e2] H1%elem_of_map_to_list H2%elem_of_map_to_list.
    simpl. intros <-.
    apply (wf_cache c Hwf) in H1 as [_ [v1 H1]].
    apply (wf_cache c Hwf) in H2 as [_ [v2 H2]].
    rewrite H1 in H2. by injection H2 as -> _.
  - apply Hwf.
  - intros ele. rewrite list_elem_of_fmap. split.
    + intros [[k e] [-> Hin%elem_of_map_to_list]]. simpl.
      by apply (wf_cache c Hwf) in Hin as [Hin _].
    + intros Hin. destruct (wf_elems c Hwf ele Hin) as [[k v] Hkv].
      exists (k, ele). split; [done|]. apply elem_of_map_to_list.
      apply (wf_cache c Hwf). split; [done|by exists v].
Qed.

(** X1.  On every cache that a run of [Add], [Get] and [RemoveOldest]
    reaches from a new one, the map and the list agree: no two entries
    have the same key, [Len] is the number of entries and the number of
    keys of the map, [Get] finds a value for a key exactly when the list
    holds an entry with that key and that value, and it misses exactly
    when no entry has the key. *)
Theorem Get_finds_the_entries (M : Z) (onEvicted : bool) (fuel : nat)
    (ops : list (op V)) (c : Cache V) :
  run fuel ops (New M onEvicted) = Some c ->
  NoDup (key <$> entries c) ∧
  Cache_Len c = Z.of_nat (length (entries c)) ∧
  Cache_Len c = Z.of_nat (size (cache c)) ∧
  (∀ k v, (Get c k).2 = Some v <-> Entry k v ∈ entries c) ∧
  (∀ k, (Get c k).2 = None <-> k ∉ key <$> entries c).
Proof.
  intros (Hwf & _)%reached. split_and!.
  - by apply keys_NoDup.
  - unfold Cache_Len. by rewrite entries_length.
  - unfold Cache_Len. by rewrite size_cache.
  - intros k v. by apply Get_Some_iff.
  - intros k. by apply Get_None_iff.
Qed.

Lemma filter_all {A} (P : A -> Prop) `{!∀ x, Decision (P x)} (l : list A) :
  Forall P l -> filter P l = l.
Proof.
  induction 1 as [|x l Hx _ IH]; [done|].
  by rewrite filter_cons_True, IH.
Qed.

(** The entries after the first half of [Add]. *)
Lemma entries_store (c : Cache V) k v :
  wf c ->
  entries (store c k v) = Entry k v :: filter (λ kv, key kv ≠ k) (entries c).
Proof.
  intros Hwf. destruct (cache c !! k) as [ele|] eqn:Hc.
  - destruct (entries_hit c k ele Hwf Hc)
      as (v0 & l1 & l2 & Hv0 & Hll & Hn1 & Hn2 & Hen & Hf).
    rewrite (entries_store_hit c k v ele v0 l1 l2 Hc Hv0 Hll Hn1 Hn2).
    f_equal. rewrite Hen. apply Forall_app in Hf as [Hf1 Hf2].
    rewrite filter_app, filter_cons_False by (simpl; tauto).
    by rewrite !filter_all.
  - rewrite (entries_store_miss c k v Hwf Hc). f_equal.
    symmetry. apply filter_all. by apply entries_miss.
Qed.

(** The entries after a lookup that hits. *)
Lemma entries_Get (c : Cache V) k v :
  wf c -> Entry k v ∈ entries c ->
  entries (Get c k).1 = Entry k v :: filter (λ kv, key kv ≠ k) (entries c).
Proof.
  intros Hwf Hin. apply (Get_Some_iff c k v Hwf) in Hin.
  destruct (cache c !! k) as [ele|] eqn:Hc.
  - destruct (entries_hit c k ele Hwf Hc)
      as (v0 & l1 & l2 & Hv0 & Hll & Hn1 & Hn2 & Hen & Hf).
    rewrite (entries_Get_hit c k ele v0 l1 l2 Hc Hv0 Hll Hn1).
    unfold Get in Hin. rewrite Hc, Hv0 in Hin. simpl in Hin.
    injection Hin as ->. f_equal. rewrite Hen.
    apply Forall_app in Hf as [Hf1 Hf2].
    rewrite filter_app, filter_cons_False by (simpl; tauto).
    by rewrite !filter_all.
  - unfold Get in Hin. by rewrite Hc in Hin.
Qed.

Lemma Get_store (c : Cache V) k v k' :
  wf c ->
  (Get (store c k v) k').2 = if decide (k' = k) then Some v else (Get c k').2.
Proof.
  intros Hwf. pose proof (wf_store c k v Hwf) as Hwf'.
  apply option_eq. intros v'. rewrite (Get_Some_iff _ _ _ Hwf').
  rewrite entries_store by done. case_decide as Hk.
  - subst k'. rewrite elem_of_cons, list_elem_of_filter. simpl. split.
    + intros [[= <-]|[? _]]; done.
    + intros [= <-]. by left.
  - rewrite (Get_Some_iff _ _ _ Hwf).
    rewrite elem_of_cons, list_elem_of_filter. simpl. split.
    + intros [[= ? _]|[_ ?]]; done.
    + intros ?. right. done.
Qed.

Lemma Get_Get (c : Cache V) k k' :
  wf c -> (Get (Get c k).1 k').2 = (Get c k').2.
Proof.
  intros Hwf. apply option_eq. intros v'.
  rewrite (Get_Some_iff _ _ _ (wf_Get c k Hwf)), (Get_Some_iff _ _ _ Hwf).
  destruct (Get_keeps c k) as (_ & _ & _ & Hp & _). by rewrite Hp.
Qed.

Lemma evicted_store (c : Cache V) k v :
  evicted (store c k v) = evicted c ∧ OnEvicted (store c k v) = OnEvicted c.
Proof.
  unfold store. destruct (cache c !! k) as [ele|]; [|done].
  by destruct (elems c !! ele).
Qed.

Lemma OnEvicted_RemoveOldest (c : Cache V) :
  OnEvicted (RemoveOldest c) = OnEvicted c.
Proof.
  unfold RemoveOldest. destruct (last (ll c)) as [ele|]; [|done].
  by destruct (elems c !! ele).
Qed.

Lemma entries_nil (c : Cache V) : wf c -> entries c = [] -> ll c = [].
Proof.
  intros Hwf He. apply nil_length_inv.
  by rewrite <- (entries_length c Hwf), He.
Qed.

(** The loop of [Add] removes entries from the back of the list and
    hands each of them to the callback, the oldest first. *)
Lemma evict_evicted fuel (c c' : Cache V) :
  wf c -> evict fuel c = Some c' ->
  ∃ gone, entries c = entries c' ++ gone ∧
          OnEvicted c' = OnEvicted c ∧
          evicted c' = (if OnEvicted c then evicted c ++ reverse gone
                        else evicted c) ∧
          Cache_Len c' = Cache_Len c - Z.of_nat (length gone).
Proof.
  revert c. induction fuel as [|fuel IH]; intros c Hwf; simpl.
  - case_bool_decide; [done|]. intros [= <-]. exists [].
    rewrite !app_nil_r. simpl. split_and!; try done; [|lia].
    by destruct (OnEvicted c).
  - case_bool_decide as Hover.
    + intros Hev.
      destruct (IH _ (wf_RemoveOldest c Hwf) Hev)
        as (gone & Hen & Hcb & Hevd & Hlen).
      destruct (decide (entries c = [])) as [He|He].
      { rewrite (RemoveOldest_empty c (entries_nil c Hwf He)) in *.
        by exists gone. }
      destruct (RemoveOldest_snoc c Hwf He) as (kv & Hsn & _ & _ & Hev1 & Hl).
      exists (gone ++ [kv]). rewrite OnEvicted_RemoveOldest in *.
      split_and!; try done.
      * by rewrite Hsn, Hen, app_assoc.
      * rewrite Hevd, Hev1. destruct (OnEvicted c); [|done].
        by rewrite reverse_app, <- app_assoc.
      * rewrite Hlen. unfold Cache_Len. rewrite Hl, length_app. simpl. lia.
    + intros [= <-]. exists []. rewrite !app_nil_r. simpl.
      split_and!; try done; [|lia]. by destruct (OnEvicted c).
Qed.

Lemma OnEvicted_run fuel ops (c c' : Cache V) :
  wf c -> run fuel ops c = Some c' -> OnEvicted c' = OnEvicted c.
Proof.
  revert c. induction ops as [|o ops IH]; intros c Hwf; simpl.
  - by intros [= <-].
  - destruct (step fuel c o) as [c1|] eqn:Hst; [|done]. intros Hrun.
    rewrite (IH c1 (wf_step _ _ _ _ Hwf Hst) Hrun).
    destruct o as [k v|k|]; simpl in Hst.
    + destruct (evict_evicted fuel _ _ (wf_store c k v Hwf) Hst)
        as (_ & _ & -> & _).
      apply evicted_store.
    + injection Hst as <-. unfold Get. by destruct (cache c !! k).
    + injection Hst as <-. apply OnEvicted_RemoveOldest.
Qed.

(** The loop leaves the front entry alone when that entry is within the
    budget by itself. *)
Lemma evict_keeps_front fuel (c c' : Cache V) k v rest :
  wf c -> tallied c -> entries c = Entry k v :: rest ->
  0 <= Len v ->
  maxBytes c = 0 ∨ len k + Len v <= maxBytes c <= max_int64 ->
  evict fuel c = Some c' ->
  ∃ rest', entries c' = Entry k v :: rest'.
Proof.
  intros Hwf Ht He Hv Hb. revert c rest Hwf Ht He Hb.
  induction fuel as [|fuel IH]; intros c rest Hwf Ht He Hb; simpl.
  - case_bool_decide; [done|]. intros [= <-]. eauto.
  - case_bool_decide as Hover; [|intros [= <-]; eauto].
    destruct Hover as [HM0 Hlt].
    assert (Hne : entries c ≠ []) by (by rewrite He).
    destruct (RemoveOldest_snoc c Hwf Hne) as (kv & Hsn & _ & HMx & _).
    destruct (entries (RemoveOldest c)) as [|x l] eqn:Hro.
    + exfalso. rewrite He in Hsn. simpl in Hsn. injection Hsn as <- ->.
      unfold tallied in Ht. rewrite He in Ht. simpl in Ht.
      destruct Hb as [|[Hle HM]]; [done|].
      pose proof (len_nonneg k). pose proof max_int64_eq.
      rewrite int64_id in Ht by lia. lia.
    + rewrite He in Hsn. simpl in Hsn. injection Hsn as <- Hrest.
      apply (IH (RemoveOldest c) l); try done.
      * by apply wf_RemoveOldest.
      * by apply tallied_RemoveOldest.
      * by rewrite HMx.
Qed.

(** [Add] returns and the key added is found, when the new entry is
    within the budget by itself. *)
Lemma Add_Get (fuel : nat) (c : Cache V) (k : string) (v : V) :
  wf c -> tallied c -> 0 <= Len v ->
  maxBytes c = 0 ∨ len k + Len v <= maxBytes c <= max_int64 ->
  (length (ll c) < fuel)%nat ->
  ∃ c', Add fuel c k v = Some c' ∧ wf c' ∧ tallied c' ∧
        maxBytes c' = maxBytes c ∧
        (Get c' k).2 = Some v ∧
        head (entries c') = Some (Entry k v).
Proof.
  intros Hwf Ht Hv Hb Hfuel.
  pose proof (wf_store c k v Hwf) as Hwf1.
  pose proof (tallied_store c k v Hwf Ht) as Ht1.
  pose proof (len_nonneg k) as Hk.
  destruct (evict_ends fuel (store c k v) Hwf1 Ht1)
    as (c' & Hev & Hwf' & Ht' & HM').
  { rewrite maxBytes_store. lia. }
  { pose proof (length_store c k v). lia. }
  destruct (evict_keeps_front fuel (store c k v) c' k v
              (filter (λ kv, key kv ≠ k) (entries c)))
    as [rest' He']; try done.
  { by apply entries_store. }
  { by rewrite maxBytes_store. }
  exists c'. split_and!; try done.
  - by rewrite HM', maxBytes_store.
  - apply Get_Some_iff; [done|]. rewrite He'. by left.
  - by rewrite He'.
Qed.

(** X2.  Insert, then look up.  On every cache reached from a new one,
    [Add] of an entry whose value length is not negative and which is
    within the budget by itself (any entry, when the budget is zero)
    returns, given fuel above the number of entries, and leaves the
    entry at the front of the list: the [Get] of its key that follows
    finds the value added. *)
Theorem Add_then_Get (M : Z) (onEvicted : bool) (fuel : nat)
    (ops : list (op V)) (c : Cache V) (fuel' : nat) (k : string) (v : V) :
  run fuel ops (New M onEvicted) = Some c ->
  0 <= Len v ->
  M = 0 ∨ len k + Len v <= M <= max_int64 ->
  Cache_Len c < Z.of_nat fuel' ->
  ∃ c', Add fuel' c k v = Some c' ∧
        (Get c' k).2 = Some v ∧
        head (entries c') = Some (Entry k v).
Proof.
  intros (Hwf & Ht & HM)%reached Hv Hb Hfuel.
  destruct (Add_Get fuel' c k v Hwf Ht Hv) as (c' & Hadd & _ & _ & _ & HG & Hh).
  { by rewrite HM. }
  { unfold Cache_Len in Hfuel. lia. }
  by exists c'.
Qed.

Lemma step_more_fuel fuel fuel' (c c' : Cache V) o :
  step fuel c o = Some c' -> (fuel <= fuel')%nat -> step fuel' c o = Some c'.
Proof.
  destruct o as [k v|k|]; simpl; try done.
  unfold Add. apply evict_more_fuel.
Qed.

Lemma run_more_fuel fuel fuel' ops (c c' : Cache V) :
  run fuel ops c = Some c' -> (fuel <= fuel')%nat -> run fuel' ops c = Some c'.
Proof.
  intros Hrun Hle. revert c Hrun.
  induction ops as [|o ops IH]; intros c; simpl; [done|].
  destruct (step fuel c o) as [c1|] eqn:Hst; [|done].
  rewrite (step_more_fuel _ _ _ _ _ Hst Hle). apply IH.
Qed.

(** What holds moreover when the budget is positive and the added
    entries fit. *)
Lemma reached_sized fuel ops M onEvicted (c : Cache V) :
  0 < M -> Forall (op_fits M) ops ->
  run fuel ops (New M onEvicted) = Some c ->
  wf c ∧ sized c ∧ maxBytes c = M ∧ nbytes c <= M.
Proof.
  intros HM Hfit Hrun.
  destruct (run_within_budget M ops (fuel `max` length ops)
              (New M onEvicted) HM (wf_New _ _) (sized_New _ _) eq_refl
              ltac:(simpl; lia) Hfit ltac:(simpl; lia))
    as (c' & Hrun' & Hwf & Hsz & Hmax & Hb & _).
  rewrite (run_more_fuel fuel _ ops _ c Hrun) in Hrun' by lia.
  by injection Hrun' as <-.
Qed.

Lemma total_size_prefix M (l gone : list (entry V)) :
  Forall (fits M) (l ++ gone) -> total_size l <= total_size (l ++ gone).
Proof.
  intros [_ Hg]%Forall_app. rewrite total_size_app.
  pose proof (total_size_nonneg _ _ Hg). lia.
Qed.

(** X3.  An entry larger than the whole budget is not kept, and it
    takes the other entries with it.  On a cache with a positive budget
    reached by fitting operations, [Add] of an entry whose key and value
    lengths exceed the budget returns, given fuel above the number of
    entries, on an empty cache: no entry, [Len] zero, the counter zero,
    every [Get] a miss.  The callback, when there is one, has been
    handed the entries of the other keys, least recently used first,
    and then the entry just added. *)
Theorem Add_oversized_empties (M : Z) (onEvicted : bool) (fuel : nat)
    (ops : list (op V)) (c : Cache V) (fuel' : nat) (k : string) (v : V) :
  0 < M -> Forall (op_fits M) ops ->
  run fuel ops (New M onEvicted) = Some c ->
  fits M (Entry k v) -> M < len k + Len v ->
  Cache_Len c < Z.of_nat fuel' ->
  ∃ c', Add fuel' c k v = Some c' ∧
        entries c' = [] ∧ Cache_Len c' = 0 ∧ nbytes c' = 0 ∧
        (∀ k', (Get c' k').2 = None) ∧
        evicted c'
        = if onEvicted
          then evicted c ++ reverse (filter (λ kv, key kv ≠ k) (entries c))
                 ++ [Entry k v]
          else evicted c.
Proof.
  intros HM Hfit Hrun Hkv Hbig Hfuel.
  destruct (reached_sized _ _ _ _ _ HM Hfit Hrun) as (Hwf & Hsz & Hmax & Hb).
  pose proof (wf_store c k v Hwf) as Hwf1.
  assert (Hsz1 : sized (store c k v)).
  { apply sized_store; try done; rewrite Hmax; done. }
  destruct (evict_restores fuel' (store c k v) Hwf1 Hsz1)
    as (c' & gone & Hev & Hwf' & Hsz' & Hmax' & Hb' & Hen & _).
  { by rewrite maxBytes_store, Hmax. }
  { pose proof (length_store c k v). unfold Cache_Len in Hfuel. lia. }
  rewrite maxBytes_store, Hmax in Hmax'.
  assert (He' : entries c' = []).
  { destruct (entries c') as [|kv l] eqn:He'; [done|]. exfalso.
    rewrite entries_store in Hen by done. simpl in Hen.
    injection Hen as <- _.
    pose proof (sized_fits c' Hsz') as Hf. rewrite He' in Hf.
    apply Forall_cons in Hf as [_ Hf].
    pose proof (total_size_nonneg _ _ Hf).
    rewrite (sized_nbytes c' Hsz'), He', Hmax' in Hb'. simpl in Hb'. lia. }
  exists c'. split_and!; try done.
  - unfold Cache_Len. by rewrite <- (entries_length c' Hwf'), He'.
  - by rewrite (sized_nbytes c' Hsz'), He'.
  - intros k'. apply Get_None_iff; [done|]. rewrite He'. set_solver.
  - destruct (evict_evicted fuel' (store c k v) c' Hwf1 Hev)
      as (gone' & Hen' & _ & Hevd & _).
    rewrite He' in Hen'. simpl in Hen'. subst gone'.
    destruct (evicted_store c k v) as [Hes Hcb]. rewrite Hes, Hcb in Hevd.
    rewrite (OnEvicted_run _ _ _ _ (wf_New _ _) Hrun) in Hevd. simpl in Hevd.
    rewrite Hevd. destruct onEvicted; [|done].
    rewrite entries_store by done. by rewrite reverse_cons.
Qed.

(** X4.  What [Add] evicts it reports.  On a cache with a budget that
    is not negative, [Add] returns, given fuel above the number of
    entries; the entries it leaves are the first ones of the list after
    the update (the new entry, then the entries of the other keys),
    those it drops are the last ones, and the calls to the callback
    grow by exactly the dropped entries, least recently used first.
    Without a callback nothing is recorded. *)
Theorem Add_reports_evictions (M : Z) (onEvicted : bool) (fuel : nat)
    (ops : list (op V)) (c : Cache V) (fuel' : nat) (k : string) (v : V) :
  run fuel ops (New M onEvicted) = Some c ->
  0 <= M -> Cache_Len c < Z.of_nat fuel' ->
  ∃ c' gone,
    Add fuel' c k v = Some c' ∧
    Entry k v :: filter (λ kv, key kv ≠ k) (entries c) = entries c' ++ gone ∧
    Cache_Len c' + Z.of_nat (length gone)
    = 1 + Z.of_nat (length (filter (λ kv, key kv ≠ k) (entries c))) ∧
    evicted c' = if onEvicted then evicted c ++ reverse gone else evicted c.
Proof.
  intros Hrun HM0 Hfuel.
  destruct (reached _ _ _ _ _ Hrun) as (Hwf & Ht & HM).
  pose proof (wf_store c k v Hwf) as Hwf1.
  destruct (evict_ends fuel' (store c k v) Hwf1 (tallied_store c k v Hwf Ht))
    as (c' & Hev & Hwf' & _).
  { rewrite maxBytes_store, HM. lia. }
  { pose proof (length_store c k v). unfold Cache_Len in Hfuel. lia. }
  destruct (evict_evicted fuel' (store c k v) c' Hwf1 Hev)
    as (gone & Hen & _ & Hevd & Hlen).
  destruct (evicted_store c k v) as [Hes Hcb]. rewrite Hes, Hcb in Hevd.
  rewrite (OnEvicted_run _ _ _ _ (wf_New _ _) Hrun) in Hevd. simpl in Hevd.
  rewrite entries_store in Hen by done.
  exists c', gone. split_and!; try done.
  rewrite Hlen. unfold Cache_Len.
  rewrite <- (entries_length _ Hwf1), entries_store by done. simpl. lia.
Qed.

(** The bindings that a run of operations has made: for every key, the
    value of the last [Add] of that key. *)
Definition bind (m : gmap string V) (o : op V) : gmap string V :=
  match o with OpAdd k v => <[k := v]> m | _ => m end.

Definition bindings (ops : list (op V)) : gmap string V := foldl bind ∅ ops.

Lemma current_step fuel (c c' : Cache V) o (m : gmap string V) :
  wf c ->
  (∀ kv, kv ∈ entries c -> m !! key kv = Some (value kv)) ->
  step fuel c o = Some c' ->
  ∀ kv, kv ∈ entries c' ->
    bind m o !! key kv = Some (value kv).
Proof.
  intros Hwf Hm. destruct o as [k v|k|]; simpl.
  - intros Hev kv Hin.
    destruct (evict_prefix fuel _ _ (wf_store c k v Hwf) Hev) as [gone Hen].
    assert (kv ∈ entries (store c k v)) as Hin'.
    { rewrite Hen. apply elem_of_app. by left. }
    rewrite entries_store in Hin' by done.
    apply elem_of_cons in Hin' as [->|[Hk Hin']%list_elem_of_filter].
    + simpl. by rewrite lookup_insert_eq.
    + rewrite lookup_insert_ne by done. by apply Hm.
  - intros [= <-] kv Hin. apply Hm.
    destruct (Get_keeps c k) as (_ & _ & _ & Hp & _). by rewrite <- Hp.
  - intros [= <-] kv Hin. apply Hm.
    destruct (decide (entries c = [])) as [He|He].
    { by rewrite (RemoveOldest_empty c (entries_nil c Hwf He)) in Hin. }
    destruct (RemoveOldest_snoc c Hwf He) as (kv' & -> & _).
    apply elem_of_app. by left.
Qed.

(** X5.  [Get] never returns a stale value: whatever run of
    operations led to the cache, a hit gives the value of the most
    recent [Add] of that key. *)
Theorem Get_is_never_stale (M : Z) (onEvicted : bool) (fuel : nat)
    (ops : list (op V)) (c : Cache V) (k : string) (v : V) :
  run fuel ops (New M onEvicted) = Some c ->
  (Get c k).2 = Some v ->
  bindings ops !! k = Some v.
Proof.
  intros Hrun HG.
  assert (Hgen : ∀ (c0 : Cache V) m, wf c0 ->
            (∀ kv, kv ∈ entries c0 -> m !! key kv = Some (value kv)) ->
            run fuel ops c0 = Some c ->
            wf c ∧
            ∀ kv, kv ∈ entries c ->
              foldl bind m ops !! key kv = Some (value kv)).
  { clear Hrun HG. induction ops as [|o ops IH]; intros c0 m Hwf Hm; simpl.
    - by intros [= <-].
    - destruct (step fuel c0 o) as [c1|] eqn:Hst; [|done].
      apply IH; [by eapply wf_step|]. by eapply current_step. }
  destruct (Hgen (New M onEvicted) ∅ (wf_New _ _)) as [Hwf Hall]; [|done|].
  { intros kv Hin. by apply elem_of_nil in Hin. }
  apply (Get_Some_iff c k v Hwf) in HG. apply (Hall _ HG).
Qed.

Lemma evict_unbounded fuel (c : Cache V) :
  maxBytes c = 0 -> evict fuel c = Some c.
Proof.
  intros HM. destruct fuel; simpl; rewrite bool_decide_eq_false_2; try done;
    by intros [? _].
Qed.

(** X6.  With a budget of zero nothing is ever evicted.  Every run of
    [Add] and [Get] on a new cache with budget zero ends whatever the
    fuel (the loop of [Add] makes no turn), the callback is never
    called, and [Get] finds for every key the value of the last [Add]
    of that key, or misses when the key was never added. *)
Theorem unbounded_cache_is_a_map (onEvicted : bool) (fuel : nat)
    (ops : list (op V)) :
  Forall (λ o, match o with OpRemoveOldest => False | _ => True end) ops ->
  ∃ c, run fuel ops (New 0 onEvicted) = Some c ∧
       evicted c = [] ∧
       ∀ k, (Get c k).2 = bindings ops !! k.
Proof.
  intros Hops.
  assert (Hgen : ∀ (c0 : Cache V) m, wf c0 -> maxBytes c0 = 0 ->
            evicted c0 = [] -> (∀ k, (Get c0 k).2 = m !! k) ->
            ∃ c, run fuel ops c0 = Some c ∧ evicted c = [] ∧
              ∀ k, (Get c k).2 = foldl bind m ops !! k).
  { induction Hops as [|o ops Ho _ IH]; intros c0 m Hwf HM Hev Hm; simpl.
    - by exists c0.
    - destruct o as [k v|k|]; simpl; [| |done].
      + unfold Add. rewrite evict_unbounded by by rewrite maxBytes_store.
        apply IH.
        * by apply wf_store.
        * by rewrite maxBytes_store.
        * by destruct (evicted_store c0 k v) as [-> _].
        * intros k'. rewrite Get_store by done. case_decide as Hk.
          -- subst k'. by rewrite lookup_insert_eq.
          -- rewrite lookup_insert_ne by done. apply Hm.
      + apply IH.
        * by apply wf_Get.
        * by destruct (Get_keeps c0 k) as (-> & _).
        * unfold Get. by destruct (cache c0 !! k).
        * intros k'. rewrite Get_Get by done. apply Hm. }
  apply (Hgen (New 0 onEvicted) ∅); try done; apply wf_New.
Qed.

(** X7.  [RemoveOldest] by itself.  On an empty cache it changes
    nothing.  Otherwise exactly the last entry of the list goes: [Len]
    drops by one, the counter by the size charged for the entry, its
    key is no longer found, every other key is found as before, and the
    callback, when there is one, is handed that entry. *)
Theorem RemoveOldest_removes_the_last (M : Z) (onEvicted : bool) (fuel : nat)
    (ops : list (op V)) (c : Cache V) :
  run fuel ops (New M onEvicted) = Some c ->
  match last (entries c) with
  | None => RemoveOldest c = c
  | Some kv =>
      entries c = entries (RemoveOldest c) ++ [kv] ∧
      Cache_Len (RemoveOldest c) = Cache_Len c - 1 ∧
      nbytes (RemoveOldest c) = sub64 (nbytes c) (charge kv) ∧
      (Get (RemoveOldest c) (key kv)).2 = None ∧
      (∀ k, k ≠ key kv -> (Get (RemoveOldest c) k).2 = (Get c k).2) ∧
      evicted (RemoveOldest c)
      = if onEvicted then evicted c ++ [kv] else evicted c
  end.
Proof.
  intros Hrun. destruct (reached _ _ _ _ _ Hrun) as (Hwf & _ & _).
  pose proof (OnEvicted_run _ _ _ _ (wf_New _ _) Hrun) as Hcb. simpl in Hcb.
  destruct (decide (entries c = [])) as [He|He].
  { rewrite He. simpl. apply RemoveOldest_empty. by apply entries_nil. }
  destruct (RemoveOldest_snoc c Hwf He) as (kv & Hsn & Hnb & _ & Hev & Hl).
  pose proof (wf_RemoveOldest c Hwf) as Hwf'.
  pose proof (keys_NoDup c Hwf) as Hnd.
  rewrite Hsn, fmap_app in Hnd. apply NoDup_app in Hnd as (_ & Hdis & _).
  assert (last (entries c) = Some kv) as ->.
  { rewrite Hsn. apply last_snoc. }
  rewrite Hcb in Hev.
  split_and!; try done.
  - unfold Cache_Len. rewrite Hl. lia.
  - apply Get_None_iff; [done|]. intros Hin. apply (Hdis _ Hin). by left.
  - intros k Hk. apply option_eq. intros v.
    rewrite (Get_Some_iff _ _ _ Hwf'), (Get_Some_iff _ _ _ Hwf), Hsn.
    rewrite elem_of_app, list_elem_of_singleton. split; [by left|].
    intros [?|Heq]; [done|]. by rewrite <- Heq in Hk.
Qed.

(** X8.  An [Add] that fits evicts nothing.  On a cache with a
    positive budget reached by fitting operations, when the new entry
    together with the entries of the other keys is within the budget,
    [Add] returns whatever the fuel; the new entry is at the front,
    followed by the entries of the other keys in the order they had (an
    entry of the same key is replaced, not duplicated), the counter is
    the sum of the sizes, the callback is not called, and [Len] grows by
    one exactly when the key was not in the cache. *)
Theorem Add_within_budget (M : Z) (onEvicted : bool) (fuel : nat)
    (ops : list (op V)) (c : Cache V) (fuel' : nat) (k : string) (v : V) :
  0 < M -> Forall (op_fits M) ops ->
  run fuel ops (New M onEvicted) = Some c ->
  fits M (Entry k v) ->
  total_size (Entry k v :: filter (λ kv, key kv ≠ k) (entries c)) <= M ->
  ∃ c', Add fuel' c k v = Some c' ∧
        entries c' = Entry k v :: filter (λ kv, key kv ≠ k) (entries c) ∧
        nbytes c' = total_size (entries c') ∧
        evicted c' = evicted c ∧
        Cache_Len c'
        = match (Get c k).2 with
          | Some _ => Cache_Len c
          | None => Cache_Len c + 1
          end.
Proof.
  intros HM Hfit Hrun Hkv Htot.
  destruct (reached_sized _ _ _ _ _ HM Hfit Hrun) as (Hwf & Hsz & Hmax & Hb).
  pose proof (wf_store c k v Hwf) as Hwf1.
  assert (Hsz1 : sized (store c k v)).
  { apply sized_store; try done; rewrite Hmax; done. }
  exists (store c k v). split_and!.
  - unfold Add. destruct fuel'; simpl; rewrite bool_decide_eq_false_2;
      try done; intros [_ Hlt];
      rewrite (sized_nbytes _ Hsz1), maxBytes_store, Hmax,
        (entries_store c k v Hwf) in Hlt; lia.
  - by apply entries_store.
  - apply Hsz1.
  - apply evicted_store.
  - unfold Cache_Len, store, Get.
    destruct (cache c !! k) as [ele|] eqn:Hc; simpl.
    + destruct (wf_hit c k ele Hwf Hc) as (v0 & l1 & l2 & Hv0 & _).
      rewrite Hv0. simpl. by rewrite MoveToFront_perm.
    + lia.
Qed.

(** X29.  The counter never drifts: on every cache reached from a
    new one, whatever the budget and whatever lengths the values
    report, [nbytes] is the sum over the entries of key length plus
    value length, reduced to an [int64]; updates in place and evictions
    leave nothing behind. *)
Theorem nbytes_is_the_wrapped_sum (M : Z) (onEvicted : bool) (fuel : nat)
    (ops : list (op V)) (c : Cache V) :
  run fuel ops (New M onEvicted) = Some c ->
  nbytes c = int64 (total_size (entries c)) ∧ maxBytes c = M.
Proof. intros (_ & Ht & HM)%reached. by split. Qed.

(** X30.  Under a negative budget no [Add] ever returns.  A run of
    operations on a new cache with a negative budget, whose added
    entries have sizes within [int64] that are not negative, ends only
    if it holds no [Add]; the cache it ends on is the new cache, and an
    [Add] of such an entry on it does not return, whatever the fuel:
    the loop evicts the entry at once and then goes on for ever with
    nothing left to evict. *)
Theorem Add_never_returns_under_a_negative_budget (M : Z) (onEvicted : bool)
    (fuel : nat) (ops : list (op V)) (c : Cache V) :
  M < 0 ->
  Forall (λ o, match o with
               | OpAdd k v => 0 <= len k + Len v <= max_int64
               | _ => True
               end) ops ->
  run fuel ops (New M onEvicted) = Some c ->
  c = New M onEvicted ∧
  Forall (λ o, match o with OpAdd _ _ => False | _ => True end) ops ∧
  ∀ (fuel' : nat) k v,
    0 <= len k + Len v <= max_int64 -> Add fuel' c k v = None.
Proof.
  intros HM Hops Hrun.
  assert (c = New M onEvicted ∧
          Forall (λ o, match o with OpAdd _ _ => False | _ => True end) ops)
    as [-> Hno].
  { induction Hops as [|o ops Ho _ IH]; simpl in Hrun.
    - injection Hrun as <-. by split.
    - destruct o as [k v|k|]; simpl in Hrun.
      + by rewrite Add_spins in Hrun.
      + destruct (IH Hrun) as [-> Hno]. split; [done|by constructor].
      + destruct (IH Hrun) as [-> Hno]. split; [done|by constructor]. }
  split; [done|]. split; [done|].
  intros fuel' k v Hkv. by apply Add_spins.
Qed.

End lru_lookup.

(** ** The hash ring: how it grows *)

Section ring_growth.
Import consistenthash.

(** The entries that [Add] writes to [hashMap] for a list of peers, in
    the order of the two loops. *)
Definition vpairs (m : Map) (ps : list string) : list (Z * string) :=
  p ← ps; (λ i, (vnode m p i, p)) <$> seqZ 0 (replicas m).

Definition record (hm : gmap Z string) (x : Z * string) : gmap Z string :=
  <[x.1 := x.2]> hm.

Lemma vpairs_fst (m : Map) ps : (vpairs m ps).*1 = vnodes m ps.
Proof.
  unfold vpairs, vnodes. induction ps as [|p ps IH]; [done|]. cbn.
  rewrite fmap_app, IH. f_equal. rewrite <- list_fmap_compose.
  by apply list_fmap_ext.
Qed.

Lemma vpairs_app (m : Map) ps qs :
  vpairs m (ps ++ qs) = vpairs m ps ++ vpairs m qs.
Proof. unfold vpairs. by rewrite bind_app. Qed.

Lemma vpairs_ext (m m' : Map) ps :
  hash m' = hash m -> replicas m' = replicas m -> vpairs m' ps = vpairs m ps.
Proof.
  intros Hh Hr. unfold vpairs. rewrite Hr.
  induction ps as [|p ps IH]; [done|]. cbn. rewrite IH. f_equal.
  apply list_fmap_ext. intros _ i _. by rewrite (vnode_ext m m').
Qed.

Lemma elem_of_vpairs (m : Map) ps k p :
  (k, p) ∈ vpairs m ps ->
  p ∈ ps ∧ ∃ i, 0 <= i < replicas m ∧ k = vnode m p i.
Proof.
  unfold vpairs. rewrite list_elem_of_bind.
  intros (q & Hin & Hq). apply list_elem_of_fmap in Hin as (i & [= -> ->] & Hi).
  apply elem_of_seqZ in Hi. split; [done|]. exists i. split; [lia|done].
Qed.

Lemma length_vnodes (m : Map) ps :
  length (vnodes m ps) = (Z.to_nat (replicas m) * length ps)%nat.
Proof.
  unfold vnodes. induction ps as [|p ps IH]; cbn.
  - lia.
  - rewrite length_app, IH, length_fmap, length_seqZ. lia.
Qed.

Lemma hashMap_replicas (m : Map) p js :
  hashMap (foldl (add_replica p) m js)
  = foldl record (hashMap m) ((λ i, (vnode m p i, p)) <$> js).
Proof.
  revert m. induction js as [|i js IH]; intros m; [done|]. simpl.
  by rewrite IH.
Qed.

Lemma hashMap_peers (m : Map) peers :
  hashMap (foldl (λ m key, foldl (add_replica key) m (seqZ 0 (replicas m)))
                 m peers)
  = foldl record (hashMap m) (vpairs m peers).
Proof.
  revert m. induction peers as [|p peers IH]; intros m; [done|]. simpl.
  destruct (replicas_loop m p (seqZ 0 (replicas m))) as (Hh & Hr & _).
  rewrite IH, hashMap_replicas. unfold vpairs at 2. cbn.
  rewrite foldl_app. f_equal. by apply vpairs_ext.
Qed.

Lemma foldl_record (hm : gmap Z string) l :
  foldl record hm l = list_to_map (reverse l) ∪ hm.
Proof.
  revert hm. induction l as [|[k p] l IH]; intros hm; simpl.
  - by rewrite (left_id_L ∅ (∪)).
  - rewrite IH, reverse_cons, list_to_map_app. unfold record. simpl.
    rewrite <- (assoc_L (∪)). f_equal.
    by rewrite insert_union_singleton_l, insert_empty.
Qed.

Lemma keys_Add (m : Map) peers :
  keys (Add m peers) = sort_Ints (keys m ++ vnodes m peers).
Proof.
  destruct (peers_loop m peers) as (_ & _ & Hk & _).
  unfold Add. simpl. by rewrite Hk.
Qed.

Lemma hashMap_Add (m : Map) peers :
  hashMap (Add m peers)
  = list_to_map (reverse (vpairs m peers)) ∪ hashMap m.
Proof.
  destruct (Add_spec m peers) as (_ & _ & -> & _).
  by rewrite hashMap_peers, foldl_record.
Qed.

Lemma sort_Ints_unique (l1 l2 : list Z) :
  l1 ≡ₚ l2 -> sort_Ints l1 = sort_Ints l2.
Proof.
  intros Hp. unfold sort_Ints. apply (StronglySorted_unique Z.le).
  - apply Sorted_StronglySorted; [apply _|]. apply Sorted_merge_sort. apply _.
  - apply Sorted_StronglySorted; [apply _|]. apply Sorted_merge_sort. apply _.
  - by rewrite !merge_sort_Permutation.
Qed.

Lemma Map_eq (a b : Map) :
  hash a = hash b -> replicas a = replicas b -> keys a = keys b ->
  hashMap a = hashMap b -> a = b.
Proof. destruct a, b. simpl. congruence. Qed.

(** X9.  The ring holds one virtual node per replica of every peer
    passed to [Add], a peer passed twice counting twice: the number of
    keys is [max(0, replicas)] times the number of peers.  So a ring
    whose replica count is zero or negative stays empty whatever is
    added, and [Get] returns the empty string for every key. *)
Theorem ring_size (r : Z) (fn : option Hash) (batches : list (list string)) :
  Z.of_nat (length (keys (ring r fn batches)))
  = Z.max 0 r * Z.of_nat (length (concat batches)) ∧
  (r <= 0 -> ∀ key, Get (ring r fn batches) key = "").
Proof.
  destruct (ring_spec r fn batches) as (_ & Hr & _ & Hp & _).
  assert (Z.of_nat (length (keys (ring r fn batches)))
          = Z.max 0 r * Z.of_nat (length (concat batches))) as Hsz.
  { rewrite Hp, length_vnodes, Hr. lia. }
  split; [done|]. intros Hr0 key.
  assert (keys (ring r fn batches) = []) as Hk by (apply nil_length_inv; lia).
  unfold Get. by rewrite Hk.
Qed.

(** X10.  Adding the peers in two calls of [Add] leaves the ring that
    adding them in one call leaves: the same sorted keys and the same
    owners. *)
Theorem Add_is_incremental (r : Z) (fn : option Hash)
    (batches : list (list string)) (ps qs : list string) :
  ring r fn (batches ++ [ps; qs]) = ring r fn (batches ++ [ps ++ qs]).
Proof.
  unfold ring. rewrite !foldl_app. simpl.
  set (m := foldl Add (New r fn) batches).
  destruct (Add_spec m ps) as (Hh1 & Hr1 & _).
  destruct (Add_spec (Add m ps) qs) as (Hh2 & Hr2 & _).
  destruct (Add_spec m (ps ++ qs)) as (Hh3 & Hr3 & _).
  apply Map_eq.
  - congruence.
  - congruence.
  - rewrite !keys_Add. apply sort_Ints_unique.
    rewrite (vnodes_ext m (Add m ps)) by done. rewrite vnodes_app.
    unfold sort_Ints. by rewrite merge_sort_Permutation, <- app_assoc.
  - rewrite !hashMap_Add. rewrite (vpairs_ext m (Add m ps)) by done.
    by rewrite vpairs_app, reverse_app, list_to_map_app, (assoc_L (∪)).
Qed.

(** X11.  The ring does not depend on the order in which the peers
    are passed to [Add], provided the virtual nodes of these peers have
    pairwise distinct hashes: the two rings are equal, and so is the
    owner of every key. *)
Theorem ring_order_independent (r : Z) (fn : option Hash)
    (batches : list (list string)) (ps qs : list string) (key : string) :
  ps ≡ₚ qs ->
  NoDup (vnodes (ring r fn batches) ps) ->
  ring r fn (batches ++ [ps]) = ring r fn (batches ++ [qs]) ∧
  Get (ring r fn (batches ++ [ps])) key = Get (ring r fn (batches ++ [qs])) key.
Proof.
  intros Hp Hnd.
  assert (ring r fn (batches ++ [ps]) = ring r fn (batches ++ [qs])) as Heq;
    [|by rewrite Heq].
  rewrite !ring_snoc. set (m := ring r fn batches) in *.
  destruct (Add_spec m ps) as (Hh1 & Hr1 & _).
  destruct (Add_spec m qs) as (Hh2 & Hr2 & _).
  apply Map_eq.
  - congruence.
  - congruence.
  - rewrite !keys_Add. apply sort_Ints_unique. unfold vnodes. by rewrite Hp.
  - rewrite !hashMap_Add. f_equal. apply list_to_map_proper.
    + by rewrite fmap_reverse, vpairs_fst, reverse_Permutation.
    + rewrite !reverse_Permutation. unfold vpairs. by rewrite Hp.
Qed.

(** The node for a hash, by its values: the least key that is at least
    the hash, or the least key of all when there is none. *)
Definition successor (ks : list Z) (h k : Z) : Prop :=
  k ∈ ks ∧
  ((h <= k ∧ ∀ x, x ∈ ks -> h <= x -> k <= x) ∨
   ((∀ x, x ∈ ks -> x < h) ∧ ∀ x, x ∈ ks -> k <= x)).

Lemma node_for_successor (ks : list Z) h k :
  StronglySorted Z.le ks -> node_for ks h = Some k -> successor ks h k.
Proof.
  intros Hs Hn. split; [by eapply node_for_elem_of|].
  unfold node_for in Hn.
  destruct (list_find (λ k, h <= k) ks) as [[i k']|] eqn:Hf.
  - injection Hn as ->. apply list_find_Some in Hf as (Hi & Hk & Hmin).
    left. split; [done|]. intros x Hx Hhx.
    apply list_elem_of_lookup in Hx as [j Hj].
    destruct (decide (j < i)%nat) as [Hlt|Hge].
    + by destruct (Hmin j x Hj Hlt).
    + apply (StronglySorted_lookup_le ks i j); [done..|lia].
  - apply list_find_None in Hf. rewrite Forall_forall in Hf. right. split.
    + intros x Hx. specialize (Hf x Hx). lia.
    + intros x Hx. apply list_elem_of_lookup in Hx as [j Hj].
      rewrite head_lookup in Hn.
      apply (StronglySorted_lookup_le ks 0%nat j); [done..|lia].
Qed.

Lemma successor_unique (ks : list Z) h k1 k2 :
  successor ks h k1 -> successor ks h k2 -> k1 = k2.
Proof.
  intros [Hin1 [[Hh1 Hm1]|[Hl1 Hm1]]] [Hin2 [[Hh2 Hm2]|[Hl2 Hm2]]].
  - pose proof (Hm1 k2 Hin2 Hh2). pose proof (Hm2 k1 Hin1 Hh1). lia.
  - specialize (Hl2 k1 Hin1). lia.
  - specialize (Hl1 k2 Hin2). lia.
  - pose proof (Hm1 k2 Hin2). pose proof (Hm2 k1 Hin1). lia.
Qed.

Lemma successor_sub (ks ks' : list Z) h k :
  ks ⊆ ks' -> k ∈ ks -> successor ks' h k -> successor ks h k.
Proof.
  intros Hsub Hin [_ [[Hh Hm]|[Hl Hm]]]; (split; [done|]).
  - left. split; [done|]. intros x Hx. apply Hm. by apply Hsub.
  - right. split; intros x Hx; [apply Hl|apply Hm]; by apply Hsub.
Qed.

(** X12.  The hashing is consistent: when more peers are added to a
    ring, a key either keeps its owner or moves to one of the peers just
    added; no key moves from one of the old peers to another. *)
Theorem Add_moves_keys_to_new_peers_only (r : Z) (fn : option Hash)
    (batches : list (list string)) (qs : list string) (key : string) :
  Get (ring r fn (batches ++ [qs])) key = Get (ring r fn batches) key ∨
  Get (ring r fn (batches ++ [qs])) key ∈ qs.
Proof.
  rewrite ring_snoc.
  destruct (ring_spec r fn batches) as (_ & _ & Hs & _ & _).
  set (m := ring r fn batches) in *.
  destruct (Add_spec m qs) as (Hh & _ & _ & Hs' & Hp & _).
  rewrite (Get_node_for (Add m qs)), (Get_node_for m) by done.
  rewrite Hh. set (h := uint32 (hash m key)).
  destruct (node_for (keys (Add m qs)) h) as [k'|] eqn:Hn'.
  - pose proof (node_for_successor _ _ _ Hs' Hn') as Hsucc.
    pose proof (node_for_elem_of _ _ _ Hn') as Hin.
    destruct (decide (k' ∈ vnodes m qs)) as [Hv|Hv].
    + right. rewrite hashMap_Add.
      destruct ((list_to_map (reverse (vpairs m qs)) : gmap Z string) !! k')
        as [q|] eqn:Hq.
      * rewrite (lookup_union_Some_l _ _ _ _ Hq). simpl.
        apply elem_of_list_to_map_2 in Hq. rewrite elem_of_reverse in Hq.
        by apply elem_of_vpairs in Hq as [Hq _].
      * exfalso. apply not_elem_of_list_to_map in Hq. apply Hq.
        by rewrite fmap_reverse, elem_of_reverse, vpairs_fst.
    + left. rewrite Hp, elem_of_app in Hin. destruct Hin as [Hin|]; [|done].
      assert (node_for (keys m) h = Some k') as ->.
      { destruct (node_for_nonempty (keys m) h) as [k0 Hk0].
        { intros He. rewrite He in Hin. by apply elem_of_nil in Hin. }
        rewrite Hk0. f_equal.
        apply (successor_unique (keys m) h); [by apply node_for_successor|].
        apply (successor_sub _ (keys (Add m qs))); [|done|done].
        intros x Hx. rewrite Hp. apply elem_of_app. by left. }
      rewrite hashMap_Add, lookup_union_r; [done|].
      apply not_elem_of_list_to_map.
      by rewrite fmap_reverse, elem_of_reverse, vpairs_fst.
  - left. assert (keys m = []) as Hk.
    { destruct (keys (Add m qs)) as [|x l] eqn:Hk'.
      - symmetry in Hp. apply Permutation_nil_r in Hp.
        by apply app_eq_nil in Hp as [? _].
      - destruct (node_for_nonempty (x :: l) h) as [? ?]; [done|congruence]. }
    by rewrite Hk.
Qed.

(** X13.  When a single peer is registered, however many times, and
    the replica count is positive, that peer owns every key. *)
Theorem ring_of_one_peer (r : Z) (fn : option Hash)
    (batches : list (list string)) (p key : string) :
  0 < r -> concat batches ≠ [] -> Forall (λ q, q = p) (concat batches) ->
  Get (ring r fn batches) key = p.
Proof.
  intros Hr Hne Hall.
  destruct (ring_Get_cases r fn batches key) as [_ Hfull].
  destruct Hfull as (k & q & i & _ & _ & -> & Hin & _).
  - intros Hk. destruct (ring_spec r fn batches) as (_ & Hr' & _ & Hp & _).
    rewrite Hk in Hp. symmetry in Hp. apply Permutation_nil_r in Hp.
    apply (f_equal length) in Hp. rewrite length_vnodes, Hr' in Hp.
    destruct (concat batches); [done|]. simpl in Hp. lia.
  - rewrite Forall_forall in Hall. by apply Hall.
Qed.

End ring_growth.

(** ** Byte views *)

Section byteview.
Import geecache.

Lemma length_string_of_list (l : list ascii) :
  String.length (String.string_of_list_ascii l) = length l.
Proof. induction l as [|c l IH]; simpl; [done|]. by rewrite IH. Qed.

Lemma length_contents (h : Heap) (data : bytes) :
  valid h data -> length (contents h data) = bytes_len data.
Proof.
  destruct data as [|a off n]; simpl; [done|].
  intros (bs & -> & Hle). simpl. rewrite length_take, length_drop. lia.
Qed.

(** A slice that was valid before an allocation reads the same after
    it. *)
Lemma contents_kept (h h' : Heap) (a : loc) (other : bytes) :
  a ∉ dom h -> (∀ l, l ≠ a -> h' !! l = h !! l) ->
  valid h other -> contents h' other = contents h other.
Proof.
  intros Ha Hh Hv. destruct other as [|a0 off n]; [done|]. simpl.
  destruct Hv as (bs & Hbs & _). rewrite Hh; [done|].
  intros ->. apply Ha, elem_of_dom. by eexists.
Qed.

Lemma copy_bytes_other (dst src : bytes) (h : Heap) (l : loc) :
  match dst with nil_bytes => True | Slice a _ _ => l ≠ a end ->
  copy_bytes dst src h !! l = h !! l.
Proof.
  destruct dst as [|a off n]; simpl; [done|]. intros Hl.
  by rewrite lookup_insert_ne.
Qed.

Lemma cloneBytes_valid (data : bytes) (h : Heap) :
  valid (cloneBytes data h).2 (cloneBytes data h).1.
Proof.
  unfold cloneBytes, make_bytes, copy_bytes. simpl.
  eexists. split; [apply lookup_insert_eq|].
  rewrite lookup_insert_eq. simpl.
  rewrite length_app, length_drop, length_replicate, length_take. lia.
Qed.

(** X15.  [ByteSlice] returns a copy.  The slice returned is on an
    array that was not allocated before, it holds the bytes of the view,
    every slice that existed reads as before, and a later write through
    the returned slice changes neither these slices nor the string of
    the view. *)
Theorem ByteSlice_returns_a_copy (v : ByteView) (h : Heap) :
  valid h (b v) ->
  ∃ a h',
    ByteSlice v h = (Slice a 0 (bytes_len (b v)), h') ∧
    a ∉ dom h ∧
    contents h' (Slice a 0 (bytes_len (b v))) = contents h (b v) ∧
    (∀ other, valid h other -> contents h' other = contents h other) ∧
    (∀ src other, valid h other ->
       contents (copy_bytes (Slice a 0 (bytes_len (b v))) src h') other
       = contents h other) ∧
    (∀ src,
       ByteView_String v (copy_bytes (Slice a 0 (bytes_len (b v))) src h')
       = ByteView_String v h).
Proof.
  intros Hv. unfold ByteSlice.
  destruct (cloneBytes_spec (b v) h) as (a & h' & Hcl & Ha & Hh & Hc).
  assert (Hw : ∀ src other, valid h other ->
            contents (copy_bytes (Slice a 0 (bytes_len (b v))) src h') other
            = contents h other).
  { intros src other Ho. apply (contents_kept h _ a); [done| |done].
    intros l Hl. rewrite copy_bytes_other by done. by apply Hh. }
  exists a, h'. split_and!; try done.
  - by apply Hc.
  - intros other Ho. by apply (contents_kept h h' a).
  - intros src. unfold ByteView_String. by rewrite Hw.
Qed.

End byteview.

(** ** The cache shard *)

Section shard.
Import geecache.

Lemma add_get (fuel : nat) (c : cache) (key : string) (v : ByteView) :
  shard_ok c ->
  cacheBytes c = 0 ∨ len key + ByteView_Len v <= cacheBytes c <= max_int64 ->
  (shard_len c < fuel)%nat ->
  ∃ c', add fuel c key v = Some c' ∧ shard_ok c' ∧
        cacheBytes c' = cacheBytes c ∧
        get c' key = (c', Some v) ∧
        head (shard_entries c') = Some (lru.Entry key v).
Proof.
  intros Hok Hb Hfuel. unfold add.
  set (l := match lru c with
            | Some l => l
            | None => lru.New (cacheBytes c) false
            end).
  assert (wf l ∧ tallied l ∧ lru.maxBytes l = cacheBytes c ∧
          length (lru.ll l) = shard_len c) as (Hwf & Ht & HM & Hl).
  { unfold l, shard_ok, shard_len in *. destruct (lru c) as [l0|].
    - by destruct Hok as (? & ? & ?).
    - split_and!; [apply wf_New|apply tallied_New|done|done]. }
  destruct (Add_Get fuel l key v Hwf Ht)
    as (l' & Hadd & Hwf' & Ht' & HM' & HG & Hh).
  { unfold lru.Len, ByteView_Value, ByteView_Len. lia. }
  { by rewrite HM. }
  { lia. }
  rewrite Hadd. eexists. split; [done|]. split_and!; try done.
  - unfold shard_ok. simpl. split_and!; [done|done|congruence].
  - unfold get. simpl. destruct (lru.Get l' key) as [l2 r] eqn:HG2.
    simpl in HG. subst r. f_equal.
    assert (l2 = l') as ->; [|done].
    unfold lru.Get in HG2. destruct (lru.cache l' !! key) as [ele|] eqn:Hc;
      [|done].
    destruct (entries_hit l' key ele Hwf' Hc)
      as (v0 & l1 & l3 & Hv0 & Hll & Hn1 & Hn2 & Hen & _).
    rewrite Hen in Hh. destruct l1 as [|e1 l1].
    + injection HG2 as <- _. simpl in Hll. rewrite Hll.
      unfold lru.MoveToFront. rewrite decide_True by (by left).
      simpl. rewrite decide_True by done.
      destruct l'; simpl in *. by rewrite Hll.
    + exfalso. simpl in Hh.
      assert (e1 ∈ lru.ll l') as He1 by (rewrite Hll; by left).
      destruct (wf_elems l' Hwf' e1 He1) as [kv1 Hkv1].
      rewrite Hkv1 in Hh. simpl in Hh. injection Hh as ->.
      assert (lru.cache l' !! key = Some e1) as Hc1.
      { apply (wf_cache l' Hwf'). split; [done|by exists v]. }
      rewrite Hc in Hc1. injection Hc1 as ->. apply Hn1. by left.
Qed.


Lemma get_hit (c : cache) (key : string) (v : ByteView) :
  shard_ok c -> lru.Entry key v ∈ shard_entries c ->
  (get c key).2 = Some v ∧ shard_ok (get c key).1 ∧
  cacheBytes (get c key).1 = cacheBytes c ∧
  shard_entries (get c key).1
  = lru.Entry key v :: filter (λ kv, lru.key kv ≠ key) (shard_entries c).
Proof.
  intros Hok Hin. pose proof (shard_ok_get c key Hok) as Hok'.
  unfold shard_ok, shard_entries, get in *. destruct (lru c) as [l|] eqn:Hl.
  - destruct Hok as (Hwf & Ht & HM).
    pose proof (proj2 (Get_Some_iff l key v Hwf) Hin) as HG.
    pose proof (entries_Get l key v Hwf Hin) as He.
    destruct (lru.Get l key) as [l' r]. by split_and!.
  - by apply elem_of_nil in Hin.
Qed.

End shard.

(** ** The group: hits, and what a load leaves behind *)

Section group_more.
Context {X : Type}.
Import geecache.

Local Arguments cloneBytes : simpl never.
Local Arguments add : simpl never.
Local Arguments get : simpl never.

Lemma Get_hit (fuel : nat) (g : Group X) (key : string) (v : ByteView)
    (w : World X) :
  key ≠ "" -> (get (mainCache g) key).2 = Some v ->
  Get fuel g key w
  = Some ((v, None), with_mainCache (get (mainCache g) key).1 g,
          {| env := Println "[GeeCache hit]" (env w);
             calls := calls w ++ [CallShardGet key] |}).
Proof.
  intros Hkey HG. unfold Get. rewrite bool_decide_eq_false_2 by done.
  destruct (get (mainCache g) key) as [c r]. simpl in HG. by subst r.
Qed.

(** X17.  A hit is served from the shard alone.  When the shard of a
    group holds a value for a key that is not empty, [Get] returns that
    value and no error; it has read the shard, logged the hit, and
    called neither the peer picker nor a peer nor the load callback;
    the entry hit is now the most recently used one, the other entries
    keep their order, and nothing else of the group has changed. *)
Theorem Get_serves_from_the_cache (fuel : nat) (g : Group X) (key : string)
    (v : ByteView) (w : World X) :
  Group_ok g -> key ≠ "" ->
  lru.Entry key v ∈ shard_entries (mainCache g) ->
  ∃ g',
    Get fuel g key w
    = Some ((v, None), g',
            {| env := Println "[GeeCache hit]" (env w);
               calls := calls w ++ [CallShardGet key] |}) ∧
    Group_ok g' ∧
    name g' = name g ∧ peers g' = peers g ∧
    cacheBytes (mainCache g') = cacheBytes (mainCache g) ∧
    shard_entries (mainCache g')
    = lru.Entry key v
        :: filter (λ kv, lru.key kv ≠ key) (shard_entries (mainCache g)).
Proof.
  intros Hok Hkey Hin.
  destruct (get_hit (mainCache g) key v (proj1 Hok) Hin)
    as (HG & Hok' & Hcb & Hen).
  exists (with_mainCache (get (mainCache g) key).1 g).
  split_and!; try done.
  - by apply Get_hit.
  - by apply Group_ok_with_mainCache.
Qed.

(** A load from the callback whose value is within the budget by itself
    leaves the value in the shard: the next [Get] is a hit. *)
Lemma load_then_hit (fuel : nat) (g : Group X) (key : string)
    (w w1 : World X) (data : bytes) (e3 : Env X) :
  Group_ok g -> key ≠ "" -> shard_has (mainCache g) key = false ->
  falls_back g key (called (CallShardGet key) w) w1 ->
  getter g key (env w1) = ((data, None), e3) ->
  cacheBytes (mainCache g) = 0 ∨
    len key + Z.of_nat (bytes_len data) <= cacheBytes (mainCache g)
                                        <= max_int64 ->
  (shard_len (mainCache g) < fuel)%nat ->
  ∃ v g' h,
    Get fuel g key w
    = Some ((v, None), g',
            called (CallShardAdd key)
              (with_env (with_heap h e3) (called (CallGetter key) w1))) ∧
    Group_ok g' ∧ valid h (b v) ∧
    (valid (heap e3) data -> contents h (b v) = contents (heap e3) data) ∧
    (∀ other, valid (heap e3) other ->
       contents h other = contents (heap e3) other) ∧
    ∀ (fuel' : nat) (w' : World X),
      Get fuel' g' key w'
      = Some ((v, None), g',
              {| env := Println "[GeeCache hit]" (env w');
                 calls := calls w' ++ [CallShardGet key] |}).
Proof.
  intros [Hshard Hidle] Hkey Hmiss Hfb Hget Hb Hfuel.
  rewrite (Get_falls_back fuel g key w w1 data None e3) by done.
  destruct (cloneBytes_spec data (heap e3)) as (a & h & Hcl & Ha & Hh & Hc).
  rewrite Hcl.
  destruct (add_get fuel (mainCache g) key
              {| b := Slice a 0 (bytes_len data) |} Hshard Hb Hfuel)
    as (shard & Hadd & Hok & _ & HG & _).
  rewrite Hadd. eexists _, _, h. split; [done|]. split_and!.
  - by apply Group_ok_with_mainCache.
  - pose proof (cloneBytes_valid data (heap e3)) as Hval.
    by rewrite Hcl in Hval.
  - done.
  - intros other Ho. by apply (contents_kept _ _ a).
  - intros fuel' w'.
    rewrite Get_hit with (v := {| b := Slice a 0 (bytes_len data) |});
      [|done|].
    + change (mainCache (with_mainCache shard g)) with shard.
      by rewrite HG.
    + change (mainCache (with_mainCache shard g)) with shard. by rewrite HG.
Qed.


(** X19.  [NewGroup] panics on a nil getter.  Otherwise it returns a
    group with the name, getter and byte budget given, no peer picker
    and an empty shard, registered under its name in place of any group
    that had the name, the other names being as before.  On that group
    the first [RegisterPeers] installs the picker and changes nothing
    else, and a second [RegisterPeers] panics. *)
Theorem NewGroup_then_RegisterPeers (groups : Registry X) (name' : string)
    (cacheBytes' : Z) (getter' : option (Getter X))
    (picker picker' : PeerPicker X) :
  match NewGroup groups name' cacheBytes' getter' with
  | Returns (g, groups') =>
      getter' = Some (getter g) ∧
      name g = name' ∧ peers g = None ∧
      cacheBytes (mainCache g) = cacheBytes' ∧
      shard_entries (mainCache g) = [] ∧
      GetGroup groups' name' = Some g ∧
      (∀ other, other ≠ name' ->
         GetGroup groups' other = GetGroup groups other) ∧
      ∃ g', RegisterPeers g picker = Returns g' ∧
            peers g' = Some picker ∧
            name g' = name g ∧ mainCache g' = mainCache g ∧
            RegisterPeers g' picker'
            = Panics "RegisterPeerPicker called more than once"
  | Panics msg => getter' = None ∧ msg = "nil Getter"
  | OutOfFuel => False
  end.
Proof.
  unfold NewGroup. destruct getter' as [gt|]; [|done]. simpl.
  split_and!; try done.
  - unfold GetGroup, Registry in *. by rewrite lookup_insert_eq.
  - intros other Ho. unfold GetGroup, Registry in *.
    by rewrite lookup_insert_ne.
  - by eexists.
Qed.

End group_more.

(** ** The pool as a server: the paths it accepts *)

Section paths.

Lemma string_take_append (pre s : string) :
  string_take (String.length pre) (pre +:+ s) = pre.
Proof.
  induction pre as [|c pre IH]; [by destruct s|].
  rewrite append_cons. simpl. by rewrite IH.
Qed.

Lemma prefix_slash c s :
  String.prefix "/" (String c s) = bool_decide (c = "/"%char).
Proof.
  cbn [String.prefix]. destruct (Ascii.ascii_dec "/" c) as [<-|Hc].
  - rewrite bool_decide_eq_true_2 by done. by destruct s.
  - rewrite bool_decide_eq_false_2; [done|]. by intros ->.
Qed.

Lemma Index_cons c s :
  Index (String c s) "/"
  = if bool_decide (c = "/"%char) then Some O else S <$> Index s "/".
Proof. cbn [Index]. by rewrite prefix_slash. Qed.

Lemma Index_join (name key : string) :
  Index name "/" = None ->
  Index (name +:+ "/" +:+ key) "/" = Some (String.length name).
Proof.
  induction name as [|c name IH]; intros Hn.
  - rewrite append_nil, append_cons, Index_cons.
    by rewrite bool_decide_eq_true_2.
  - rewrite Index_cons in Hn. rewrite append_cons, Index_cons.
    case_bool_decide; [done|].
    destruct (Index name "/"); [done|]. by rewrite IH.
Qed.

(** [SplitN] cuts a joined pair at its separator when the first part
    holds none. *)
Lemma SplitN_join (name key : string) :
  Index name "/" = None -> SplitN (name +:+ "/" +:+ key) "/" 2 = [name; key].
Proof.
  intros Hn. unfold SplitN.
  assert (Nat.min 2 (String.length (name +:+ "/" +:+ key) + 1) = 2)%nat as ->.
  { rewrite !length_append. change (String.length "/") with 1%nat. lia. }
  cbn [SplitN_cuts Nat.sub]. rewrite (Index_join name key Hn).
  rewrite string_take_append. f_equal.
  replace (String.length name + String.length "/")%nat
    with (String.length (name +:+ "/")) by (by rewrite length_append).
  rewrite <- append_assoc. by rewrite string_drop_append.
Qed.

Lemma SplitN_no_sep (s : string) :
  Index s "/" = None -> SplitN s "/" 2 = [s].
Proof.
  intros Hn. unfold SplitN.
  destruct (Nat.min 2 (String.length s + 1) - 1)%nat; simpl; [done|].
  by rewrite Hn.
Qed.

End paths.

Section serve.
Context {X : Type}.
Import geecache.

Local Arguments cloneBytes : simpl never.
Local Arguments Get : simpl never.

(** The world after the handler has logged the request. *)
Definition logged (p : HTTPPool) (method path : string) (w : World X)
  : World X :=
  with_env (HTTPPool_Log p (method +:+ " " +:+ path) (env w)) w.

(** The handler on a path of the expected format. *)
Lemma ServeHTTP_parsed (fuel : nat) (p : HTTPPool) (groups : Registry X)
    (method name' key : string) (w : World X) :
  Index name' "/" = None ->
  let path := basePath p +:+ name' +:+ "/" +:+ key in
  ServeHTTP fuel p groups method path w
  = match GetGroup groups name' with
    | None =>
        Returns (http_Error ("no such group" +:+ name') 404, groups,
                 logged p method path w)
    | Some group =>
        match Get fuel group key (logged p method path w) with
        | None => OutOfFuel
        | Some ((_, Some err), group', w2) =>
            Returns (http_Error err 500, <[name' := group']> groups, w2)
        | Some ((view, None), group', w2) =>
            let '(data, h) := ByteSlice view (heap (env w2)) in
            Returns ({| status := 200;
                        content_type := "application/octet-stream";
                        body := contents h data |},
                     <[name' := group']> groups,
                     with_env (with_heap h (env w2)) w2)
        end
    end.
Proof.
  intros Hn path. unfold ServeHTTP, path.
  rewrite HasPrefix_append. simpl negb. cbv iota.
  rewrite string_drop_append, (SplitN_join name' key Hn). reflexivity.
Qed.

(** X20.  The handler on a path it does not accept.  A path without
    the base path as its prefix makes it panic.  A path with the prefix
    and no [/] after it is answered 400, "bad request": the request is
    logged and the registry is not read. *)
Theorem ServeHTTP_rejects_malformed_paths (fuel : nat) (p : HTTPPool)
    (groups : Registry X) (method path : string) (w : World X) :
  (HasPrefix path (basePath p) = false ->
   ServeHTTP fuel p groups method path w
   = Panics ("HTTPPool serving unexpected path: " +:+ path)) ∧
  (HasPrefix path (basePath p) = true ->
   Index (string_drop (String.length (basePath p)) path) "/" = None ->
   ServeHTTP fuel p groups method path w
   = Returns (http_Error "bad request" 400, groups, logged p method path w)).
Proof.
  split.
  - intros Hp. unfold ServeHTTP. by rewrite Hp.
  - intros Hp Hn. unfold ServeHTTP. rewrite Hp. simpl negb. cbv iota.
    by rewrite (SplitN_no_sep _ Hn).
Qed.

(** X21.  A well-formed path that names a group which is not
    registered is answered 404 with the body "no such group" followed
    at once by the name and a newline; the request is logged and
    nothing else happens. *)
Theorem ServeHTTP_unknown_group (fuel : nat) (p : HTTPPool)
    (groups : Registry X) (method name' key : string) (w : World X) :
  Index name' "/" = None -> GetGroup groups name' = None ->
  ServeHTTP fuel p groups method (basePath p +:+ name' +:+ "/" +:+ key) w
  = Returns ({| status := 404;
                content_type := "text/plain; charset=utf-8";
                body := String.list_ascii_of_string ("no such group" +:+ name')
                          ++ ["010"%char] |},
             groups,
             logged p method (basePath p +:+ name' +:+ "/" +:+ key) w).
Proof.
  intros Hn Hg. rewrite ServeHTTP_parsed by done. by rewrite Hg.
Qed.

(** X22.  A path that ends right after the separator names the empty
    key: for a registered group the handler answers 500 with the body
    "key is required"; the request is logged, and the group is as it
    was. *)
Theorem ServeHTTP_empty_key (fuel : nat) (p : HTTPPool)
    (groups : Registry X) (method name' : string) (g : Group X)
    (w : World X) :
  Index name' "/" = None -> GetGroup groups name' = Some g ->
  ServeHTTP fuel p groups method (basePath p +:+ name' +:+ "/") w
  = Returns ({| status := 500;
                content_type := "text/plain; charset=utf-8";
                body := String.list_ascii_of_string "key is required"
                          ++ ["010"%char] |},
             groups,
             logged p method (basePath p +:+ name' +:+ "/") w).
Proof.
  intros Hn Hg.
  pose proof (ServeHTTP_parsed fuel p groups method name' "" w Hn) as Hs.
  cbv zeta in Hs. change ("/" +:+ "") with "/" in Hs.
  rewrite Hs, Hg. unfold Get.
  rewrite bool_decide_eq_true_2 by done. unfold http_Error. f_equal.
  f_equal. f_equal. unfold GetGroup, Registry in *. by apply insert_id.
Qed.

(** X23.  A request for a key that the shard of the named group holds
    is answered 200 with the content type [application/octet-stream]
    and the bytes of the cached view as the body.  The group is written
    back with the entry promoted, the shard was read once and no
    callback or peer was called, and the slices that existed read as
    before. *)
Theorem ServeHTTP_serves_a_cached_value (fuel : nat) (p : HTTPPool)
    (groups : Registry X) (method name' key : string) (g : Group X)
    (v : ByteView) (w : World X) :
  Index name' "/" = None -> GetGroup groups name' = Some g ->
  Group_ok g -> key ≠ "" ->
  lru.Entry key v ∈ shard_entries (mainCache g) ->
  valid (heap (env w)) (b v) ->
  ∃ g' w',
    ServeHTTP fuel p groups method (basePath p +:+ name' +:+ "/" +:+ key) w
    = Returns ({| status := 200;
                  content_type := "application/octet-stream";
                  body := contents (heap (env w)) (b v) |},
               <[name' := g']> groups, w') ∧
    Group_ok g' ∧
    shard_entries (mainCache g')
    = lru.Entry key v
        :: filter (λ kv, lru.key kv ≠ key) (shard_entries (mainCache g)) ∧
    calls w' = calls w ++ [CallShardGet key] ∧
    (∀ other, valid (heap (env w)) other ->
       contents (heap (env w')) other = contents (heap (env w)) other).
Proof.
  intros Hn Hg Hok Hkey Hin Hv.
  rewrite ServeHTTP_parsed by done. rewrite Hg.
  destruct (get_hit (mainCache g) key v (proj1 Hok) Hin)
    as (HG & Hok' & Hcb & Hen).
  rewrite (Get_hit fuel g key v) by done.
  unfold ByteSlice.
  destruct (cloneBytes_spec (b v) (heap (env w))) as (a & h & Hcl & Ha & Hh & Hc).
  match goal with
  | |- context [cloneBytes (b v) ?h0] => change h0 with (heap (env w))
  end.
  rewrite Hcl. eexists _, _. split; [|split_and!].
  - f_equal. f_equal. f_equal. f_equal. by apply Hc.
  - by apply Group_ok_with_mainCache.
  - done.
  - done.
  - intros other Ho. simpl. by apply (contents_kept _ _ a).
Qed.

End serve.

(** ** The pool as a client *)

Section client.
Context {X : Type}.
Import geecache.

(** X24.  The client's [Get] returns the error of the transport as it
    is; on a status other than 200, the error "server returned: " with
    the status; on a failure to read the body, "reading response body: "
    with the cause; and otherwise the bytes read and no error.  It never
    returns bytes together with an error. *)
Theorem httpGetter_Get_result (http_Get : Transport) (h : httpGetter)
    (group key : string) (e : Env X) :
  match http_Get (request_url h group key) e with
  | (inr err, e1) =>
      httpGetter_Get http_Get h group key e = ((nil_bytes, Some err), e1)
  | (inl res, e1) =>
      if bool_decide (StatusCode res = 200) then
        match ReadAll res e1 with
        | ((data, None), e2) =>
            httpGetter_Get http_Get h group key e = ((data, None), e2)
        | ((_, Some err), e2) =>
            httpGetter_Get http_Get h group key e
            = ((nil_bytes, Some ("reading response body: " +:+ err)), e2)
        end
      else
        httpGetter_Get http_Get h group key e
        = ((nil_bytes, Some ("server returned: " +:+ Status res)), e1)
  end ∧
  (∀ data msg,
     (httpGetter_Get http_Get h group key e).1 = (data, Some msg) ->
     data = nil_bytes).
Proof.
  unfold httpGetter_Get.
  destruct (http_Get (request_url h group key) e) as [[res|err] e1].
  - case_bool_decide as Hs.
    + rewrite bool_decide_eq_false_2 by (by intros ?).
      destruct (ReadAll res e1) as [[data [err|]] e2]; simpl.
      * split; [done|]. by intros ?? [= <- _].
      * split; [done|]. by intros ?? [= _ ?].
    + rewrite bool_decide_eq_true_2 by done. simpl.
      split; [done|]. by intros ?? [= <- _].
  - simpl. split; [done|]. by intros ?? [= <- _].
Qed.

(** X25.  A pool whose membership is empty or holds only its own
    address never picks a peer: [PickPeer] returns (nil, false) and
    logs nothing, so the group loads every key locally. *)
Theorem PickPeer_of_a_lone_node (p : HTTPPool) (peers : list string)
    (key : string) (e : Env X) :
  Forall (λ q, q = self p) peers ->
  PickPeer (HTTPPool_Set p peers) key e = Returns ((None, false), e).
Proof.
  intros Hall. unfold PickPeer. rewrite Set_ring.
  rewrite bool_decide_eq_false_2; [done|]. intros [Hne Hself].
  change (self (HTTPPool_Set p peers)) with (self p) in Hself.
  destruct (ring_Get_cases defaultReplicas None [peers] key)
    as [Hempty Hfull].
  destruct (decide (consistenthash.keys (ring defaultReplicas None [peers])
                    = [])) as [Hk|Hk].
  - by apply Hne, Hempty.
  - destruct (Hfull Hk) as (k & q & i & _ & _ & Hq & Hin & _).
    simpl in Hin. rewrite app_nil_r in Hin. rewrite Forall_forall in Hall.
    apply Hself. rewrite Hq. by apply Hall.
Qed.

End client.

(** ** The escaping of the request path *)

Section escaping.

Lemma plus_for_space_id (s : string) :
  Forall (λ c, c ≠ " "%char) (String.list_ascii_of_string s) ->
  plus_for_space s = s.
Proof.
  induction s as [|c s IH]; [done|]. simpl.
  intros [Hc Hs]%Forall_cons. unfold plus_char.
  rewrite bool_decide_eq_false_2 by done. by rewrite IH.
Qed.

Lemma upperhex_not_slash (n : N) : (n < 16)%N -> upperhex n ≠ "/"%char.
Proof.
  intros Hn.
  assert (Forall (λ n, upperhex n ≠ "/"%char) (N.of_nat <$> seq 0 16)) as Hall.
  { vm_compute. repeat (constructor; [discriminate|]). constructor. }
  rewrite Forall_forall in Hall. apply Hall.
  apply list_elem_of_fmap. exists (N.to_nat n). split; [lia|].
  apply elem_of_seq. lia.
Qed.

Lemma Index_escape_char (c : ascii) (t : string) :
  Index t "/" = None -> Index (escape_char c +:+ t) "/" = None.
Proof.
  intros Ht. unfold escape_char. case_bool_decide as Hsp.
  - rewrite append_cons, append_nil, Index_cons.
    rewrite bool_decide_eq_false_2 by done. by rewrite Ht.
  - destruct (shouldEscape_query c) eqn:He.
    + rewrite !append_cons, append_nil.
      assert (N_of_ascii c < 256)%N as Hlt by apply N_ascii_bounded.
      rewrite !Index_cons.
      rewrite bool_decide_eq_false_2 by done.
      rewrite bool_decide_eq_false_2
        by (apply upperhex_not_slash, N.Div0.div_lt_upper_bound; lia).
      rewrite bool_decide_eq_false_2
        by (apply upperhex_not_slash, N.mod_lt; lia).
      by rewrite Ht.
    + rewrite append_cons, append_nil, Index_cons.
      rewrite bool_decide_eq_false_2; [by rewrite Ht|].
      intros ->. by vm_compute in He.
Qed.

(** X26.  The escaping that the client applies to the namespace and
    to the key, against the decoding that gives the server the path of
    the request: the decoded text is the original with every space
    replaced by [+]; the escaped text never holds a [/]; so a text
    without spaces comes back as it was sent, and a text with a space
    does not. *)
Theorem escaped_segment_decodes (s : string) :
  unescape_path (QueryEscape s) = Some (plus_for_space s) ∧
  Index (QueryEscape s) "/" = None ∧
  (Forall (λ c, c ≠ " "%char) (String.list_ascii_of_string s) ->
   unescape_path (QueryEscape s) = Some s) ∧
  (∀ s1 s2, s = s1 +:+ " " +:+ s2 ->
   unescape_path (QueryEscape s) ≠ Some s).
Proof.
  split; [apply unescape_QueryEscape_nil|]. split; [|split].
  - induction s as [|c s IH]; [done|].
    rewrite QueryEscape_cons. by apply Index_escape_char.
  - intros Hs. by rewrite unescape_QueryEscape_nil, plus_for_space_id.
  - intros s1 s2 ->. rewrite unescape_QueryEscape_nil. intros [= Heq].
    induction s1 as [|c s1 IH].
    + rewrite append_nil, append_cons in Heq. simpl in Heq. done.
    + rewrite append_cons in Heq. simpl in Heq. injection Heq as _ Heq.
      by apply IH.
Qed.

End escaping.

(** ** The program [main]: what it serves *)

Section main_program.
Context {X : Type}.
Import geecache main.

Local Arguments cloneBytes : simpl never.
Local Arguments add : simpl never.
Local Arguments get : simpl never.
Local Arguments Get : simpl never.

Lemma db_keys (key s : string) :
  db !! key = Some s ->
  (String.length key <= 4)%nat ∧ (String.length s = 3)%nat.
Proof.
  unfold db. intros H.
  apply lookup_insert_Some in H as [[<- <-]|[_ H]]; [simpl; lia|].
  apply lookup_insert_Some in H as [[<- <-]|[_ H]]; [simpl; lia|].
  apply lookup_singleton_Some in H as [<- <-]. simpl. lia.
Qed.

Lemma length_list_ascii (s : string) :
  length (String.list_ascii_of_string s) = String.length s.
Proof. induction s as [|c s IH]; simpl; [done|]. by rewrite IH. Qed.

(** What the getter of [createGroup] returns. *)
Lemma slowdb_spec (key : string) (e : Env X) :
  match db !! key with
  | Some s =>
      ∃ a, a ∉ dom (heap e) ∧
        slowdb key e
        = ((Slice a 0 (String.length s), None),
           {| heap := <[a := String.list_ascii_of_string s]> (heap e);
              output := output e ++ ["[SlowDB] search key " +:+ key];
              ext := ext e |})
  | None =>
      slowdb key e
      = ((nil_bytes, Some (key +:+ " not exist")),
         Println ("[SlowDB] search key " +:+ key) e)
  end.
Proof.
  unfold slowdb. destruct (db !! key) as [s|]; [|done].
  exists (fresh (dom (heap e))). split; [apply is_fresh|done].
Qed.

Lemma createGroup_spec (groups : Registry X) :
  ∃ g, createGroup groups = Returns (g, <["scores" := g]> groups) ∧
       Group_ok g ∧ name g = "scores" ∧ getter g = slowdb ∧
       mainCache g = {| lru := None; cacheBytes := 2048 |} ∧
       peers g = None.
Proof. eexists. split; [reflexivity|]. by split_and!. Qed.

(** [Get] on the group of [createGroup]. *)
Lemma scores_Get (g : Group X) (key : string) (w : World X) (fuel : nat) :
  Group_ok g -> getter g = slowdb -> peers g = None ->
  mainCache g = {| lru := None; cacheBytes := 2048 |} ->
  key ≠ "" -> (0 < fuel)%nat ->
  match db !! key with
  | None =>
      Get fuel g key w
      = Some ((ByteView_zero, Some (key +:+ " not exist")), g,
              {| env := Println ("[SlowDB] search key " +:+ key) (env w);
                 calls := calls w ++ [CallShardGet key; CallGetter key] |})
  | Some s =>
      ∃ v g' w',
        Get fuel g key w = Some ((v, None), g', w') ∧
        Group_ok g' ∧ valid (heap (env w')) (b v) ∧
        contents (heap (env w')) (b v) = String.list_ascii_of_string s ∧
        output (env w') = output (env w) ++ ["[SlowDB] search key " +:+ key] ∧
        calls w'
        = calls w ++ [CallShardGet key; CallGetter key; CallShardAdd key] ∧
        ∀ (fuel' : nat) (w'' : World X),
          Get fuel' g' key w''
          = Some ((v, None), g',
                  {| env := Println "[GeeCache hit]" (env w'');
                     calls := calls w'' ++ [CallShardGet key] |})
  end.
Proof.
  intros Hok Hgt Hp Hmc Hkey Hfuel.
  assert (Hmiss : shard_has (mainCache g) key = false) by (by rewrite Hmc).
  pose proof (no_pool g key (called (CallShardGet key) w) Hp) as Hfb.
  pose proof (slowdb_spec key (env w)) as Hs.
  destruct (db !! key) as [s|] eqn:Hdb.
  - destruct Hs as (a & Ha & Hs). destruct (db_keys key s Hdb) as [Hk Hl].
    set (e3 := {| heap := <[a := String.list_ascii_of_string s]> (heap (env w));
                  output := output (env w) ++ ["[SlowDB] search key " +:+ key];
                  ext := ext (env w) |}) in *.
    assert (Hv : valid (heap e3) (Slice a 0 (String.length s))).
    { exists (String.list_ascii_of_string s). split; [apply lookup_insert_eq|].
      rewrite length_list_ascii. lia. }
    destruct (load_then_hit fuel g key w (called (CallShardGet key) w)
                (Slice a 0 (String.length s)) e3)
      as (v & g' & h & HG & Hok' & Hval & Hc & Hkeep & Hhit); try done.
    { by rewrite Hgt. }
    { right. rewrite Hmc. simpl. unfold len. rewrite max_int64_eq. lia. }
    { rewrite Hmc. unfold shard_len. simpl. lia. }
    eexists v, g', _. split; [done|]. split_and!; try done.
    + simpl. rewrite (Hc Hv). simpl. rewrite lookup_insert_eq. simpl.
      rewrite drop_0, take_ge; [done|]. rewrite length_list_ascii. lia.
    + simpl. by rewrite <- !app_assoc.
  - rewrite (Get_falls_back fuel g key w (called (CallShardGet key) w)
               nil_bytes (Some (key +:+ " not exist"))
               (Println ("[SlowDB] search key " +:+ key) (env w)));
      try done.
    + unfold with_env, called. simpl. by rewrite <- app_assoc.
    + apply Hok.
    + by rewrite Hgt.
Qed.

(** X27.  The group that [createGroup] makes, on a key that is not
    empty.  For a key of [db], [Get] returns, given one unit of fuel,
    the score of [db] as a string; it has logged one search of the
    database and stored the view, and every later [Get] of the key is a
    hit.  For any other key [Get] returns the error "<key> not exist",
    has logged one search, and leaves the group as it was. *)
Theorem createGroup_answers_from_db (groups : Registry X) (key : string)
    (w : World X) (fuel : nat) :
  key ≠ "" -> (0 < fuel)%nat ->
  ∃ g,
    createGroup groups = Returns (g, <["scores" := g]> groups) ∧
    match db !! key with
    | None =>
        Get fuel g key w
        = Some ((ByteView_zero, Some (key +:+ " not exist")), g,
                {| env := Println ("[SlowDB] search key " +:+ key) (env w);
                   calls := calls w ++ [CallShardGet key; CallGetter key] |})
    | Some s =>
        ∃ v g' w',
          Get fuel g key w = Some ((v, None), g', w') ∧
          ByteView_String v (heap (env w')) = s ∧
          output (env w')
          = output (env w) ++ ["[SlowDB] search key " +:+ key] ∧
          calls w'
          = calls w ++ [CallShardGet key; CallGetter key; CallShardAdd key] ∧
          ∀ (fuel' : nat) (w'' : World X),
            Get fuel' g' key w''
            = Some ((v, None), g',
                    {| env := Println "[GeeCache hit]" (env w'');
                       calls := calls w'' ++ [CallShardGet key] |})
    end.
Proof.
  intros Hkey Hfuel.
  destruct (createGroup_spec groups) as (g & Hcg & Hok & _ & Hgt & Hmc & Hp).
  exists g. split; [done|].
  pose proof (scores_Get g key w fuel Hok Hgt Hp Hmc Hkey Hfuel) as HG.
  destruct (db !! key) as [s|]; [|done].
  destruct HG as (v & g' & w' & HG & _ & _ & Hc & Hout & Hcalls & Hhit).
  exists v, g', w'. split_and!; try done.
  unfold ByteView_String. rewrite Hc.
  apply String.string_of_list_ascii_of_string.
Qed.

(** What the handlers send for a view: a copy with the bytes of the
    view, which stays as it was. *)
Lemma ByteSlice_body (v : ByteView) (h : Heap) :
  valid h (b v) ->
  ∃ data h',
    ByteSlice v h = (data, h') ∧
    contents h' data = contents h (b v) ∧
    valid h' (b v) ∧ contents h' (b v) = contents h (b v).
Proof.
  intros Hv. unfold ByteSlice.
  destruct (cloneBytes_spec (b v) h) as (a & h' & Hcl & Ha & Hh & Hc).
  rewrite Hcl. eexists _, _. split; [done|]. split_and!.
  - by apply Hc.
  - destruct (b v) as [|a0 off n]; [done|]. destruct Hv as (bs & Hbs & Hle).
    exists bs. split; [|done]. rewrite Hh; [done|].
    intros ->. apply Ha, elem_of_dom. by eexists.
  - by apply (contents_kept h h' a).
Qed.

(** X14.  A node of [main] as a peer: the handler of the pool, on
    the registry that holds the group of [createGroup], answers a
    request for a key of [db] with 200 and the score as the body.  It
    has logged the request and one search of the database, and the
    group it writes back to the registry holds the value: every later
    [Get] of the key on it is a hit. *)
Theorem ServeHTTP_loads_from_db (groups : Registry X) (p : HTTPPool)
    (method key s : string) (w : World X) (fuel : nat) :
  key ≠ "" -> db !! key = Some s -> (0 < fuel)%nat ->
  ∃ g groups',
    createGroup groups = Returns (g, groups') ∧
    ∃ g' w',
      ServeHTTP fuel p groups' method (basePath p +:+ "scores" +:+ "/" +:+ key)
        w
      = Returns ({| status := 200;
                    content_type := "application/octet-stream";
                    body := String.list_ascii_of_string s |},
                 <["scores" := g']> groups', w') ∧
      output (env w')
      = output (env w)
          ++ ["Server " +:+ self p +:+ "] " +:+ method +:+ " "
                +:+ (basePath p +:+ "scores" +:+ "/" +:+ key);
              "[SlowDB] search key " +:+ key] ∧
      ∀ (fuel' : nat) (w'' : World X),
        ∃ v, Get fuel' g' key w''
             = Some ((v, None), g',
                     {| env := Println "[GeeCache hit]" (env w'');
                        calls := calls w'' ++ [CallShardGet key] |}).
Proof.
  intros Hkey Hdb Hfuel.
  destruct (createGroup_spec groups) as (g & Hcg & Hok & _ & Hgt & Hmc & Hp).
  exists g, (<["scores" := g]> groups). split; [done|].
  rewrite ServeHTTP_parsed by (vm_compute; reflexivity).
  unfold GetGroup, Registry. rewrite lookup_insert_eq.
  pose proof (scores_Get g key
                (logged p method (basePath p +:+ "scores" +:+ "/" +:+ key) w)
                fuel Hok Hgt Hp Hmc Hkey Hfuel) as HG.
  rewrite Hdb in HG.
  destruct HG as (v & g' & w' & HG & _ & Hval & Hc & Hout & _ & Hhit).
  rewrite HG.
  destruct (ByteSlice_body v (heap (env w')) Hval)
    as (data & h' & HBS & Hbody & _ & _).
  rewrite HBS, Hbody, Hc. eexists _, _. split; [done|]. split.
  - simpl. rewrite Hout. simpl. by rewrite <- app_assoc.
  - intros fuel' w''. exists v. apply Hhit.
Qed.

(** X28.  The handler of the API server, on the group of
    [createGroup]: a request with no [key] value, or an empty one, is
    answered 500 "key is required"; a request for a key of [db] is
    answered 200 with the score as the body; any other key is answered
    500 "<key> not exist".  The same request made again gets the same
    answer, and for a key of [db] it is then served from the cache: the
    second request logs a hit and no search. *)
Theorem api_handler_answers (groups : Registry X) (query : Values)
    (w : World X) (fuel : nat) :
  (0 < fuel)%nat ->
  ∃ g,
    createGroup groups = Returns (g, <["scores" := g]> groups) ∧
    let key := Values_Get query "key" in
    let answer :=
      if decide (key = "") then http_Error "key is required" 500
      else match db !! key with
           | Some s =>
               {| status := 200;
                  content_type := "application/octet-stream";
                  body := String.list_ascii_of_string s |}
           | None => http_Error (key +:+ " not exist") 500
           end in
    ∃ gee' w',
      api_handler fuel g query w = Some (answer, gee', w') ∧
      ∃ gee'' w'',
        api_handler fuel gee' query w' = Some (answer, gee'', w'') ∧
        (is_Some (db !! key) ->
         output (env w'') = output (env w') ++ ["[GeeCache hit]"]).
Proof.
  intros Hfuel.
  destruct (createGroup_spec groups) as (g & Hcg & Hok & _ & Hgt & Hmc & Hp).
  exists g. split; [done|]. intros key answer. unfold api_handler.
  fold key. unfold answer. destruct (decide (key = "")) as [Hk|Hk].
  - rewrite Hk. unfold Get. rewrite bool_decide_eq_true_2 by done.
    eexists _, _. split; [done|].
    eexists _, _. split; [done|]. unfold db. intros [s Hs].
    by vm_compute in Hs.
  - pose proof (scores_Get g key w fuel Hok Hgt Hp Hmc Hk Hfuel) as HG.
    destruct (db !! key) as [s|] eqn:Hdb.
    + destruct HG as (v & g' & w' & HG & _ & Hval & Hc & _ & _ & Hhit).
      rewrite HG.
      destruct (ByteSlice_body v (heap (env w')) Hval)
        as (data & h' & HBS & Hbody & Hval' & Hsame).
      rewrite HBS, Hbody, Hc. eexists _, _. split; [done|].
      rewrite Hhit.
      match goal with
      | |- context [ByteSlice v ?h0] => change h0 with h'
      end.
      destruct (ByteSlice_body v h' Hval')
        as (data2 & h2 & HBS2 & Hbody2 & _ & _).
      rewrite HBS2, Hbody2, Hsame, Hc. eexists _, _. split; [done|].
      intros _. reflexivity.
    + rewrite HG.
      eexists _, _. split; [done|].
      pose proof (scores_Get g key
                    {| env := Println ("[SlowDB] search key " +:+ key) (env w);
                       calls := calls w ++ [CallShardGet key; CallGetter key] |}
                    fuel Hok Hgt Hp Hmc Hk Hfuel) as HG2.
      rewrite Hdb in HG2. rewrite HG2.
      eexists _, _. split; [done|]. by intros [s Hs].
Qed.

End main_program.

(** ** The further properties on concrete inputs *)

(** The cache that a run of operations reaches from a new one with a
    callback. *)
Definition after (M : Z) (ops : list (op geecache.ByteView))
  : lru.Cache geecache.ByteView :=
  default (lru.New M true) (run (length ops) ops (lru.New M true)).

Lemma abac_prefix_fits : Forall (op_fits (V := geecache.ByteView) 4) abac_prefix.
Proof. repeat constructor; vm_compute; congruence. Qed.

(** X1, a witness: the cache after the run A, B, get A, C under a budget
    of 4. *)
Lemma Get_finds_the_entries_witness :
  lru.Cache_Len (after 4 abac) = Z.of_nat (size (lru.cache (after 4 abac))) ∧
  ∀ k v, (lru.Get (after 4 abac) k).2 = Some v
         <-> lru.Entry k v ∈ lru.entries (after 4 abac).
Proof.
  destruct (Get_finds_the_entries 4 true 4 abac (after 4 abac))
    as (_ & _ & Hsz & Hget & _).
  - vm_compute. reflexivity.
  - exact (conj Hsz Hget).
Defined.

(** X2, a witness: adding C after the run A, B, get A under a budget of
    4. *)
Lemma Add_then_Get_witness :
  ∃ c', lru.Add 3 (after 4 abac_prefix) "C" (view 1) = Some c' ∧
        (lru.Get c' "C").2 = Some (view 1) ∧
        head (lru.entries c') = Some (lru.Entry "C" (view 1)).
Proof.
  apply (Add_then_Get 4 true 3 abac_prefix (after 4 abac_prefix) 3 "C" (view 1)).
  - vm_compute. reflexivity.
  - vm_compute. congruence.
  - right. vm_compute. split; congruence.
  - vm_compute. reflexivity.
Defined.

(** X3, a witness: an entry of 8 bytes added under a budget of 4. *)
Lemma Add_oversized_empties_witness :
  ∃ c', lru.Add 3 (after 4 abac_prefix) "Big" (view 5) = Some c' ∧
        lru.entries c' = [] ∧ lru.Cache_Len c' = 0.
Proof.
  destruct (Add_oversized_empties 4 true 3 abac_prefix (after 4 abac_prefix)
              3 "Big" (view 5)) as (c' & Hadd & He & Hl & _).
  - lia.
  - apply abac_prefix_fits.
  - vm_compute. reflexivity.
  - vm_compute. split; congruence.
  - vm_compute. reflexivity.
  - vm_compute. reflexivity.
  - exists c'. exact (conj Hadd (conj He Hl)).
Defined.

(** X4, a witness: adding C after the run A, B, get A under a budget of
    4. *)
Lemma Add_reports_evictions_witness :
  ∃ c' gone,
    lru.Add 3 (after 4 abac_prefix) "C" (view 1) = Some c' ∧
    lru.evicted c' = lru.evicted (after 4 abac_prefix) ++ reverse gone.
Proof.
  destruct (Add_reports_evictions 4 true 3 abac_prefix (after 4 abac_prefix)
              3 "C" (view 1)) as (c' & gone & Hadd & _ & _ & Hev).
  - vm_compute. reflexivity.
  - lia.
  - vm_compute. reflexivity.
  - exists c', gone. exact (conj Hadd Hev).
Defined.

(** X5, a witness: the key A after the run A, B, get A, C. *)
Lemma Get_is_never_stale_witness :
  bindings abac !! "A" = Some (view 1).
Proof.
  apply (Get_is_never_stale 4 true 4 abac (after 4 abac) "A" (view 1)).
  - vm_compute. reflexivity.
  - vm_compute. reflexivity.
Defined.

(** X6, a witness: the run A, B, get A, C without a budget and without
    fuel. *)
Lemma unbounded_cache_is_a_map_witness :
  ∃ c, run 0 abac (lru.New 0 true) = Some c ∧
       lru.evicted c = [] ∧
       ∀ k, (lru.Get c k).2 = bindings abac !! k.
Proof.
  apply (unbounded_cache_is_a_map true 0 abac). repeat constructor.
Defined.

(** X7, a witness: the cache after the run A, B, get A, C. *)
Lemma RemoveOldest_removes_the_last_witness :
  match last (lru.entries (after 4 abac)) with
  | None => lru.RemoveOldest (after 4 abac) = after 4 abac
  | Some kv =>
      lru.entries (after 4 abac)
      = lru.entries (lru.RemoveOldest (after 4 abac)) ++ [kv] ∧
      lru.Cache_Len (lru.RemoveOldest (after 4 abac))
      = lru.Cache_Len (after 4 abac) - 1 ∧
      lru.nbytes (lru.RemoveOldest (after 4 abac))
      = sub64 (lru.nbytes (after 4 abac)) (lru.charge kv) ∧
      (lru.Get (lru.RemoveOldest (after 4 abac)) (lru.key kv)).2 = None ∧
      (∀ k, k ≠ lru.key kv ->
         (lru.Get (lru.RemoveOldest (after 4 abac)) k).2
         = (lru.Get (after 4 abac) k).2) ∧
      lru.evicted (lru.RemoveOldest (after 4 abac))
      = lru.evicted (after 4 abac) ++ [kv]
  end.
Proof.
  apply (RemoveOldest_removes_the_last 4 true 4 abac (after 4 abac)).
  vm_compute. reflexivity.
Defined.

(** X8, a witness: adding C after the run A, B, get A under a budget of
    8. *)
Lemma Add_within_budget_witness :
  ∃ c', lru.Add 0 (after 8 abac_prefix) "C" (view 1) = Some c' ∧
        lru.evicted c' = lru.evicted (after 8 abac_prefix) ∧
        lru.Cache_Len c' = 3.
Proof.
  destruct (Add_within_budget 8 true 3 abac_prefix (after 8 abac_prefix)
              0 "C" (view 1)) as (c' & Hadd & _ & _ & Hev & Hlen).
  - lia.
  - repeat constructor; vm_compute; congruence.
  - vm_compute. reflexivity.
  - vm_compute. split; congruence.
  - vm_compute. congruence.
  - exists c'. refine (conj Hadd (conj Hev _)).
    rewrite Hlen. vm_compute. reflexivity.
Defined.

(** X29, a witness: the cache after the run A, B, get A, C under a
    budget of 4. *)
Lemma nbytes_is_the_wrapped_sum_witness :
  lru.nbytes (after 4 abac)
  = int64 (lru.total_size (lru.entries (after 4 abac))) ∧
  lru.maxBytes (after 4 abac) = 4.
Proof.
  apply (nbytes_is_the_wrapped_sum 4 true 4 abac (after 4 abac)).
  vm_compute. reflexivity.
Defined.

(** X30, a witness: a lookup and an eviction under a budget of -1. *)
Lemma Add_never_returns_under_a_negative_budget_witness :
  lru.Add 5 (lru.New (-1) false) "A" (view 1) = None.
Proof.
  destruct (Add_never_returns_under_a_negative_budget (V := geecache.ByteView)
              (-1) false 0 [OpGet "A"; OpRemoveOldest] (lru.New (-1) false))
    as (_ & _ & Hnever).
  - lia.
  - repeat constructor.
  - reflexivity.
  - apply Hnever. vm_compute. split; congruence.
Defined.

(** The addresses of the three nodes of [main], in the order of the
    comment in [main] and in another one: the program collects them by
    ranging over a map, in no fixed order. *)
Definition addrs : list string :=
  ["http://localhost:8001"; "http://localhost:8002"; "http://localhost:8003"].

Definition addrs' : list string :=
  ["http://localhost:8002"; "http://localhost:8003"; "http://localhost:8001"].

(** X11, a witness: the three addresses of [main] with the 50 replicas
    of the pool, whose 150 virtual nodes have distinct CRC-32 hashes. *)
Lemma ring_order_independent_witness :
  ring 50 None [addrs] = ring 50 None [addrs'] ∧
  consistenthash.Get (ring 50 None [addrs]) "Tom"
  = consistenthash.Get (ring 50 None [addrs']) "Tom".
Proof.
  apply (ring_order_independent 50 None [] addrs addrs' "Tom").
  - apply Permutation_cons_append.
  - apply (bool_decide_unpack _). vm_compute. exact I.
Defined.

(** X13, a witness: a ring with the first address of [main] only. *)
Lemma ring_of_one_peer_witness :
  consistenthash.Get (ring 50 None [["http://localhost:8001"]]) "Tom"
  = "http://localhost:8001".
Proof.
  apply (ring_of_one_peer 50 None [["http://localhost:8001"]]).
  - lia.
  - discriminate.
  - repeat constructor.
Defined.

(** The heap of [world0], and the value cached from it. *)
Definition heap0 : geecache.Heap := geecache.heap (geecache.env world0).

Lemma valid_view3 : valid heap0 (geecache.b (view 3)).
Proof.
  exists ["6"; "3"; "0"]%char. split; [vm_compute; reflexivity|]. simpl. lia.
Qed.

(** X15, a witness: the view on the three bytes of "630". *)
Lemma ByteSlice_returns_a_copy_witness :
  ∃ a h',
    geecache.ByteSlice (view 3) heap0 = (geecache.Slice a 0 3, h') ∧
    a ∉ dom heap0 ∧
    geecache.contents h' (geecache.Slice a 0 3)
    = geecache.contents heap0 (geecache.b (view 3)).
Proof.
  destruct (ByteSlice_returns_a_copy (view 3) heap0 valid_view3)
    as (a & h' & HBS & Ha & Hc & _).
  exists a, h'. exact (conj HBS (conj Ha Hc)).
Defined.



(** The proviso of the order theorem is needed: with a hash function
    that sends every string to 0 the last peer added owns the ring. *)
Example ring_order_matters_on_collision :
  consistenthash.Get (ring 1 (Some (λ _, 0)) [["a"; "b"]]) "Tom" = "b" ∧
  consistenthash.Get (ring 1 (Some (λ _, 0)) [["b"; "a"]]) "Tom" = "a".
Proof. split; vm_compute; reflexivity. Qed.


(** The group and the world after the first [Get] of "Tom", and the view
    that the shard then holds. *)
Definition scores_loaded : geecache.Group unit :=
  match geecache.Get 1 (scores 2048) "Tom" world0 with
  | Some (_, g, _) => g
  | None => scores 2048
  end.

Definition world_loaded : geecache.World unit :=
  match geecache.Get 1 (scores 2048) "Tom" world0 with
  | Some (_, _, w) => w
  | None => world0
  end.

Definition view_loaded : geecache.ByteView :=
  {| geecache.b := geecache.Slice 1 0 3 |}.

Lemma scores_loaded_ok : Group_ok scores_loaded.
Proof.
  apply (Group_ok_Get 1 (scores 2048) scores_loaded "Tom" world0
           (view_loaded, None) world_loaded).
  - split; [exact I|reflexivity].
  - vm_compute. reflexivity.
Qed.

Lemma view_loaded_cached :
  lru.Entry "Tom" view_loaded
  ∈ shard_entries (geecache.mainCache scores_loaded).
Proof.
  assert (shard_entries (geecache.mainCache scores_loaded)
          = [lru.Entry "Tom" view_loaded]) as ->
    by (vm_compute; reflexivity).
  apply list_elem_of_here.
Qed.

Lemma view_loaded_valid :
  valid (geecache.heap (geecache.env world_loaded)) (geecache.b view_loaded).
Proof.
  exists ["6"; "3"; "0"]%char. split; [vm_compute; reflexivity|]. simpl. lia.
Qed.

(** X17, a witness: the group after its first [Get] of "Tom". *)
Lemma Get_serves_from_the_cache_witness :
  ∃ g',
    geecache.Get 0 scores_loaded "Tom" world_loaded
    = Some ((view_loaded, None), g',
            {| geecache.env :=
                 geecache.Println "[GeeCache hit]" (geecache.env world_loaded);
               geecache.calls :=
                 geecache.calls world_loaded
                   ++ [geecache.CallShardGet "Tom"] |}) ∧
    Group_ok g'.
Proof.
  destruct (Get_serves_from_the_cache 0 scores_loaded "Tom" view_loaded
              world_loaded scores_loaded_ok)
    as (g' & HG & Hok & _).
  - discriminate.
  - apply view_loaded_cached.
  - exists g'. exact (conj HG Hok).
Defined.

Definition pool0 : geecache.HTTPPool :=
  geecache.NewHTTPPool "http://localhost:8001".

Definition groups0 : geecache.Registry unit := {[ "scores" := scores 2048 ]}.

Definition groups_loaded : geecache.Registry unit :=
  {[ "scores" := scores_loaded ]}.

(** X21, a witness: a request for the group "info", which is not
    registered. *)
Lemma ServeHTTP_unknown_group_witness :
  geecache.ServeHTTP 0 pool0 groups0 "GET" "/_geecache/info/Tom" world0
  = geecache.Returns
      ({| geecache.status := 404;
          geecache.content_type := "text/plain; charset=utf-8";
          geecache.body :=
            String.list_ascii_of_string "no such groupinfo" ++ ["010"%char] |},
       groups0, logged pool0 "GET" "/_geecache/info/Tom" world0).
Proof.
  apply (ServeHTTP_unknown_group 0 pool0 groups0 "GET" "info" "Tom" world0).
  - vm_compute. reflexivity.
  - vm_compute. reflexivity.
Defined.

(** X22, a witness: a request for the group "scores" with nothing after
    the separator. *)
Lemma ServeHTTP_empty_key_witness :
  geecache.ServeHTTP 0 pool0 groups0 "GET" "/_geecache/scores/" world0
  = geecache.Returns
      ({| geecache.status := 500;
          geecache.content_type := "text/plain; charset=utf-8";
          geecache.body :=
            String.list_ascii_of_string "key is required" ++ ["010"%char] |},
       groups0, logged pool0 "GET" "/_geecache/scores/" world0).
Proof.
  apply (ServeHTTP_empty_key 0 pool0 groups0 "GET" "scores" (scores 2048)
           world0).
  - vm_compute. reflexivity.
  - vm_compute. reflexivity.
Defined.

(** X23, a witness: a request for "Tom" after the group has loaded it.
    *)
Lemma ServeHTTP_serves_a_cached_value_witness :
  ∃ g' w',
    geecache.ServeHTTP 0 pool0 groups_loaded "GET" "/_geecache/scores/Tom"
      world_loaded
    = geecache.Returns
        ({| geecache.status := 200;
            geecache.content_type := "application/octet-stream";
            geecache.body :=
              geecache.contents (geecache.heap (geecache.env world_loaded))
                (geecache.b view_loaded) |},
         <["scores" := g']> groups_loaded, w').
Proof.
  destruct (ServeHTTP_serves_a_cached_value 0 pool0 groups_loaded "GET"
              "scores" "Tom" scores_loaded view_loaded world_loaded)
    as (g' & w' & HS & _).
  - vm_compute. reflexivity.
  - vm_compute. reflexivity.
  - apply scores_loaded_ok.
  - discriminate.
  - apply view_loaded_cached.
  - apply view_loaded_valid.
  - exists g', w'. exact HS.
Defined.

(** X25, a witness: the pool of the first node with itself as the only
    member. *)
Lemma PickPeer_of_a_lone_node_witness :
  geecache.PickPeer
    (geecache.HTTPPool_Set pool0 ["http://localhost:8001"]) "Tom"
    (geecache.env world0)
  = geecache.Returns ((None, false), geecache.env world0).
Proof.
  apply (PickPeer_of_a_lone_node pool0 ["http://localhost:8001"] "Tom").
  repeat constructor.
Defined.

(** X27, a witness: the key "Tom". *)
Lemma createGroup_answers_from_db_witness :
  ∃ g,
    main.createGroup (X := unit) ∅ = geecache.Returns (g, <["scores" := g]> ∅) ∧
    ∃ v g' w',
      geecache.Get 1 g "Tom" world0 = Some ((v, None), g', w') ∧
      geecache.ByteView_String v (geecache.heap (geecache.env w')) = "630".
Proof.
  destruct (createGroup_answers_from_db (X := unit) ∅ "Tom" world0 1)
    as (g & Hcg & HG).
  - discriminate.
  - lia.
  - exists g. split; [exact Hcg|].
    change (main.db !! "Tom") with (Some "630") in HG.
    destruct HG as (v & g' & w' & HG & Hs & _).
    exists v, g', w'. exact (conj HG Hs).
Defined.

(** X14, a witness: the first request for "Tom" to the first node. *)
Lemma ServeHTTP_loads_from_db_witness :
  ∃ g groups' g' w',
    main.createGroup (X := unit) ∅ = geecache.Returns (g, groups') ∧
    geecache.ServeHTTP 1 pool0 groups' "GET" "/_geecache/scores/Tom" world0
    = geecache.Returns
        ({| geecache.status := 200;
            geecache.content_type := "application/octet-stream";
            geecache.body := String.list_ascii_of_string "630" |},
         <["scores" := g']> groups', w').
Proof.
  destruct (ServeHTTP_loads_from_db (X := unit) ∅ pool0 "GET" "Tom" "630"
              world0 1)
    as (g & groups' & Hcg & g' & w' & HS & _).
  - discriminate.
  - reflexivity.
  - lia.
  - exists g, groups', g', w'. exact (conj Hcg HS).
Defined.

(** X28, a witness: the request [/api?key=Tom]. *)
Lemma api_handler_answers_witness :
  ∃ g gee' w',
    main.createGroup (X := unit) ∅ = geecache.Returns (g, <["scores" := g]> ∅) ∧
    main.api_handler 1 g {[ "key" := ["Tom"] ]} world0
    = Some ({| geecache.status := 200;
               geecache.content_type := "application/octet-stream";
               geecache.body := String.list_ascii_of_string "630" |},
            gee', w').
Proof.
  destruct (api_handler_answers (X := unit) ∅ {[ "key" := ["Tom"] ]} world0 1)
    as (g & Hcg & gee' & w' & HA & _).
  - lia.
  - exists g, gee', w'. exact (conj Hcg HA).
Defined.
